(** * pyopenems: the synchronous bridge and the client

    A shallow embedding of [openems/utils/bridge.py], [openems/exceptions.py]
    and [openems/api.py].

    The Python program is written against three libraries that are not part
    of the repository: [asyncio] (event loops), [concurrent.futures] (the
    thread pool and its futures) and [asgiref] ([async_to_sync]).  Their
    behaviour is embedded as a discrete-time machine:

    - time advances in ticks; an asynchronous operation needs a fixed number
      of ticks and then resolves, atomically, by acting on the shared state;
    - a thread pool is a FIFO work queue served by at most [max_workers]
      worker threads, each running one work item at a time;
    - a blocking call lets ticks pass until its condition holds.

    Operations are opaque: they resolve after finitely many ticks and do
    not call back into the bridge, and [shutdown] is called from a thread
    that is none of the pool's workers.  The remote is a table of answers;
    it has finitely many pages of edges, and a handle that is connected
    stays connected.  What pandas makes of the data of a time series is a
    parameter of the client. *)

From stdpp Require Import base option list gmap strings pretty.
From Stdlib Require Import ZArith Lia Ascii.

Set Implicit Arguments.
Set Maximal Implicit Insertion.
Set Warnings "-register-all".
Set Default Proof Using "Type".

Open Scope string_scope.
Open Scope list_scope.
Open Scope nat_scope.

(** ** Python values and exceptions *)

Inductive PyVal : Type :=
| PNone
| PBool (b : bool)
| PInt (z : Z)
| PStr (s : string)
| PList (l : list PyVal)
| PDict (items : list (string * PyVal)).

(** The exception classes the program raises, catches or lets through.
    [args] is the exception's [args] tuple. *)
Inductive Exn : Type :=
| ProtocolError (args : list PyVal)
| TransportError (args : list PyVal)
| APIError (message : string) (code : PyVal)
| TimeoutError
| RuntimeError (msg : string)
| ValueError (msg : string)
| IndexError (msg : string)
| KeyError (key : string)
| TypeError (msg : string)
| AttributeError (msg : string)
| OtherError (name : string) (args : list PyVal).

(** How a Python call that comes back ends. *)
Inductive Res (A : Type) : Type :=
| Returns (a : A)
| Raises (e : Exn).
Arguments Returns {A} a.
Arguments Raises {A} e.

Definition Outcome : Type := Res PyVal.

(** How a blocking call ends: it comes back, or it never does. *)
Inductive Call : Type :=
| Done (o : Outcome)
| Hangs.

(** ** asyncio: what a thread sees of event loops *)

Record EventLoop : Type := { loop_id : nat; is_running : bool }.

(** The loop that [asyncio.get_running_loop()] finds on the calling thread;
    [None] when it raises [RuntimeError]. *)
Definition ThreadCtx : Type := option EventLoop.

(** ** What the program does to the outside, in order *)

Inductive Event : Type :=
| EvNewEventLoop (l : nat)
| EvSetEventLoop (l : nat)
| EvRunUntilComplete (l : nat)
| EvSubmit (f : nat)
| EvSubmitRefused
| EvFutureResult (f : nat)
| EvStart (f : nat)
| EvFinish (f : nat).

Module Pool.
Section Pool.

Variable St : Type.

(** An asynchronous operation with its arguments bound, the coroutine that
    [async_fn] makes of [args] and [kwargs]: it takes [co_dur] ticks and then
    resolves by [co_body]. *)
Record Coroutine : Type := {
  co_dur : nat;
  co_body : St -> Outcome * St }.

Record WorkItem : Type := {
  wi_future : nat;
  wi_fn : Coroutine;
  wi_left : nat }.

(** [concurrent.futures.ThreadPoolExecutor].  [_running] are the items the
    worker threads are executing, [_futures] the futures that are finished. *)
Record ThreadPoolExecutor : Type := {
  _max_workers : nat;
  _shutdown : bool;
  _work_queue : list WorkItem;
  _running : list WorkItem;
  _threads : nat;
  _futures : gmap nat Outcome;
  _next_future : nat }.

Record World : Type := {
  heap : St;
  now : nat;
  next_loop : nat;
  log : list Event }.

Definition emit (e : Event) (w : World) : World :=
  {| heap := heap w; now := now w; next_loop := next_loop w;
     log := log w ++ [e] |}.

Definition set_heap (h : St) (w : World) : World :=
  {| heap := h; now := now w; next_loop := next_loop w; log := log w |}.

Definition advance_clock (w : World) : World :=
  {| heap := heap w; now := S (now w); next_loop := next_loop w;
     log := log w |}.

(** [ThreadPoolExecutor(max_workers=n)] *)
Definition new_executor (max_workers : Z) : Res ThreadPoolExecutor :=
  if decide (max_workers <= 0)%Z then
    Raises (ValueError "max_workers must be greater than 0")
  else
    Returns {| _max_workers := Z.to_nat max_workers;
               _shutdown := false;
               _work_queue := [];
               _running := [];
               _threads := 0;
               _futures := ∅;
               _next_future := 0 |}.

(** *** The worker threads *)

(** A free worker takes the head of the queue. *)
Definition worker_start (ex : ThreadPoolExecutor) (w : World)
  : ThreadPoolExecutor * World :=
  match _work_queue ex with
  | [] => (ex, w)
  | wi :: q =>
      if decide (length (_running ex) < _threads ex) then
        ({| _max_workers := _max_workers ex;
            _shutdown := _shutdown ex;
            _work_queue := q;
            _running := _running ex ++ [wi];
            _threads := _threads ex;
            _futures := _futures ex;
            _next_future := _next_future ex |},
         emit (EvStart (wi_future wi)) w)
      else (ex, w)
  end.

Fixpoint fill (n : nat) (ex : ThreadPoolExecutor) (w : World)
  : ThreadPoolExecutor * World :=
  match n with
  | 0 => (ex, w)
  | S k => let '(ex', w') := worker_start ex w in fill k ex' w'
  end.

(** Every free worker takes an item, while there are items. *)
Definition start_all (ex : ThreadPoolExecutor) (w : World)
  : ThreadPoolExecutor * World :=
  fill (length (_work_queue ex)) ex w.

Definition work (wi : WorkItem) : WorkItem :=
  {| wi_future := wi_future wi; wi_fn := wi_fn wi;
     wi_left := pred (wi_left wi) |}.

(** One tick of work on every running item. *)
Definition clock (ex : ThreadPoolExecutor) (w : World)
  : ThreadPoolExecutor * World :=
  ({| _max_workers := _max_workers ex;
      _shutdown := _shutdown ex;
      _work_queue := _work_queue ex;
      _running := work <$> _running ex;
      _threads := _threads ex;
      _futures := _futures ex;
      _next_future := _next_future ex |},
   advance_clock w).

(** The running items with no work left resolve: the operation acts on
    the shared state and its outcome is set on the future. *)
Fixpoint resolve (rs : list WorkItem) (fs : gmap nat Outcome) (w : World)
  : list WorkItem * gmap nat Outcome * World :=
  match rs with
  | [] => ([], fs, w)
  | wi :: rs' =>
      match wi_left wi with
      | 0 =>
          let '(o, h) := co_body (wi_fn wi) (heap w) in
          resolve rs' (<[wi_future wi := o]> fs)
                  (emit (EvFinish (wi_future wi)) (set_heap h w))
      | S _ =>
          let '(rs'', fs', w') := resolve rs' fs w in
          (wi :: rs'', fs', w')
      end
  end.

Definition worker_finish (ex : ThreadPoolExecutor) (w : World)
  : ThreadPoolExecutor * World :=
  let '(rs, fs, w') := resolve (_running ex) (_futures ex) w in
  ({| _max_workers := _max_workers ex;
      _shutdown := _shutdown ex;
      _work_queue := _work_queue ex;
      _running := rs;
      _threads := _threads ex;
      _futures := fs;
      _next_future := _next_future ex |}, w').

(** One tick with workers that never idle: take work, work, resolve. *)
Definition tick (ex : ThreadPoolExecutor) (w : World)
  : ThreadPoolExecutor * World :=
  let '(ex1, w1) := start_all ex w in
  let '(ex2, w2) := clock ex1 w1 in
  worker_finish ex2 w2.

Fixpoint ticks (n : nat) (ex : ThreadPoolExecutor) (w : World)
  : ThreadPoolExecutor * World :=
  match n with
  | 0 => (ex, w)
  | S k => let '(ex', w') := tick ex w in ticks k ex' w'
  end.

(** *** The calls of the executor *)

(** [_adjust_thread_count]: a thread is created when no worker is idle and
    the pool is not at [max_workers]. *)
Definition adjust_thread_count (ex : ThreadPoolExecutor)
  : ThreadPoolExecutor :=
  if decide (length (_running ex) < _threads ex) then ex
  else if decide (_threads ex < _max_workers ex) then
    {| _max_workers := _max_workers ex;
       _shutdown := _shutdown ex;
       _work_queue := _work_queue ex;
       _running := _running ex;
       _threads := S (_threads ex);
       _futures := _futures ex;
       _next_future := _next_future ex |}
  else ex.

(** [executor.submit(fn)]: the future's number, or the [RuntimeError] of an
    executor that was shut down. *)
Definition submit (fn : Coroutine) (ex : ThreadPoolExecutor) (w : World)
  : Res nat * ThreadPoolExecutor * World :=
  if _shutdown ex then
    (Raises (RuntimeError "cannot schedule new futures after shutdown"),
     ex, emit EvSubmitRefused w)
  else
    let f := _next_future ex in
    (Returns f,
     adjust_thread_count
       {| _max_workers := _max_workers ex;
          _shutdown := _shutdown ex;
          _work_queue := _work_queue ex ++
            [{| wi_future := f; wi_fn := fn; wi_left := co_dur fn |}];
          _running := _running ex;
          _threads := _threads ex;
          _futures := _futures ex;
          _next_future := S f |},
     emit (EvSubmit f) w).

(** Ticks that certainly empty the pool: every item occupies a worker for
    at least one tick and at most its remaining work. *)
Definition cost (wi : WorkItem) : nat := Nat.max 1 (wi_left wi).

Definition backlog (ex : ThreadPoolExecutor) : nat :=
  sum_list (cost <$> _running ex) + sum_list (cost <$> _work_queue ex).

(** The caller sleeps until the future is finished or [budget] ticks passed. *)
Fixpoint await (f : nat) (budget : nat) (ex : ThreadPoolExecutor) (w : World)
  : option Outcome * ThreadPoolExecutor * World :=
  match _futures ex !! f with
  | Some o => (Some o, ex, w)
  | None =>
      match budget with
      | 0 => (None, ex, w)
      | S b => let '(ex', w') := tick ex w in await f b ex' w'
      end
  end.

(** [fut.result(timeout=timeout)]: the outcome of the future's operation,
    [TimeoutError] once [timeout] ticks passed without it; with no timeout
    the caller waits for as long as it takes. *)
Definition result (f : nat) (timeout : option nat)
  (ex : ThreadPoolExecutor) (w : World)
  : Call * ThreadPoolExecutor * World :=
  let budget := match timeout with Some t => t | None => backlog ex end in
  let '(r, ex', w') := await f budget ex (emit (EvFutureResult f) w) in
  match r, timeout with
  | Some o, _ => (Done o, ex', w')
  | None, Some _ => (Done (Raises TimeoutError), ex', w')
  | None, None => (Hangs, ex', w')
  end.

Definition idle (ex : ThreadPoolExecutor) : bool :=
  match _work_queue ex, _running ex with
  | [], [] => true
  | _, _ => false
  end.

Fixpoint join (budget : nat) (ex : ThreadPoolExecutor) (w : World)
  : ThreadPoolExecutor * World :=
  if idle ex then (ex, w)
  else match budget with
       | 0 => (ex, w)
       | S b => let '(ex', w') := tick ex w in join b ex' w'
       end.

(** [executor.shutdown(wait=True)]: no new work is accepted, the workers
    finish what was submitted and exit, the caller joins them. *)
Definition executor_shutdown (ex : ThreadPoolExecutor) (w : World)
  : Call * ThreadPoolExecutor * World :=
  let ex1 :=
    {| _max_workers := _max_workers ex;
       _shutdown := true;
       _work_queue := _work_queue ex;
       _running := _running ex;
       _threads := _threads ex;
       _futures := _futures ex;
       _next_future := _next_future ex |} in
  let '(ex2, w2) := join (backlog ex1) ex1 w in
  if idle ex2 then
    (Done (Returns PNone),
     {| _max_workers := _max_workers ex2;
        _shutdown := _shutdown ex2;
        _work_queue := _work_queue ex2;
        _running := _running ex2;
        _threads := 0;
        _futures := _futures ex2;
        _next_future := _next_future ex2 |}, w2)
  else (Hangs, ex2, w2).

(** *** The event loop *)

(** [loop.run_until_complete(coro)] on loop [l], called from a thread whose
    running loop is [ctx]: [_check_running] refuses a thread that already
    runs a loop; otherwise the caller drives the coroutine until it
    resolves. *)
Definition run_until_complete (l : nat) (coro : Coroutine) (ctx : ThreadCtx)
  (ex : ThreadPoolExecutor) (w : World)
  : Call * ThreadPoolExecutor * World :=
  let w0 := emit (EvRunUntilComplete l) w in
  match ctx with
  | Some cur =>
      if bool_decide (loop_id cur = l) && is_running cur then
        (Done (Raises (RuntimeError "This event loop is already running")),
         ex, w0)
      else
        (Done (Raises (RuntimeError
           "Cannot run the event loop while another loop is running")),
         ex, w0)
  | None =>
      let '(ex', w') := ticks (co_dur coro) ex w0 in
      let '(o, h) := co_body coro (heap w') in
      (Done o, ex', set_heap h w')
  end.

(** [async_to_sync(async_fn)] called on a worker thread, which runs no
    loop: the coroutine is run to its end on a private loop and the call
    returns what it returned or raises what it raised. *)
Definition async_to_sync (async_fn : Coroutine) : Coroutine := async_fn.

(** *** Schedules

    What threads can do to a pool, one step at a time and in any order:
    some thread submits, a worker takes an item, time passes, a worker
    resolves what it finished. *)
Inductive Step : Type :=
| StSubmit (fn : Coroutine)
| StStart
| StClock
| StFinish.

Definition step (s : Step) (ex : ThreadPoolExecutor) (w : World)
  : ThreadPoolExecutor * World :=
  match s with
  | StSubmit fn => let '(_, ex', w') := submit fn ex w in (ex', w')
  | StStart => worker_start ex w
  | StClock => clock ex w
  | StFinish => worker_finish ex w
  end.

Fixpoint steps (ss : list Step) (ex : ThreadPoolExecutor) (w : World)
  : ThreadPoolExecutor * World :=
  match ss with
  | [] => (ex, w)
  | s :: ss' => let '(ex', w') := step s ex w in steps ss' ex' w'
  end.

(** *** Vocabulary of the properties *)

(** The work items the pool holds: being run, or queued. *)
Definition resident (ex : ThreadPoolExecutor) : list WorkItem :=
  _running ex ++ _work_queue ex.

Definition unresolved (ex : ThreadPoolExecutor) (f : nat) : bool :=
  match _futures ex !! f with
  | Some _ => false
  | None => true
  end.

(** The shape of every executor the program reaches: threads within
    [max_workers], one item per thread at most, a thread whenever there is
    work, and futures numbered apart, those of resident items unresolved. *)
Definition well_formed (ex : ThreadPoolExecutor) : bool :=
  bool_decide (1 ≤ _max_workers ex)
  && bool_decide (_threads ex ≤ _max_workers ex)
  && bool_decide (length (_running ex) ≤ _threads ex)
  && bool_decide (length (resident ex) = 0 ∨ 1 ≤ _threads ex)
  && bool_decide (NoDup (wi_future <$> resident ex))
  && forallb (λ wi, bool_decide (wi_future wi < _next_future ex)
                    && unresolved ex (wi_future wi)) (resident ex)
  && bool_decide (map_Forall (λ f _, f < _next_future ex) (_futures ex)).

(** The same shape, as what it says. *)
Record wf (ex : ThreadPoolExecutor) : Prop := {
  wf_workers : 1 ≤ _max_workers ex;
  wf_threads : _threads ex ≤ _max_workers ex;
  wf_running : length (_running ex) ≤ _threads ex;
  wf_staffed : length (resident ex) = 0 ∨ 1 ≤ _threads ex;
  wf_nodup : NoDup (wi_future <$> resident ex);
  wf_fresh : ∀ wi, wi ∈ resident ex →
               wi_future wi < _next_future ex
               ∧ _futures ex !! wi_future wi = None;
  wf_known : ∀ f o, _futures ex !! f = Some o → f < _next_future ex }.



(** The number of ticks after which future [f] is finished, looking
    [budget] ticks ahead. *)
Fixpoint finish_time (f : nat) (budget : nat) (ex : ThreadPoolExecutor)
  (w : World) : option nat :=
  match _futures ex !! f with
  | Some _ => Some 0
  | None =>
      match budget with
      | 0 => None
      | S b => let '(ex', w') := tick ex w in S <$> finish_time f b ex' w'
      end
  end.

(** What a step leaves of an executor as it was. *)
Definition frame ex ex' : Prop :=
  _max_workers ex' = _max_workers ex ∧ _shutdown ex' = _shutdown ex
  ∧ _threads ex' = _threads ex ∧ _next_future ex' = _next_future ex.

Definition grows (P : Event → bool) w w' : Prop :=
  ∃ evs, log w' = log w ++ evs ∧ Forall (λ e, P e = true) evs.

Definition start_event (e : Event) : bool :=
  match e with EvStart _ => true | _ => false end.
Definition finish_event (e : Event) : bool :=
  match e with EvFinish _ => true | _ => false end.
Definition worker_event (e : Event) : bool :=
  match e with EvStart _ | EvFinish _ => true | _ => false end.

Definition started ex w ex' w' : Prop :=
  frame ex ex' ∧ _futures ex' = _futures ex
  ∧ heap w' = heap w ∧ now w' = now w ∧ next_loop w' = next_loop w
  ∧ grows start_event w w'
  ∧ (∃ k, _running ex' = _running ex ++ take k (_work_queue ex)
          ∧ _work_queue ex' = drop k (_work_queue ex))
  ∧ (length (_running ex) ≤ _threads ex → length (_running ex') ≤ _threads ex).

(** In a log: a start comes after the finish of every earlier future, a
    finish after its own start, a submission after those of smaller
    numbers. *)
Definition ordered (evs : list Event) : Prop :=
  (∀ l1 b l2, evs = l1 ++ EvStart b :: l2 → ∀ a, a < b → EvFinish a ∈ l1)
  ∧ (∀ l1 a l2, evs = l1 ++ EvFinish a :: l2 → EvStart a ∈ l1)
  ∧ (∀ l1 b l2, evs = l1 ++ EvSubmit b :: l2 →
       ∀ a, EvSubmit a ∈ l1 → a < b).

(** A pool with one worker, [evs] after [base] in the log: the resident
    items are numbered [m], [m+1], ... in order, all before are finished. *)
Definition serial (base : list Event) ex w : Prop :=
  ∃ evs m,
    log w = base ++ evs
    ∧ _max_workers ex = 1
    ∧ _threads ex ≤ _max_workers ex
    ∧ length (_running ex) ≤ _threads ex
    ∧ wi_future <$> resident ex = seq m (length (resident ex))
    ∧ m + length (resident ex) = _next_future ex
    ∧ (∀ a, a < m → EvFinish a ∈ evs)
    ∧ (∀ wi, wi ∈ _running ex → EvStart (wi_future wi) ∈ evs)
    ∧ (∀ a, EvSubmit a ∈ evs → a < _next_future ex)
    ∧ ordered evs.

(** The events of the caller's side of [run]. *)
Definition caller_event (e : Event) : bool :=
  match e with
  | EvRunUntilComplete _ | EvSubmit _ | EvSubmitRefused
  | EvFutureResult _ => true
  | _ => false
  end.

Definition new_loop_event (e : Event) : bool :=
  match e with
  | EvNewEventLoop _ => true
  | _ => false
  end.




End Pool.

Arguments StStart {St}.
Arguments StClock {St}.
Arguments StFinish {St}.

End Pool.

(** ** openems/utils/bridge.py *)

Module Bridge.
Import Pool.
Section Bridge.

Variable St : Type.

Record ASGIRefBridge : Type := {
  _executor : ThreadPoolExecutor St;
  isinparentloop : bool;
  loop : option nat }.

Definition set_executor (ex : ThreadPoolExecutor St) (self : ASGIRefBridge)
  : ASGIRefBridge :=
  {| _executor := ex;
     isinparentloop := isinparentloop self;
     loop := loop self |}.

(** [max_workers: int = 1] *)
Definition default_max_workers : Z := 1.

Definition isinloop (ctx : ThreadCtx) : bool :=
  match ctx with
  | Some loop => if is_running loop then true else false
  | None => false
  end.

Definition __init__ (max_workers : Z) (ctx : ThreadCtx) (w : World St)
  : Res ASGIRefBridge * World St :=
  match new_executor St max_workers with
  | Raises e => (Raises e, w)
  | Returns ex =>
      let inparent := isinloop ctx in
      if negb inparent then
        let l := next_loop w in
        (Returns {| _executor := ex;
                    isinparentloop := inparent;
                    loop := Some l |},
         emit (EvSetEventLoop l)
           (emit (EvNewEventLoop l)
              {| heap := heap w; now := now w; next_loop := S l;
                 log := log w |}))
      else
        (Returns {| _executor := ex;
                    isinparentloop := inparent;
                    loop := None |}, w)
  end.

Definition run (self : ASGIRefBridge) (async_fn : Coroutine St)
  (timeout : option nat) (ctx : ThreadCtx) (w : World St)
  : Call * ASGIRefBridge * World St :=
  if isinparentloop self then
    match submit (async_to_sync async_fn) (_executor self) w with
    | (Raises e, ex, w') => (Done (Raises e), set_executor ex self, w')
    | (Returns fut, ex, w') =>
        let '(r, ex', w'') := result fut timeout ex w' in
        (r, set_executor ex' self, w'')
    end
  else
    match loop self with
    | None =>
        (Done (Raises (AttributeError
           "'ASGIRefBridge' object has no attribute 'loop'")), self, w)
    | Some l =>
        let '(r, ex, w') :=
          run_until_complete l async_fn ctx (_executor self) w in
        (r, set_executor ex self, w')
    end.

Definition shutdown (self : ASGIRefBridge) (w : World St)
  : Call * ASGIRefBridge * World St :=
  let '(r, ex, w') := executor_shutdown (_executor self) w in
  (r, set_executor ex self, w').

(** *** Vocabulary of the properties *)

(** What the owner of a bridge does with it over its lifetime. *)
Inductive Use : Type :=
| UseRun (async_fn : Coroutine St) (timeout : option nat) (ctx : ThreadCtx)
| UseShutdown
| UseSleep (n : nat).

Definition use (u : Use) (self : ASGIRefBridge) (w : World St)
  : ASGIRefBridge * World St :=
  match u with
  | UseRun async_fn timeout ctx =>
      let '(_, self', w') := run self async_fn timeout ctx w in (self', w')
  | UseShutdown => let '(_, self', w') := shutdown self w in (self', w')
  | UseSleep n =>
      let '(ex, w') := ticks n (_executor self) w in
      (set_executor ex self, w')
  end.

Fixpoint uses (us : list Use) (self : ASGIRefBridge) (w : World St)
  : ASGIRefBridge * World St :=
  match us with
  | [] => (self, w)
  | u :: us' => let '(self', w') := use u self w in uses us' self' w'
  end.

(** The caller's side of the pool path, and of the loop path. *)
Definition pool_route (ex : ThreadPoolExecutor St) : list Event :=
  if _shutdown ex then [EvSubmitRefused]
  else [EvSubmit (_next_future ex); EvFutureResult (_next_future ex)].

Definition loop_route (l : nat) : list Event := [EvRunUntilComplete l].

(** The callers [run] is made for: on the loop path a thread that runs
    no loop, on the pool path any thread while the pool is not shut down. *)
Definition can_run (self : ASGIRefBridge) (ctx : ThreadCtx) : Prop :=
  (isinparentloop self = false ∧ is_Some (loop self) ∧ ctx = None)
  ∨ (isinparentloop self = true ∧ _shutdown (_executor self) = false).

(** The ticks a caller that submits [async_fn] now has to wait on its
    future until it is finished. *)
Definition completion_time (self : ASGIRefBridge) (async_fn : Coroutine St)
  (w : World St) : option nat :=
  match submit (async_to_sync async_fn) (_executor self) w with
  | (Returns fut, ex, w') =>
      finish_time fut (backlog ex) ex (emit (EvFutureResult fut) w')
  | (Raises _, _, _) => None
  end.

End Bridge.

Arguments UseShutdown {St}.
Arguments UseSleep {St} n.

End Bridge.

(** ** openems/api.py: the session cache and the remote calls *)

Module Api.
Import Pool Bridge.

(** A [jsonrpc_websocket.Server] handle.  [srv_connected] is its
    [connected] attribute, [None] for an object that has none. *)
Record Server : Type := {
  srv_id : nat;
  srv_url : string;
  srv_connected : option bool }.

(** What the client sends to the remote. *)
Inductive Request : Type :=
| ReqConnect (url : string)
| ReqAuthenticate (username password : string)
| ReqGetEdges (page limit : nat)
| ReqEdgeRpc (edgeId payload : PyVal).

(** What the remote answers.  [on_getEdges] holds the answers to page 0,
    1, ... of a listing; the pages after the last hold no edge. *)
Record Remote : Type := {
  on_ws_connect : option Exn;
  on_authenticateWithPassword : Outcome;
  on_getEdges : list Outcome;
  on_edgeRpc : PyVal -> PyVal -> Outcome;
  latency : nat }.

(** The state the client's operations act on: the cached handle
    [self._server], the remote, the requests sent so far, and the supplies
    of handles and of [uuid.uuid4()]. *)
Record Session : Type := {
  _server : option Server;
  remote : Remote;
  sent : list Request;
  next_server : nat;
  uuid4 : nat -> string;
  next_uuid : nat }.

Record OpenEMSAPIClient : Type := {
  server_url : string;
  username : string;
  password : string;
  _bridge : ASGIRefBridge Session }.

(** *** Coroutine bodies: state and exceptions *)

Definition M (A : Type) : Type := Session -> Res A * Session.

Definition ret {A} (a : A) : M A := fun s => (Returns a, s).

Definition raise {A} (e : Exn) : M A := fun s => (Raises e, s).

Definition bind {A B} (m : M A) (k : A -> M B) : M B :=
  fun s => match m s with
           | (Returns a, s') => k a s'
           | (Raises e, s') => (Raises e, s')
           end.

Notation "'let*' x ':=' m 'in' k" := (bind m (fun x => k))
  (at level 10, x pattern, m at level 100, k at level 200).

Definition lift {A} (r : Res A) : M A := fun s => (r, s).

(** [try: m  except jsonrpc_base.jsonrpc.ProtocolError as e: h(e.args)] *)
Definition except_ProtocolError {A} (m : M A) (h : list PyVal -> M A) : M A :=
  fun s => match m s with
           | (Raises (ProtocolError args), s') => h args s'
           | r => r
           end.

Definition get_server : M (option Server) := fun s => (Returns (_server s), s).

Definition set_server (srv : option Server) : M unit :=
  fun s => (Returns tt,
            {| _server := srv; remote := remote s; sent := sent s;
               next_server := next_server s; uuid4 := uuid4 s;
               next_uuid := next_uuid s |}).

Definition get_remote : M Remote := fun s => (Returns (remote s), s).

(** A request goes out. *)
Definition send (q : Request) : M unit :=
  fun s => (Returns tt,
            {| _server := _server s; remote := remote s;
               sent := sent s ++ [q];
               next_server := next_server s; uuid4 := uuid4 s;
               next_uuid := next_uuid s |}).

(** [Server(url)]: a new handle, not connected. *)
Definition new_Server (url : string) : M Server :=
  fun s => (Returns {| srv_id := next_server s; srv_url := url;
                       srv_connected := Some false |},
            {| _server := _server s; remote := remote s; sent := sent s;
               next_server := S (next_server s); uuid4 := uuid4 s;
               next_uuid := next_uuid s |}).

(** [str(uuid.uuid4())] *)
Definition new_uuid : M PyVal :=
  fun s => (Returns (PStr (uuid4 s (next_uuid s))),
            {| _server := _server s; remote := remote s; sent := sent s;
               next_server := next_server s; uuid4 := uuid4 s;
               next_uuid := S (next_uuid s) |}).

(** *** Python built-ins on values *)

(** [t[i]] on a tuple *)
Definition tuple_item (t : list PyVal) (i : nat) : Res PyVal :=
  match t !! i with
  | Some v => Returns v
  | None => Raises (IndexError "tuple index out of range")
  end.

Fixpoint dict_get (items : list (string * PyVal)) (key : string)
  : option PyVal :=
  match items with
  | [] => None
  | (k, v) :: rest => if String.eqb k key then Some v else dict_get rest key
  end.

(** [v[key]] with a string key *)
Definition getitem (v : PyVal) (key : string) : Res PyVal :=
  match v with
  | PDict items =>
      match dict_get items key with
      | Some x => Returns x
      | None => Raises (KeyError key)
      end
  | PList _ =>
      Raises (TypeError "list indices must be integers or slices, not str")
  | PStr _ =>
      Raises (TypeError "string indices must be integers, not 'str'")
  | _ => Raises (TypeError "object is not subscriptable")
  end.

Fixpoint chars (s : string) : list PyVal :=
  match s with
  | EmptyString => []
  | String c rest => PStr (String c EmptyString) :: chars rest
  end.

(** The elements [iter(v)] yields. *)
Definition iterate (v : PyVal) : Res (list PyVal) :=
  match v with
  | PList l => Returns l
  | PStr s => Returns (chars s)
  | PDict items => Returns ((fun kv => PStr (fst kv)) <$> items)
  | _ => Raises (TypeError "object is not iterable")
  end.

(** [len(v)] *)
Definition len (v : PyVal) : Res nat :=
  match v with
  | PList l => Returns (length l)
  | PStr s => Returns (String.length s)
  | PDict items => Returns (length items)
  | _ => Raises (TypeError "object has no len()")
  end.

(** [type(v).__name__] *)
Definition type_name (v : PyVal) : string :=
  match v with
  | PNone => "NoneType"
  | PBool _ => "bool"
  | PInt _ => "int"
  | PStr _ => "str"
  | PList _ => "list"
  | PDict _ => "dict"
  end.

(** What [v.name] raises on a value that has no such attribute. *)
Definition no_attribute (v : PyVal) (name : string) : Exn :=
  AttributeError ("'" +:+ type_name v +:+ "' object has no attribute '"
                  +:+ name +:+ "'").

(** [bool(v)], the test of [if v:] *)
Definition truthy (v : PyVal) : bool :=
  match v with
  | PNone => false
  | PBool b => b
  | PInt z => negb (z =? 0)%Z
  | PStr s => negb (String.eqb s "")
  | PList l => negb (bool_decide (l = []))
  | PDict items => negb (bool_decide (items = []))
  end.

(** [d[key] = v] on the items of a dict: the value of a key that is there
    is replaced where it stands, a new key goes to the end. *)
Fixpoint dict_set (items : list (string * PyVal)) (key : string) (v : PyVal)
  : list (string * PyVal) :=
  match items with
  | [] => [(key, v)]
  | (k, x) :: rest =>
      if String.eqb k key then (k, v) :: rest
      else (k, x) :: dict_set rest key v
  end.

(** [dict(pairs)] *)
Definition dict_of (pairs : list (string * PyVal)) : list (string * PyVal) :=
  foldl (λ d kv, dict_set d (fst kv) (snd kv)) [] pairs.

(** [v.items()] *)
Definition dict_items (v : PyVal) : Res (list (string * PyVal)) :=
  match v with
  | PDict items => Returns items
  | _ => Raises (no_attribute v "items")
  end.

(** [s.split(sep)] for a separator of one character: the pieces between
    the separators, at least one. *)
Fixpoint str_split (sep : ascii) (s : string) : list string :=
  match s with
  | EmptyString => [EmptyString]
  | String c rest =>
      if Ascii.eqb c sep then EmptyString :: str_split sep rest
      else match str_split sep rest with
           | [] => [String c EmptyString]
           | word :: words => String c word :: words
           end
  end.

(** [v.split('.')[0]] *)
Definition first_segment (v : PyVal) : Res string :=
  match v with
  | PStr s =>
      match str_split "."%char s with
      | word :: _ => Returns word
      | [] => Raises (IndexError "list index out of range")
      end
  | _ => Raises (no_attribute v "split")
  end.

(** Sequencing of calls that may raise, outside a coroutine. *)
Definition and_then {A B} (r : Res A) (k : A -> Res B) : Res B :=
  match r with
  | Returns a => k a
  | Raises e => Raises e
  end.

(** A [datetime] or [date]: the client asks it for its [isoformat()]. *)
Record Datetime : Type := { isoformat : string }.

Section Client.

(** [repr] of a list or a dict, which is what [str] shows of them. *)
Variable repr : PyVal -> string.

(** The text an f-string puts for [{v}]. *)
Definition str (v : PyVal) : string :=
  match v with
  | PNone => "None"
  | PBool true => "True"
  | PBool false => "False"
  | PInt z => pretty z
  | PStr s => s
  | PList _ | PDict _ => repr v
  end.

(** The handler of every [except ProtocolError as e] of the client:
<<
    if isinstance(e.args, tuple):
        raise exceptions.APIError(message=f'{e.args[0]}: {e.args[1]}', code=e.args[0])
    raise
>>
    [e.args] is a tuple for every exception. *)
Definition isinstance_tuple (args : list PyVal) : bool := true.

Definition to_APIError {A} (args : list PyVal) : M A :=
  if isinstance_tuple args then
    let* a0 := lift (tuple_item args 0) in
    let* a1 := lift (tuple_item args 1) in
    let* code := lift (tuple_item args 0) in
    raise (APIError (str a0 +:+ ": " +:+ str a1) code)
  else raise (ProtocolError args).

(** [await server.ws_connect()] *)
Definition ws_connect (server : Server) : M Server :=
  let* _ := send (ReqConnect (srv_url server)) in
  let* r := get_remote in
  match on_ws_connect r with
  | Some e => raise e
  | None => ret {| srv_id := srv_id server; srv_url := srv_url server;
                   srv_connected := Some true |}
  end.

(** [await server.authenticateWithPassword(username=.., password=..)] *)
Definition authenticateWithPassword (user pass : string) : M PyVal :=
  let* _ := send (ReqAuthenticate user pass) in
  let* r := get_remote in
  lift (on_authenticateWithPassword r).

(** [self._server is None or not hasattr(self._server, 'connected')
     or not self._server.connected] *)
Definition must_connect (cached : option Server) : bool :=
  match cached with
  | None => true
  | Some srv =>
      match srv_connected srv with
      | None => true
      | Some c => negb c
      end
  end.

Definition login (self : OpenEMSAPIClient) : M (option Server) :=
  let* cached := get_server in
  let* _ :=
    if must_connect cached then
      let* server := new_Server (server_url self) in
      let* server := ws_connect server in
      let* _ := except_ProtocolError
                  (authenticateWithPassword (username self) (password self))
                  to_APIError in
      set_server (Some server)
    else ret tt in
  get_server.

(** A method of the handle is called on what [login] returned. *)
Definition on_handle {A} (server : option Server) (method : string)
  (call : M A) : M A :=
  match server with
  | Some _ => call
  | None => raise (AttributeError
      ("'NoneType' object has no attribute '" +:+ method +:+ "'"))
  end.

(** [await server.getEdges(page=page, limit=limit, searchParams={})] *)
Definition getEdges (server : option Server) (page limit : nat)
  (answer : Outcome) : M PyVal :=
  on_handle server "getEdges"
    (let* _ := send (ReqGetEdges page limit) in lift answer).

(** [await server.edgeRpc(edgeId=edge_id, payload=payload)] *)
Definition edgeRpc (server : option Server) (edge_id payload : PyVal)
  : M PyVal :=
  on_handle server "edgeRpc"
    (let* _ := send (ReqEdgeRpc edge_id payload) in
     let* r := get_remote in
     lift (on_edgeRpc r edge_id payload)).

Definition no_edges : Outcome := Returns (PDict [("edges", PList [])]).

(** One turn of the [while True] of [get_edges]: the edges so far and
    whether the loop breaks. *)
Definition get_edges_page (server : option Server) (page limit : nat)
  (edges : list PyVal) (answer : Outcome) : M (bool * list PyVal) :=
  let* r := except_ProtocolError (getEdges server page limit answer)
              to_APIError in
  let* es := lift (getitem r "edges") in
  let* new := lift (iterate es) in
  let* es' := lift (getitem r "edges") in
  let* n := lift (len es') in
  ret (bool_decide (n < limit), edges ++ new).

(** The loop, by the pages the remote still has.  Past the last page the
    answer holds no edge, which breaks the loop. *)
Fixpoint get_edges_loop (server : option Server) (answers : list Outcome)
  (page limit : nat) (edges : list PyVal) : M PyVal :=
  match answers with
  | [] =>
      let* turn := get_edges_page server page limit edges no_edges in
      ret (PList (snd turn))
  | answer :: rest =>
      let* turn := get_edges_page server page limit edges answer in
      if fst turn then ret (PList (snd turn))
      else get_edges_loop server rest (S page) limit (snd turn)
  end.

(** The coroutine [f] of [get_edges]. *)
Definition get_edges_f (self : OpenEMSAPIClient) : M PyVal :=
  let* server := login self in
  let page := 0 in
  let limit := 100 in
  let edges := [] in
  let* r := get_remote in
  get_edges_loop server (on_getEdges r) page limit edges.

(** [r_edge_rpc['payload']['result']] *)
Definition payload_result (r_edge_rpc : PyVal) : M PyVal :=
  let* payload := lift (getitem r_edge_rpc "payload") in
  lift (getitem payload "result").

(** The coroutine [f] of [get_edge_config]. *)
Definition get_edge_config_f (self : OpenEMSAPIClient) (edge_id : PyVal)
  : M PyVal :=
  let* server := login self in
  let* r_edge_rpc :=
    except_ProtocolError
      (let* id := new_uuid in
       edgeRpc server edge_id
         (PDict [("jsonrpc", PStr "2.0");
                 ("method", PStr "getEdgeConfig");
                 ("params", PDict []);
                 ("id", id)]))
      to_APIError in
  payload_result r_edge_rpc.

(** The coroutine [f] of [get_channels_of_component]. *)
Definition get_channels_of_component_f (self : OpenEMSAPIClient)
  (edge_id component_id : PyVal) : M PyVal :=
  let* server := login self in
  let* r_edge_rpc :=
    except_ProtocolError
      (let* inner_id := new_uuid in
       let* id := new_uuid in
       edgeRpc server edge_id
         (PDict [("jsonrpc", PStr "2.0");
                 ("method", PStr "componentJsonApi");
                 ("params", PDict
                    [("componentId", PStr "_componentManager");
                     ("payload", PDict
                        [("jsonrpc", PStr "2.0");
                         ("method", PStr "getChannelsOfComponent");
                         ("params", PDict [("componentId", component_id)]);
                         ("id", inner_id)])]);
                 ("id", id)]))
      to_APIError in
  payload_result r_edge_rpc.

(** The coroutine [f] of [update_component_config]. *)
Definition update_component_config_f (self : OpenEMSAPIClient)
  (edge_id component_id properties : PyVal) : M PyVal :=
  let* server := login self in
  let* r_edge_rpc :=
    except_ProtocolError
      (let* id := new_uuid in
       edgeRpc server edge_id
         (PDict [("jsonrpc", PStr "2.0");
                 ("method", PStr "updateComponentConfig");
                 ("params", PDict [("componentId", component_id);
                                   ("properties", properties)]);
                 ("id", id)]))
      to_APIError in
  payload_result r_edge_rpc.

(** *** The public methods *)

Definition set_bridge (b : ASGIRefBridge Session) (self : OpenEMSAPIClient)
  : OpenEMSAPIClient :=
  {| server_url := server_url self; username := username self;
     password := password self; _bridge := b |}.

(** [self._bridge.run(f)]: no timeout is given.  The remote takes
    [latency] ticks to serve [f]. *)
Definition bridge_run (self : OpenEMSAPIClient) (f : M PyVal)
  (ctx : ThreadCtx) (w : World Session)
  : Call * OpenEMSAPIClient * World Session :=
  let coro := {| co_dur := latency (remote (heap w)); co_body := f |} in
  let '(r, b, w') := run (_bridge self) coro None ctx w in
  (r, set_bridge b self, w').

Definition __init__ (server_url username password : string)
  (ctx : ThreadCtx) (w : World Session)
  : Res OpenEMSAPIClient * World Session :=
  let w1 := set_heap (snd (set_server None (heap w))) w in
  match Bridge.__init__ default_max_workers ctx w1 with
  | (Returns b, w2) =>
      (Returns {| server_url := server_url; username := username;
                  password := password; _bridge := b |}, w2)
  | (Raises e, w2) => (Raises e, w2)
  end.

Definition __del__ (self : OpenEMSAPIClient) (w : World Session)
  : Call * OpenEMSAPIClient * World Session :=
  let '(r, b, w') := shutdown (_bridge self) w in
  (r, set_bridge b self, w').

Definition get_edges (self : OpenEMSAPIClient) :=
  bridge_run self (get_edges_f self).

Definition get_edge_config (self : OpenEMSAPIClient) (edge_id : PyVal) :=
  bridge_run self (get_edge_config_f self edge_id).

Definition get_channels_of_component (self : OpenEMSAPIClient)
  (edge_id component_id : PyVal) :=
  bridge_run self (get_channels_of_component_f self edge_id component_id).

Definition update_component_config (self : OpenEMSAPIClient)
  (edge_id component_id properties : PyVal) :=
  bridge_run self
    (update_component_config_f self edge_id component_id properties).

Definition update_component_config_from_name_value
  (self : OpenEMSAPIClient) (edge_id component_id name value : PyVal) :=
  update_component_config self edge_id component_id
    (PList [PDict [("name", name); ("value", value)]]).

(** *** The lists of meters and of PV inverters *)

(** [[(k, v) for (k, v) in items if v['factoryId'].split('.')[0] == name]] *)
Fixpoint of_factory (name : string) (items : list (string * PyVal))
  : Res (list (string * PyVal)) :=
  match items with
  | [] => Returns []
  | (k, v) :: rest =>
      and_then (getitem v "factoryId") (λ factory_id,
      and_then (first_segment factory_id) (λ word,
      and_then (of_factory name rest) (λ kept,
      Returns (if String.eqb word name then (k, v) :: kept else kept))))
  end.

(** What both methods do with the edge config they got, each for its
    factory [name]:
<<
    components = edge_config['components']
    return dict([(k, v) for (k, v) in components.items()
                 if v['factoryId'].split('.')[0] == name])
>> *)
Definition components_of_factory (name : string) (edge_config : PyVal)
  : Outcome :=
  and_then (getitem edge_config "components") (λ components,
  and_then (dict_items components) (λ items,
  and_then (of_factory name items) (λ kept,
  Returns (PDict (dict_of kept))))).

Definition get_meter_list (self : OpenEMSAPIClient) (edge_id : PyVal)
  (ctx : ThreadCtx) (w : World Session)
  : Call * OpenEMSAPIClient * World Session :=
  let '(r, self', w') := get_edge_config self edge_id ctx w in
  match r with
  | Done (Returns edge_config) =>
      (Done (components_of_factory "Meter" edge_config), self', w')
  | _ => (r, self', w')
  end.

Definition get_pvinverter_list (self : OpenEMSAPIClient) (edge_id : PyVal)
  (ctx : ThreadCtx) (w : World Session)
  : Call * OpenEMSAPIClient * World Session :=
  let '(r, self', w') := get_edge_config self edge_id ctx w in
  match r with
  | Done (Returns edge_config) =>
      (Done (components_of_factory "PVInverter" edge_config), self', w')
  | _ => (r, self', w')
  end.

(** *** The time series *)

(** What pandas makes of the data and the timestamps of an answer:
<<
    df = pd.DataFrame(data, index=timestamps)
    df.index.name = 'Time'
    df.index = pd.to_datetime(df.index)
>>
    the frame, or the exception pandas raises on them. *)
Variable DataFrame_by_time : PyVal -> PyVal -> Outcome.

(** The coroutine [f] of [query_historic_timeseries_data]. *)
Definition query_historic_timeseries_data_f (self : OpenEMSAPIClient)
  (edge_id : PyVal) (start end_ : Datetime) (channels resolution_sec : PyVal)
  : M PyVal :=
  let* server := login self in
  let params := [("timezone", PStr "Asia/Tokyo");
                 ("fromDate", PStr (isoformat start));
                 ("toDate", PStr (isoformat end_));
                 ("channels", channels)] in
  let params :=
    if truthy resolution_sec then
      dict_set params "resolution"
        (PDict [("value", resolution_sec); ("unit", PStr "SECONDS")])
    else params in
  let* r_edge_rpc :=
    except_ProtocolError
      (let* id := new_uuid in
       edgeRpc server edge_id
         (PDict [("jsonrpc", PStr "2.0");
                 ("method", PStr "queryHistoricTimeseriesData");
                 ("params", PDict params);
                 ("id", id)]))
      to_APIError in
  let* r := payload_result r_edge_rpc in
  let* data := lift (getitem r "data") in
  let* timestamps := lift (getitem r "timestamps") in
  lift (DataFrame_by_time data timestamps).

(** The coroutine [f] of [query_futuristic_timeseries_data]. *)
Definition query_futuristic_timeseries_data_f (self : OpenEMSAPIClient)
  (edge_id : PyVal) (start end_ : Datetime) (channels component_id : PyVal)
  (resolution_sec : PyVal) : M PyVal :=
  let* server := login self in
  let params := [("timezone", PStr "Asia/Tokyo");
                 ("fromDate", PStr (isoformat start));
                 ("toDate", PStr (isoformat end_));
                 ("channels", channels);
                 ("componentId", component_id)] in
  let params :=
    if truthy resolution_sec then
      dict_set params "resolution"
        (PDict [("value", resolution_sec); ("unit", PStr "SECONDS")])
    else params in
  let* r_edge_rpc :=
    except_ProtocolError
      (let* id := new_uuid in
       edgeRpc server edge_id
         (PDict [("jsonrpc", PStr "2.0");
                 ("method", PStr "queryFuturisticTimeseriesData");
                 ("params", PDict params);
                 ("id", id)]))
      to_APIError in
  let* r := payload_result r_edge_rpc in
  let* data := lift (getitem r "data") in
  let* timestamps := lift (getitem r "timestamps") in
  lift (DataFrame_by_time data timestamps).

(** [resolution_sec=None] when the caller gives none. *)
Definition query_historic_timeseries_data (self : OpenEMSAPIClient)
  (edge_id : PyVal) (start end_ : Datetime) (channels resolution_sec : PyVal) :=
  bridge_run self
    (query_historic_timeseries_data_f self edge_id start end_ channels
       resolution_sec).

Definition query_futuristic_timeseries_data (self : OpenEMSAPIClient)
  (edge_id : PyVal) (start end_ : Datetime) (channels component_id : PyVal)
  (resolution_sec : PyVal) :=
  bridge_run self
    (query_futuristic_timeseries_data_f self edge_id start end_ channels
       component_id resolution_sec).

(** *** Vocabulary of the properties *)

(** What the handler of [except ProtocolError] raises for these [args]. *)
Definition classified (args : list PyVal) : Exn :=
  match args with
  | code :: message :: _ => APIError (str code +:+ ": " +:+ str message) code
  | _ => IndexError "tuple index out of range"
  end.

(** The handle that connecting in state [s] makes. *)
Definition fresh_handle (self : OpenEMSAPIClient) (s : Session) : Server :=
  {| srv_id := next_server s; srv_url := server_url self;
     srv_connected := Some true |}.

(** The public methods that call the remote. *)
Inductive Method : Type :=
| GetEdges
| GetEdgeConfig (edge_id : PyVal)
| GetChannelsOfComponent (edge_id component_id : PyVal)
| UpdateComponentConfig (edge_id component_id properties : PyVal)
| UpdateComponentConfigFromNameValue (edge_id component_id name value : PyVal).

Definition call (self : OpenEMSAPIClient) (m : Method) :=
  match m with
  | GetEdges => get_edges self
  | GetEdgeConfig edge_id => get_edge_config self edge_id
  | GetChannelsOfComponent edge_id component_id =>
      get_channels_of_component self edge_id component_id
  | UpdateComponentConfig edge_id component_id properties =>
      update_component_config self edge_id component_id properties
  | UpdateComponentConfigFromNameValue edge_id component_id name value =>
      update_component_config_from_name_value self edge_id component_id
        name value
  end.

(** The coroutine a public method hands to the bridge. *)
Definition coroutine_of (self : OpenEMSAPIClient) (m : Method) : M PyVal :=
  match m with
  | GetEdges => get_edges_f self
  | GetEdgeConfig edge_id => get_edge_config_f self edge_id
  | GetChannelsOfComponent edge_id component_id =>
      get_channels_of_component_f self edge_id component_id
  | UpdateComponentConfig edge_id component_id properties =>
      update_component_config_f self edge_id component_id properties
  | UpdateComponentConfigFromNameValue edge_id component_id name value =>
      update_component_config_f self edge_id component_id
        (PList [PDict [("name", name); ("value", value)]])
  end.


Definition no_ProtocolError {A} (r : Res A) : Prop :=
  ∀ args, r ≠ Raises (ProtocolError args).

(** Connecting does not fail with a [ProtocolError] (the library raises
    [TransportError] there). *)
Definition connects_cleanly (r : Remote) : Prop :=
  ∀ args, on_ws_connect r ≠ Some (ProtocolError args).

Definition keeps_remote {A} (m : M A) : Prop :=
  ∀ s, remote (snd (m s)) = remote s.

(** A computation that lets no [ProtocolError] out and leaves the remote
    as it is. *)
Definition shielded {A} (m : M A) : Prop :=
  ∀ s, connects_cleanly (remote s) →
       no_ProtocolError (fst (m s)) ∧ remote (snd (m s)) = remote s.

(** The component has a factory id that is [name], or [name], a dot and
    more. *)
Definition made_by (name : string) (component : PyVal) : Prop :=
  ∃ factory_id, getitem component "factoryId" = Returns (PStr factory_id)
    ∧ (factory_id = name ∨ ∃ rest, factory_id = name +:+ "." +:+ rest).

(** What reaches the caller of an exception the remote raised inside a
    [try] of the client. *)
Definition translated (e : Exn) : Exn :=
  match e with
  | ProtocolError args => classified args
  | _ => e
  end.

(** A client whose pool is empty, and a thread that may call it. *)
Definition ready (self : OpenEMSAPIClient) (ctx : ThreadCtx) : Prop :=
  wf (_executor (_bridge self))
  ∧ resident (_executor (_bridge self)) = []
  ∧ can_run (_bridge self) ctx.

(** The session after these requests went out. *)
Definition sends (qs : list Request) (s : Session) : Session :=
  foldl (λ s q, snd (send q s)) s qs.

(** The answer is a page that holds these edges. *)
Definition page_of (answer : Outcome) (edges : list PyVal) : Prop :=
  ∃ r, answer = Returns r ∧ getitem r "edges" = Returns (PList edges).

(** The requests that open a session, as against the calls made in it. *)
Definition session_request (q : Request) : bool :=
  match q with
  | ReqConnect _ | ReqAuthenticate _ _ => true
  | ReqGetEdges _ _ | ReqEdgeRpc _ _ => false
  end.

(** A computation that leaves the cached handle and the remote as they
    are, and opens no session. *)
Definition quiet {A} (m : M A) : Prop :=
  ∀ s, _server (snd (m s)) = _server s
       ∧ remote (snd (m s)) = remote s
       ∧ ∃ qs, sent (snd (m s)) = sent s ++ qs
               ∧ Forall (λ q, session_request q = false) qs.

(** The id under which a call of an edge goes out. *)
Definition request_id (q : Request) : option PyVal :=
  match q with
  | ReqEdgeRpc _ payload =>
      match getitem payload "id" with
      | Returns id => Some id
      | Raises _ => None
      end
  | _ => None
  end.

(** The ids of the calls sent so far are uuids that were drawn, each of
    them drawn once. *)
Definition numbered (s : Session) : Prop :=
  ∃ drawn, omap request_id (sent s) = (λ i, PStr (uuid4 s i)) <$> drawn
    ∧ NoDup drawn
    ∧ Forall (λ i, i < next_uuid s) drawn.

(** A computation that keeps the ids so. *)
Definition numbering {A} (m : M A) : Prop :=
  ∀ s, numbered s → numbered (snd (m s)) ∧ uuid4 (snd (m s)) = uuid4 s.

(** Every public method of the client that calls the remote. *)
Inductive PublicCall : Type :=
| OfMethod (m : Method)
| GetMeterList (edge_id : PyVal)
| GetPvinverterList (edge_id : PyVal)
| QueryHistoricTimeseriesData (edge_id : PyVal) (start end_ : Datetime)
    (channels resolution_sec : PyVal)
| QueryFuturisticTimeseriesData (edge_id : PyVal) (start end_ : Datetime)
    (channels component_id resolution_sec : PyVal).

Definition perform (self : OpenEMSAPIClient) (c : PublicCall) :=
  match c with
  | OfMethod m => call self m
  | GetMeterList edge_id => get_meter_list self edge_id
  | GetPvinverterList edge_id => get_pvinverter_list self edge_id
  | QueryHistoricTimeseriesData edge_id start end_ channels resolution_sec =>
      query_historic_timeseries_data self edge_id start end_ channels
        resolution_sec
  | QueryFuturisticTimeseriesData edge_id start end_ channels component_id
      resolution_sec =>
      query_futuristic_timeseries_data self edge_id start end_ channels
        component_id resolution_sec
  end.

(** One call after another, by one caller. *)
Fixpoint performs (self : OpenEMSAPIClient) (cs : list PublicCall)
  (ctx : ThreadCtx) (w : World Session) : OpenEMSAPIClient * World Session :=
  match cs with
  | [] => (self, w)
  | c :: cs' =>
      let '(_, self', w') := perform self c ctx w in
      performs self' cs' ctx w'
  end.

(** The coroutine a public method hands to the bridge, and what the method
    makes of its outcome. *)
Definition coroutine_behind (self : OpenEMSAPIClient) (c : PublicCall)
  : M PyVal :=
  match c with
  | OfMethod m => coroutine_of self m
  | GetMeterList edge_id | GetPvinverterList edge_id =>
      get_edge_config_f self edge_id
  | QueryHistoricTimeseriesData edge_id start end_ channels resolution_sec =>
      query_historic_timeseries_data_f self edge_id start end_ channels
        resolution_sec
  | QueryFuturisticTimeseriesData edge_id start end_ channels component_id
      resolution_sec =>
      query_futuristic_timeseries_data_f self edge_id start end_ channels
        component_id resolution_sec
  end.

Definition finish (c : PublicCall) (o : Outcome) : Outcome :=
  match c with
  | GetMeterList _ => and_then o (components_of_factory "Meter")
  | GetPvinverterList _ => and_then o (components_of_factory "PVInverter")
  | _ => o
  end.

(** The remote answers the call that [c] makes (for [get_edges], the call
    for the first page) with [o]. *)
Definition rpc_answers (r : Remote) (c : PublicCall) (o : Outcome) : Prop :=
  match c with
  | OfMethod GetEdges => head (on_getEdges r) = Some o
  | OfMethod (GetEdgeConfig edge_id)
  | OfMethod (GetChannelsOfComponent edge_id _)
  | OfMethod (UpdateComponentConfig edge_id _ _)
  | OfMethod (UpdateComponentConfigFromNameValue edge_id _ _ _)
  | GetMeterList edge_id
  | GetPvinverterList edge_id
  | QueryHistoricTimeseriesData edge_id _ _ _ _
  | QueryFuturisticTimeseriesData edge_id _ _ _ _ _ =>
      ∀ payload, on_edgeRpc r edge_id payload = o
  end.

End Client.
End Api.

(** ** Sample bridges, operations and sessions *)

Module Samples.
Import Pool Bridge Api.

Definition world (St : Type) (h : St) : World St :=
  {| heap := h; now := 0; next_loop := 0; log := [] |}.

(** A thread that runs no loop, and one inside a running loop. *)
Definition outside : ThreadCtx := None.
Definition inside : ThreadCtx := Some {| loop_id := 7; is_running := true |}.

Definition new_pool (St : Type) : ThreadPoolExecutor St :=
  {| _max_workers := 1; _shutdown := false; _work_queue := [];
     _running := []; _threads := 0; _futures := ∅; _next_future := 0 |}.

(** The bridge that [ASGIRefBridge()] makes outside a loop in [world], and
    the one it makes inside a loop. *)
Definition bridge_outside (St : Type) : ASGIRefBridge St :=
  {| _executor := new_pool St; isinparentloop := false; loop := Some 0 |}.
Definition bridge_inside (St : Type) : ASGIRefBridge St :=
  {| _executor := new_pool St; isinparentloop := true; loop := None |}.

Definition world_outside (St : Type) (h : St) : World St :=
  {| heap := h; now := 0; next_loop := 1;
     log := [EvNewEventLoop 0; EvSetEventLoop 0] |}.

(** An operation that returns [v] after [d] ticks, and one that raises. *)
Definition returning (d : nat) (v : Z) : Coroutine unit :=
  {| co_dur := d; co_body := λ s, (Returns (PInt v), s) |}.

(** The codes and messages of the samples are numbers and strings. *)
Definition no_repr (v : PyVal) : string := "".

Definition remote_with (auth : Outcome) (edges : list Outcome) : Remote :=
  {| on_ws_connect := None;
     on_authenticateWithPassword := auth;
     on_getEdges := edges;
     on_edgeRpc := λ _ _, Returns (PDict [("payload",
                     PDict [("result", PDict [])])]);
     latency := 2 |}.

Definition session (r : Remote) : Session :=
  {| _server := None; remote := r; sent := []; next_server := 0;
     uuid4 := λ n, pretty n; next_uuid := 0 |}.

Definition client : OpenEMSAPIClient :=
  {| server_url := "ws://backend:8082"; username := "admin";
     password := "secret"; _bridge := bridge_outside Session |}.

(** The remote refuses the password; the remote answers with something
    that is no JSON object. *)
Definition refused : Exn :=
  ProtocolError [PInt 1003; PStr "Authentication failed"; PNone].

(** The bridge that [ASGIRefBridge(max_workers=2)] makes inside a loop. *)
Definition bridge_of_two (St : Type) : ASGIRefBridge St :=
  {| _executor :=
       {| _max_workers := 2; _shutdown := false; _work_queue := [];
          _running := []; _threads := 0; _futures := ∅; _next_future := 0 |};
     isinparentloop := true; loop := None |}.

(** The client that is built inside a running loop. *)
Definition client_inside : OpenEMSAPIClient :=
  {| server_url := "ws://backend:8082"; username := "admin";
     password := "secret"; _bridge := bridge_inside Session |}.

(** A remote that answers every call of an edge with [answer], and one
    that cannot be reached. *)
Definition remote_answering (answer : Outcome) : Remote :=
  {| on_ws_connect := None;
     on_authenticateWithPassword := Returns PNone;
     on_getEdges := [];
     on_edgeRpc := λ _ _, answer;
     latency := 2 |}.

Definition unreachable : Exn :=
  TransportError [PStr "Error connecting to server"].

Definition remote_down : Remote :=
  {| on_ws_connect := Some unreachable;
     on_authenticateWithPassword := Returns PNone;
     on_getEdges := [];
     on_edgeRpc := λ _ _, Returns PNone;
     latency := 2 |}.

(** The answer of an edge that holds [result]. *)
Definition answer_of (result : PyVal) : Outcome :=
  Returns (PDict [("payload", PDict [("result", result)])]).

(** The components of an edge: a meter, a PV inverter, a controller, and a
    simulated meter of the [Simulator] factories. *)
Definition components : list (string * PyVal) :=
  [("meter0", PDict [("alias", PStr "Grid");
                     ("factoryId", PStr "Meter.Socomec.Threephase")]);
   ("pvInverter0", PDict [("factoryId", PStr "PVInverter.Fronius")]);
   ("ctrlDebugLog0", PDict [("factoryId", PStr "Controller.Debug.Log")]);
   ("meter1", PDict [("factoryId", PStr "Simulator.GridMeter.Acting")])].

Definition edge_config : PyVal := PDict [("components", PDict components)].

(** The same edge with a component that has no factory id. *)
Definition components_with_a_stray : list (string * PyVal) :=
  components ++ [("_sum", PDict [("alias", PStr "Core.Sum")])].

Definition edge_config_with_a_stray : PyVal :=
  PDict [("components", PDict components_with_a_stray)].

(** A page of a hundred edges, and a page of one. *)
Definition hundred_edges : list PyVal := replicate 100 (PStr "edge").

Definition full_page : Outcome :=
  Returns (PDict [("edges", PList hundred_edges)]).

Definition short_page : Outcome :=
  Returns (PDict [("edges", PList [PStr "edge100"])]).

(** A frame, as the pair of its index and its columns. *)
Definition frame_as_dict (data timestamps : PyVal) : Outcome :=
  Returns (PDict [("index", timestamps); ("columns", data)]).

Definition day (iso : string) : Datetime := {| isoformat := iso |}.

End Samples.

(** * Facts about the pool *)

Unset Implicit Arguments.

Module PoolFacts.
Import Pool.
Section PoolFacts.
Context {St : Type}.
Implicit Types (ex : ThreadPoolExecutor St) (w : World St) (wi : WorkItem St).
Implicit Types (rs q : list (WorkItem St)) (fs : gmap nat Outcome).
Implicit Types (fn : Coroutine St).

Lemma well_formed_wf ex : well_formed ex = true ↔ wf ex.
Proof.
  unfold well_formed. rewrite !andb_true_iff, !bool_decide_eq_true.
  rewrite forallb_forall. split.
  - intros [[[[[[H1 H2] H3] H4] H5] H6] H7]. split; try done.
    intros wi Hwi. apply list_elem_of_In, H6 in Hwi.
    apply andb_true_iff in Hwi as [Ha Hb].
    apply bool_decide_eq_true in Ha. split; [done|].
    unfold unresolved in Hb. by destruct (_futures ex !! wi_future wi).
  - intros [H1 H2 H3 H4 H5 H6 H7]. repeat split; try done.
    intros wi Hwi. apply list_elem_of_In, H6 in Hwi as [Ha Hb].
    apply andb_true_iff. rewrite bool_decide_eq_true. split; [done|].
    unfold unresolved. by rewrite Hb.
Qed.

Lemma grows_refl P w : grows P w w.
Proof. exists []. by rewrite app_nil_r. Qed.

Lemma grows_trans P w1 w2 w3 : grows P w1 w2 → grows P w2 w3 → grows P w1 w3.
Proof.
  intros (e1 & H1 & F1) (e2 & H2 & F2). exists (e1 ++ e2).
  rewrite H2, H1, app_assoc. split; [done|]. by apply Forall_app.
Qed.

Lemma grows_emit (P : Event → bool) e w : P e = true → grows P w (emit e w).
Proof. intros H. exists [e]. split; [done|]. by constructor. Qed.

Lemma grows_weaken (P Q : Event → bool) w w' :
  (∀ e, P e = true → Q e = true) → grows P w w' → grows Q w w'.
Proof.
  intros H (evs & E & F). exists evs. split; [done|].
  eapply Forall_impl; [exact F|]. done.
Qed.

Lemma frame_refl ex : frame ex ex.
Proof. done. Qed.

Lemma frame_trans ex1 ex2 ex3 : frame ex1 ex2 → frame ex2 ex3 → frame ex1 ex3.
Proof. unfold frame. intros (?&?&?&?) (?&?&?&?). repeat split; congruence. Qed.

Lemma started_refl ex w : started ex w ex w.
Proof.
  repeat split; try done; [apply grows_refl|].
  exists 0. by rewrite take_0, drop_0, app_nil_r.
Qed.

Lemma started_trans ex1 w1 ex2 w2 ex3 w3 :
  started ex1 w1 ex2 w2 → started ex2 w2 ex3 w3 → started ex1 w1 ex3 w3.
Proof.
  intros (F1 & U1 & H1 & N1 & L1 & G1 & (k1 & R1 & Q1) & B1)
         (F2 & U2 & H2 & N2 & L2 & G2 & (k2 & R2 & Q2) & B2).
  split; [by eapply frame_trans|].
  repeat split; try congruence.
  - by eapply grows_trans.
  - exists (k1 + k2). rewrite R2, Q2, R1, Q1, <- app_assoc.
    by rewrite take_take_drop, drop_drop.
  - intros H. destruct F1 as (_ & _ & T1 & _). rewrite <- T1. apply B2.
    rewrite T1. by apply B1.
Qed.

Lemma worker_start_started ex w :
  started ex w (worker_start ex w).1 (worker_start ex w).2.
Proof.
  unfold worker_start. destruct (_work_queue ex) as [|wi q] eqn:E.
  { apply started_refl. }
  case_decide; [|apply started_refl]. simpl.
  repeat split; simpl; try done.
  - by apply grows_emit.
  - exists 1. by rewrite E.
  - intros _. rewrite length_app. simpl. lia.
Qed.

Lemma fill_started n ex w : started ex w (fill n ex w).1 (fill n ex w).2.
Proof.
  revert ex w. induction n as [|n IH]; intros ex w; simpl.
  { apply started_refl. }
  pose proof (worker_start_started ex w) as H.
  destruct (worker_start ex w) as [ex1 w1]. simpl in H.
  eapply started_trans; [exact H|apply IH].
Qed.

Lemma fill_saturates n ex w :
  length (_work_queue ex) ≤ n →
  _work_queue (fill n ex w).1 = []
  ∨ _threads ex ≤ length (_running (fill n ex w).1).
Proof.
  revert ex w. induction n as [|n IH]; intros ex w Hn; simpl.
  { left. destruct (_work_queue ex); [done|simpl in Hn; lia]. }
  unfold worker_start. destruct (_work_queue ex) as [|wi q] eqn:E.
  { pose proof (fill_started n ex w) as (_ & _ & _ & _ & _ & _ & (k & _ & Q) & _).
    left. rewrite Q, E. by rewrite drop_nil. }
  case_decide as Hd.
  - match goal with |- context [fill n ?e ?v] => specialize (IH e v) end.
    simpl in IH. apply IH. simpl in Hn. lia.
  - right. pose proof (fill_started n ex w) as (_ & _ & _ & _ & _ & _ & (k & R & _) & _).
    rewrite R, length_app. lia.
Qed.

Lemma resolve_running rs fs w :
  (resolve rs fs w).1.1 = filter (λ wi, wi_left wi ≠ 0) rs.
Proof.
  revert fs w. induction rs as [|wi rs IH]; intros fs w; simpl; [done|].
  destruct (wi_left wi) eqn:E.
  - destruct (co_body (wi_fn wi) (heap w)) as [o h].
    rewrite IH. rewrite filter_cons_False; [done|]. lia.
  - specialize (IH fs w). destruct (resolve rs fs w) as [[rs' fs'] w'].
    simpl in *. rewrite filter_cons_True; [|lia]. by rewrite IH.
Qed.

Lemma resolve_other rs fs w f :
  f ∉ wi_future <$> filter (λ wi, wi_left wi = 0) rs →
  (resolve rs fs w).1.2 !! f = fs !! f.
Proof.
  revert fs w. induction rs as [|wi rs IH]; intros fs w Hf; simpl; [done|].
  destruct (wi_left wi) eqn:E.
  - destruct (co_body (wi_fn wi) (heap w)) as [o h].
    rewrite filter_cons_True in Hf by done. rewrite fmap_cons in Hf.
    apply not_elem_of_cons in Hf as [Hne Hf].
    rewrite IH by done. by rewrite lookup_insert_ne.
  - rewrite filter_cons_False in Hf by lia.
    specialize (IH fs w Hf). destruct (resolve rs fs w) as [[rs' fs'] w'].
    done.
Qed.

Lemma futures_filter (P : WorkItem St → Prop) `{∀ x, Decision (P x)} rs f :
  f ∈ wi_future <$> filter P rs → f ∈ wi_future <$> rs.
Proof.
  intros (y & -> & Hy)%list_elem_of_fmap.
  apply list_elem_of_filter in Hy as [_ Hy]. by apply list_elem_of_fmap_2.
Qed.

Lemma resolve_done rs fs w wi :
  NoDup (wi_future <$> rs) → wi ∈ rs → wi_left wi = 0 →
  ∃ s, (resolve rs fs w).1.2 !! wi_future wi
       = Some (fst (co_body (wi_fn wi) s)).
Proof.
  revert fs w. induction rs as [|wi0 rs IH]; intros fs w Hnd Hin Hz; simpl.
  { by apply elem_of_nil in Hin. }
  rewrite fmap_cons in Hnd. apply NoDup_cons in Hnd as [Hfresh Hnd].
  apply elem_of_cons in Hin as [->|Hin].
  - rewrite Hz. destruct (co_body (wi_fn wi0) (heap w)) as [o h] eqn:Eb.
    exists (heap w). rewrite resolve_other.
    + rewrite lookup_insert_eq. by rewrite Eb.
    + intros Hc. apply Hfresh. by eapply futures_filter.
  - destruct (wi_left wi0) eqn:E.
    + destruct (co_body (wi_fn wi0) (heap w)) as [o h]. by apply IH.
    + specialize (IH fs w Hnd Hin Hz).
      destruct (resolve rs fs w) as [[rs' fs'] w']. done.
Qed.

Lemma resolve_world rs fs w :
  now (resolve rs fs w).2 = now w
  ∧ next_loop (resolve rs fs w).2 = next_loop w
  ∧ grows finish_event w (resolve rs fs w).2.
Proof.
  revert fs w. induction rs as [|wi rs IH]; intros fs w; simpl.
  { repeat split. apply grows_refl. }
  destruct (wi_left wi) eqn:E.
  - destruct (co_body (wi_fn wi) (heap w)) as [o h].
    match goal with |- context [resolve rs ?f ?v] =>
      destruct (IH f v) as (N & L & G) end.
    rewrite N, L. repeat split.
    eapply grows_trans; [|exact G].
    exists [EvFinish (wi_future wi)]. split; [done|]. by constructor.
  - specialize (IH fs w). destruct (resolve rs fs w) as [[rs' fs'] w']. done.
Qed.

Lemma resolve_nothing rs fs w :
  Forall (λ wi, wi_left wi ≠ 0) rs → resolve rs fs w = (rs, fs, w).
Proof.
  induction 1 as [|wi rs H _ IH]; simpl; [done|].
  destruct (wi_left wi); [done|]. by rewrite IH.
Qed.

Lemma fmap_injective_on (rs : list (WorkItem St)) wi1 wi2 :
  NoDup (wi_future <$> rs) → wi1 ∈ rs → wi2 ∈ rs →
  wi_future wi1 = wi_future wi2 → wi1 = wi2.
Proof.
  induction rs as [|x rs IH]; intros Hnd H1 H2 He.
  { by apply elem_of_nil in H1. }
  rewrite fmap_cons in Hnd. apply NoDup_cons in Hnd as [Hx Hnd].
  apply elem_of_cons in H1 as [->|H1], H2 as [->|H2]; try done.
  - exfalso. apply Hx. rewrite He. by apply list_elem_of_fmap_2.
  - exfalso. apply Hx. rewrite <- He. by apply list_elem_of_fmap_2.
  - by apply IH.
Qed.

Lemma work_future wi : wi_future (work wi) = wi_future wi.
Proof. done. Qed.

Lemma work_futures rs : wi_future <$> (work <$> rs) = wi_future <$> rs.
Proof. rewrite <- list_fmap_compose. done. Qed.

Lemma cost_pos wi : 1 ≤ cost wi.
Proof. unfold cost. lia. Qed.

Lemma cost_work rs :
  sum_list (cost <$> filter (λ wi, wi_left wi ≠ 0) (work <$> rs)) + length rs
  = sum_list (cost <$> rs).
Proof.
  induction rs as [|wi rs IH]; csimpl; [done|].
  destruct (decide (wi_left (work wi) ≠ 0)) as [Hd|Hd].
  - rewrite filter_cons_True by done. csimpl. rewrite <- IH.
    unfold cost, work in *. simpl in *. lia.
  - rewrite filter_cons_False by done. rewrite <- IH.
    unfold cost, work in *. simpl in *. lia.
Qed.

Lemma sum_list_append (l k : list nat) :
  sum_list (l ++ k) = sum_list l + sum_list k.
Proof. induction l as [|x l IH]; simpl; [done|]. rewrite IH. lia. Qed.

Lemma backlog_resident ex : backlog ex = sum_list (cost <$> resident ex).
Proof. unfold backlog, resident. by rewrite fmap_app, sum_list_append. Qed.

Lemma backlog_zero ex : backlog ex = 0 ↔ resident ex = [].
Proof.
  rewrite backlog_resident. destruct (resident ex) as [|wi l]; [done|].
  simpl. pose proof (cost_pos wi). split; [lia|done].
Qed.

Lemma idle_resident ex : idle ex = true ↔ resident ex = [].
Proof.
  unfold idle, resident. destruct (_work_queue ex), (_running ex); simpl;
    split; done.
Qed.

Lemma tick_spec ex w :
  ∃ r1 q1 w2,
    r1 ++ q1 = resident ex
    ∧ (q1 = [] ∨ _threads ex ≤ length r1)
    ∧ (length (_running ex) ≤ _threads ex → length r1 ≤ _threads ex)
    ∧ _running (tick ex w).1 = filter (λ wi, wi_left wi ≠ 0) (work <$> r1)
    ∧ _work_queue (tick ex w).1 = q1
    ∧ frame ex (tick ex w).1
    ∧ _futures (tick ex w).1 = (resolve (work <$> r1) (_futures ex) w2).1.2
    ∧ now (tick ex w).2 = S (now w)
    ∧ next_loop (tick ex w).2 = next_loop w
    ∧ grows worker_event w (tick ex w).2.
Proof.
  unfold tick, start_all.
  pose proof (fill_started (length (_work_queue ex)) ex w) as Hs.
  pose proof (fill_saturates (length (_work_queue ex)) ex w (le_n _)) as Hsat.
  destruct (fill (length (_work_queue ex)) ex w) as [ex1 w1]. simpl in *.
  destruct Hs as (F & U & H & N & L & G & (k & R & Q) & B).
  exists (_running ex1), (_work_queue ex1), (advance_clock w1).
  unfold worker_finish. simpl.
  pose proof (resolve_running (work <$> _running ex1) (_futures ex1)
                (advance_clock w1)) as Hr.
  pose proof (resolve_world (work <$> _running ex1) (_futures ex1)
                (advance_clock w1)) as (N' & L' & G').
  destruct (resolve (work <$> _running ex1) (_futures ex1) (advance_clock w1))
    as [[rs fs] w'] eqn:E. simpl in *.
  destruct F as (F1 & F2 & F3 & F4).
  repeat split; try done.
  - unfold resident. rewrite R, Q, <- app_assoc. by rewrite take_drop.
  - rewrite <- U. by rewrite E.
  - lia.
  - congruence.
  - eapply grows_trans; [eapply grows_weaken; [|exact G]|].
    { by intros []. }
    eapply grows_weaken; [|exact G']. by intros [].
Qed.

Lemma started_wf ex w ex' w' : started ex w ex' w' → wf ex → wf ex'.
Proof.
  intros ((F1 & F2 & F3 & F4) & U & _ & _ & _ & _ & (k & R & Q) & B)
         [W1 W2 W3 W4 W5 W6 W7].
  assert (Hres : resident ex' = resident ex).
  { unfold resident. by rewrite R, Q, <- app_assoc, take_drop. }
  split; rewrite ?Hres, ?F1, ?F3, ?F4, ?U; try done. by apply B.
Qed.


Lemma start_all_wf ex w : wf ex → wf (start_all ex w).1.
Proof. apply started_wf with w (start_all ex w).2, fill_started. Qed.

Lemma clock_wf ex w : wf ex → wf (clock ex w).1.
Proof.
  intros [W1 W2 W3 W4 W5 W6 W7].
  assert (Hids : wi_future <$> resident (clock ex w).1
                 = wi_future <$> resident ex).
  { unfold resident. simpl. by rewrite !fmap_app, work_futures. }
  split.
  - exact W1.
  - exact W2.
  - simpl. by rewrite length_fmap.
  - unfold resident in *. simpl.
    by rewrite length_app, length_fmap, <- length_app.
  - by rewrite Hids.
  - intros wi Hwi.
    assert (Hin : wi_future wi ∈ wi_future <$> resident ex).
    { rewrite <- Hids. by apply list_elem_of_fmap_2. }
    apply list_elem_of_fmap in Hin as (wi0 & -> & Hin). by apply W6.
  - exact W7.
Qed.

Lemma worker_finish_wf ex w : wf ex → wf (worker_finish ex w).1.
Proof.
  intros [W1 W2 W3 W4 W5 W6 W7]. unfold worker_finish.
  pose proof (resolve_running (_running ex) (_futures ex) w) as Er.
  pose proof (resolve_other (_running ex) (_futures ex) w) as Eo.
  destruct (resolve (_running ex) (_futures ex) w) as [[rs fs] w'].
  simpl in *. subst rs.
  set (ex' := {| _running := filter _ _ |}).
  assert (Hsub : resident ex' `sublist_of` resident ex).
  { unfold resident. simpl. apply sublist_app; [|done]. apply sublist_filter. }
  split; simpl; try done.
  - etrans; [apply length_filter|done].
  - destruct W4 as [W4|W4]; [|by right]. left.
    apply sublist_length in Hsub. lia.
  - eapply sublist_NoDup; [exact W5|]. by apply fmap_sublist.
  - intros wi Hwi.
    assert (Hwi' : wi ∈ resident ex) by by eapply sublist_subseteq.
    destruct (W6 wi Hwi') as [Hlt Hnone]. split; [done|].
    rewrite Eo; [done|].
    intros (wd & Hd & Hdin)%list_elem_of_fmap.
    apply list_elem_of_filter in Hdin as [Hz Hdin].
    assert (wd = wi).
    { eapply fmap_injective_on; [exact W5| | |congruence]; [|done].
      apply elem_of_app. by left. }
    subst wd. unfold resident in Hwi. simpl in Hwi.
    apply elem_of_app in Hwi as [Hwi|Hwi].
    + apply list_elem_of_filter in Hwi as [Hnz _]. done.
    + unfold resident in W5. rewrite fmap_app in W5.
      apply NoDup_app in W5 as (_ & Hdisj & _).
      eapply (Hdisj (wi_future wi)); by apply list_elem_of_fmap_2.
  - intros f o Hf.
    destruct (decide (f ∈ wi_future <$>
                filter (λ wi, wi_left wi = 0) (_running ex))) as [Hin|Hout].
    + apply futures_filter in Hin.
      apply list_elem_of_fmap in Hin as (wi0 & -> & Hin0).
      apply W6, elem_of_app. by left.
    + rewrite Eo in Hf by done. by eapply W7.
Qed.

Lemma tick_wf ex w : wf ex → wf (tick ex w).1.
Proof.
  intros H. unfold tick.
  pose proof (start_all_wf ex w H) as H1.
  destruct (start_all ex w) as [ex1 w1].
  pose proof (clock_wf ex1 w1 H1) as H2.
  destruct (clock ex1 w1) as [ex2 w2].
  by apply worker_finish_wf.
Qed.

Lemma tick_backlog ex w :
  wf ex → resident ex ≠ [] → backlog (tick ex w).1 < backlog ex.
Proof.
  intros [W1 W2 W3 W4 W5 W6 W7] Hne.
  destruct (tick_spec ex w)
    as (r1 & q1 & w2 & HR & Hsat & Hlen & Er & Eq & _).
  unfold backlog at 1. rewrite Er, Eq, backlog_resident, <- HR.
  rewrite fmap_app, sum_list_append, <- (cost_work r1).
  assert (1 ≤ length r1); [|lia].
  destruct W4 as [W4|W4]; [by apply nil_length_inv in W4|].
  destruct Hsat as [->|Hsat]; [|lia].
  rewrite app_nil_r in HR. rewrite <- HR in Hne.
  destruct r1; [done|simpl; lia].
Qed.

Lemma tick_tracked ex w wi :
  wf ex → wi ∈ resident ex →
  (∃ wi', wi' ∈ resident (tick ex w).1
          ∧ wi_future wi' = wi_future wi ∧ wi_fn wi' = wi_fn wi)
  ∨ (∃ s, _futures (tick ex w).1 !! wi_future wi
          = Some (fst (co_body (wi_fn wi) s))).
Proof.
  intros [W1 W2 W3 W4 W5 W6 W7] Hin.
  destruct (tick_spec ex w)
    as (r1 & q1 & w2 & HR & Hsat & Hlen & Er & Eq & _ & Ef & _).
  rewrite <- HR in Hin. apply elem_of_app in Hin as [Hin|Hin].
  - destruct (decide (wi_left (work wi) = 0)) as [Hz|Hnz].
    + right. rewrite Ef.
      destruct (resolve_done (work <$> r1) (_futures ex) w2 (work wi))
        as [s Hs]; [| |done|by exists s].
      * rewrite work_futures. rewrite <- HR, fmap_app in W5.
        by apply NoDup_app in W5 as (? & _).
      * by apply list_elem_of_fmap_2.
    + left. exists (work wi). split; [|done]. unfold resident.
      rewrite Er. apply elem_of_app. left. apply list_elem_of_filter.
      split; [done|]. by apply list_elem_of_fmap_2.
  - left. exists wi. split; [|done]. unfold resident. rewrite Eq.
    apply elem_of_app. by right.
Qed.

Lemma tick_futures_mono ex w f o :
  wf ex → _futures ex !! f = Some o → _futures (tick ex w).1 !! f = Some o.
Proof.
  intros [W1 W2 W3 W4 W5 W6 W7] Hf.
  destruct (tick_spec ex w)
    as (r1 & q1 & w2 & HR & Hsat & Hlen & Er & Eq & _ & Ef & _).
  rewrite Ef, resolve_other; [done|].
  intros Hin%futures_filter. rewrite work_futures in Hin.
  apply list_elem_of_fmap in Hin as (wi0 & -> & Hin0).
  destruct (W6 wi0) as [_ Hn]; [|congruence].
  rewrite <- HR. apply elem_of_app. by left.
Qed.

Lemma tick_frame ex w : frame ex (tick ex w).1.
Proof. by destruct (tick_spec ex w) as (? & ? & ? & ? & ? & ? & ? & ? & ? & _). Qed.

Lemma tick_now ex w : now (tick ex w).2 = S (now w).
Proof. by destruct (tick_spec ex w) as (?&?&?&?&?&?&?&?&?&?&?&?&?). Qed.

Lemma tick_next_loop ex w : next_loop (tick ex w).2 = next_loop w.
Proof. by destruct (tick_spec ex w) as (?&?&?&?&?&?&?&?&?&?&?&?&?). Qed.

Lemma tick_grows ex w : grows worker_event w (tick ex w).2.
Proof. by destruct (tick_spec ex w) as (?&?&?&?&?&?&?&?&?&?&?&?&?). Qed.

Lemma tick_idle ex w :
  resident ex = [] →
  (tick ex w).1 = ex ∧ heap (tick ex w).2 = heap w ∧ log (tick ex w).2 = log w.
Proof.
  unfold resident. intros [Hr Hq]%app_eq_nil.
  unfold tick, start_all. rewrite Hq. simpl. unfold worker_finish. simpl.
  rewrite Hr. simpl. destruct ex; simpl in *. by subst.
Qed.

Lemma ticks_S n ex w :
  ticks (S n) ex w = ticks n (tick ex w).1 (tick ex w).2.
Proof. simpl. by destruct (tick ex w). Qed.


Lemma ticks_wf n ex w : wf ex → wf (ticks n ex w).1.
Proof.
  revert ex w. induction n as [|n IH]; intros ex w H; [done|].
  rewrite ticks_S. by apply IH, tick_wf.
Qed.

Lemma ticks_frame n ex w : frame ex (ticks n ex w).1.
Proof.
  revert ex w. induction n as [|n IH]; intros ex w; [done|].
  rewrite ticks_S. eapply frame_trans; [apply tick_frame|apply IH].
Qed.

Lemma ticks_now n ex w : now (ticks n ex w).2 = now w + n.
Proof.
  revert ex w. induction n as [|n IH]; intros ex w; [simpl; lia|].
  rewrite ticks_S, IH, tick_now. lia.
Qed.

Lemma ticks_next_loop n ex w : next_loop (ticks n ex w).2 = next_loop w.
Proof.
  revert ex w. induction n as [|n IH]; intros ex w; [done|].
  by rewrite ticks_S, IH, tick_next_loop.
Qed.

Lemma ticks_grows n ex w : grows worker_event w (ticks n ex w).2.
Proof.
  revert ex w. induction n as [|n IH]; intros ex w; [apply grows_refl|].
  rewrite ticks_S. eapply grows_trans; [apply tick_grows|apply IH].
Qed.

Lemma ticks_futures_mono n ex w f o :
  wf ex → _futures ex !! f = Some o → _futures (ticks n ex w).1 !! f = Some o.
Proof.
  revert ex w. induction n as [|n IH]; intros ex w H Hf; [done|].
  rewrite ticks_S. apply IH; [by apply tick_wf|by apply tick_futures_mono].
Qed.

Lemma ticks_idle n ex w :
  resident ex = [] →
  (ticks n ex w).1 = ex ∧ heap (ticks n ex w).2 = heap w
  ∧ log (ticks n ex w).2 = log w.
Proof.
  revert w. induction n as [|n IH]; intros w H; [done|].
  rewrite ticks_S. destruct (tick_idle ex w H) as (E1 & E2 & E3).
  rewrite E1. destruct (IH (tick ex w).2 H) as (I1 & I2 & I3).
  rewrite I1, I2, I3. done.
Qed.

Lemma ticks_drain n ex w :
  wf ex → backlog ex ≤ n → resident (ticks n ex w).1 = [].
Proof.
  revert ex w. induction n as [|n IH]; intros ex w H Hb.
  { apply backlog_zero. simpl. lia. }
  rewrite ticks_S. destruct (decide (resident ex = [])) as [He|Hne].
  - destruct (tick_idle ex w He) as (E1 & _). rewrite E1.
    apply IH; [done|]. apply backlog_zero in He. lia.
  - apply IH; [by apply tick_wf|].
    pose proof (tick_backlog ex w H Hne). lia.
Qed.

Lemma ticks_tracked n ex w wi :
  wf ex → wi ∈ resident ex →
  (∃ wi', wi' ∈ resident (ticks n ex w).1
          ∧ wi_future wi' = wi_future wi ∧ wi_fn wi' = wi_fn wi)
  ∨ (∃ s, _futures (ticks n ex w).1 !! wi_future wi
          = Some (fst (co_body (wi_fn wi) s))).
Proof.
  revert ex w wi. induction n as [|n IH]; intros ex w wi H Hin.
  { left. by exists wi. }
  rewrite ticks_S. destruct (tick_tracked ex w wi H Hin) as [(wi' & Hin' & Ef & En)|[s Hs]].
  - rewrite <- Ef, <- En. apply IH; [by apply tick_wf|done].
  - right. exists s. apply ticks_futures_mono; [by apply tick_wf|done].
Qed.

Lemma ticks_complete n ex w wi :
  wf ex → wi ∈ resident ex → backlog ex ≤ n →
  ∃ s, _futures (ticks n ex w).1 !! wi_future wi
       = Some (fst (co_body (wi_fn wi) s)).
Proof.
  intros H Hin Hb.
  destruct (ticks_tracked n ex w wi H Hin) as [(wi' & Hin' & _)|Hs]; [|done].
  rewrite ticks_drain in Hin' by done. by apply elem_of_nil in Hin'.
Qed.

Lemma adjust_thread_count_spec ex :
  let ex' := adjust_thread_count ex in
  _max_workers ex' = _max_workers ex ∧ _shutdown ex' = _shutdown ex
  ∧ _work_queue ex' = _work_queue ex ∧ _running ex' = _running ex
  ∧ _futures ex' = _futures ex ∧ _next_future ex' = _next_future ex
  ∧ _threads ex ≤ _threads ex'
  ∧ (1 ≤ _max_workers ex → _threads ex ≤ _max_workers ex →
     1 ≤ _threads ex' ∧ _threads ex' ≤ _max_workers ex).
Proof.
  unfold adjust_thread_count. repeat case_decide; simpl; repeat split; lia.
Qed.

Lemma submit_refused fn ex w :
  _shutdown ex = true →
  submit fn ex w
  = (Raises (RuntimeError "cannot schedule new futures after shutdown"),
     ex, emit EvSubmitRefused w).
Proof. unfold submit. by intros ->. Qed.

Lemma submit_accepted fn ex w :
  _shutdown ex = false →
  ∃ ex',
    submit fn ex w = (Returns (_next_future ex), ex', emit (EvSubmit (_next_future ex)) w)
    ∧ resident ex' = resident ex ++
        [{| wi_future := _next_future ex; wi_fn := fn; wi_left := co_dur fn |}]
    ∧ _running ex' = _running ex
    ∧ _futures ex' = _futures ex
    ∧ _next_future ex' = S (_next_future ex)
    ∧ _max_workers ex' = _max_workers ex
    ∧ _shutdown ex' = false
    ∧ _threads ex ≤ _threads ex'
    ∧ (1 ≤ _max_workers ex → _threads ex ≤ _max_workers ex →
       _threads ex' ≤ _max_workers ex)
    ∧ (wf ex → wf ex').
Proof.
  intros Hs. unfold submit. rewrite Hs.
  match goal with |- context [adjust_thread_count ?e] =>
    pose proof (adjust_thread_count_spec e) as (A1 & A2 & A3 & A4 & A5 & A6 & A7 & A8);
    set (ex' := adjust_thread_count e) in * end.
  simpl in *. exists ex'. split; [done|].
  assert (Hres : resident ex' = resident ex ++
    [{| wi_future := _next_future ex; wi_fn := fn; wi_left := co_dur fn |}]).
  { unfold resident. rewrite A3, A4. by rewrite app_assoc. }
  split_and!; try done.
  { intros H1 H2. by apply A8. }
  intros [W1 W2 W3 W4 W5 W6 W7]. destruct (A8 W1 W2) as [T1 T2].
  split.
  - by rewrite A1.
  - by rewrite A1.
  - rewrite A4. lia.
  - by right.
  - rewrite Hres, fmap_app. apply NoDup_app. split; [done|]. split.
    + intros f (wi & -> & Hin)%list_elem_of_fmap Hf. simpl in Hf.
      apply list_elem_of_singleton in Hf. apply W6 in Hin as [Hlt _]. lia.
    + simpl. apply NoDup_singleton.
  - intros wi Hin. rewrite Hres in Hin. rewrite A5, A6.
    apply elem_of_app in Hin as [Hin|Hin].
    + apply W6 in Hin as [Hlt Hn]. split; [lia|done].
    + apply list_elem_of_singleton in Hin as ->. simpl. split; [lia|].
      destruct (_futures ex !! _next_future ex) as [o|] eqn:E; [|done].
      apply W7 in E. lia.
  - intros f o Hf. rewrite A5 in Hf. rewrite A6. apply W7 in Hf. lia.
Qed.

(** await *)


Lemma await_stops f n t o ex w :
  n ≤ t →
  (∀ k, k < n → _futures (ticks k ex w).1 !! f = None) →
  _futures (ticks n ex w).1 !! f = Some o →
  await f t ex w = (Some o, (ticks n ex w).1, (ticks n ex w).2).
Proof.
  revert t ex w. induction n as [|n IH]; intros t ex w Hle H Hn.
  { simpl in Hn. destruct t; simpl; by rewrite Hn. }
  destruct t as [|t]; [lia|]. simpl.
  pose proof (H 0 ltac:(lia)) as H0. simpl in H0. rewrite H0.
  destruct (tick ex w) as [ex1 w1] eqn:E.
  rewrite ticks_S, E in Hn. simpl in Hn.
  apply IH; [lia| |done].
  intros k Hk. specialize (H (S k)). rewrite ticks_S, E in H. apply H. lia.
Qed.

Lemma finish_time_spec f b n ex w :
  finish_time f b ex w = Some n →
  n ≤ b
  ∧ (∀ k, k < n → _futures (ticks k ex w).1 !! f = None)
  ∧ is_Some (_futures (ticks n ex w).1 !! f).
Proof.
  revert n ex w. induction b as [|b IH]; intros n ex w; simpl.
  - destruct (_futures ex !! f) eqn:E; [|done]. intros [= <-].
    split; [done|]. split; [intros; lia|]. simpl. by rewrite E.
  - destruct (_futures ex !! f) eqn:E.
    + intros [= <-]. split; [lia|]. split; [intros; lia|]. simpl. by rewrite E.
    + destruct (tick ex w) as [ex1 w1] eqn:Et.
      destruct (finish_time f b ex1 w1) as [m|] eqn:Ef; [|done].
      simpl. intros [= <-]. destruct (IH _ _ _ Ef) as (Hle & Hno & Hyes).
      split; [lia|]. split.
      * intros [|k] Hk; [done|]. rewrite ticks_S, Et. apply Hno. lia.
      * by rewrite ticks_S, Et.
Qed.

Lemma finish_time_total f b ex w :
  is_Some (_futures (ticks b ex w).1 !! f) →
  is_Some (finish_time f b ex w).
Proof.
  revert ex w. induction b as [|b IH]; intros ex w; simpl.
  - intros [o ->]. done.
  - destruct (_futures ex !! f) eqn:E; [done|].
    destruct (tick ex w) as [ex1 w1] eqn:Et. intros H.
    destruct (IH _ _ H) as [m ->]. done.
Qed.

Lemma await_now f t ex w :
  now (await f t ex w).2 ≤ now w + t.
Proof.
  revert ex w. induction t as [|t IH]; intros ex w; simpl.
  { destruct (_futures ex !! f); simpl; lia. }
  destruct (_futures ex !! f); simpl; [lia|].
  pose proof (tick_now ex w) as Hn. destruct (tick ex w) as [ex1 w1].
  simpl in Hn. specialize (IH ex1 w1). lia.
Qed.

Lemma await_as_ticks f t ex w :
  ∃ k, k ≤ t ∧ (await f t ex w).1.2 = (ticks k ex w).1
       ∧ (await f t ex w).2 = (ticks k ex w).2
       ∧ (await f t ex w).1.1 = _futures (ticks k ex w).1 !! f
       ∧ ((await f t ex w).1.1 = None → k = t).
Proof.
  revert ex w. induction t as [|t IH]; intros ex w; simpl.
  { exists 0. destruct (_futures ex !! f) eqn:E; simpl; by rewrite ?E. }
  destruct (_futures ex !! f) eqn:E; simpl.
  { exists 0. simpl. rewrite E. repeat split; [lia|done]. }
  destruct (tick ex w) as [ex1 w1] eqn:Et.
  destruct (IH ex1 w1) as (k & Hk & E1 & E2 & E3 & E4).
  exists (S k). rewrite ticks_S, Et. repeat split; try done; [lia|].
  intros H. f_equal. by apply E4.
Qed.

(** join *)

Lemma join_as_ticks b ex w :
  ∃ k, k ≤ b ∧ join b ex w = ticks k ex w
       ∧ (k < b → resident (ticks k ex w).1 = []).
Proof.
  revert ex w. induction b as [|b IH]; intros ex w; simpl.
  { exists 0. destruct (idle ex); repeat split; try done; lia. }
  destruct (idle ex) eqn:Ei.
  { exists 0. repeat split; [lia|]. intros _. by apply idle_resident. }
  destruct (tick ex w) as [ex1 w1] eqn:Et.
  destruct (IH ex1 w1) as (k & Hk & E1 & E2).
  exists (S k). rewrite ticks_S, Et. repeat split; [lia|done|].
  intros H. apply E2. lia.
Qed.

Lemma join_drains ex w :
  wf ex → resident (join (backlog ex) ex w).1 = [].
Proof.
  intros H. destruct (join_as_ticks (backlog ex) ex w) as (k & Hk & -> & Hd).
  destruct (decide (k < backlog ex)) as [Hlt|Hge]; [by apply Hd|].
  apply ticks_drain; [done|lia].
Qed.

Lemma tick_tracked_left ex w wi :
  wf ex → wi ∈ resident ex → 2 ≤ wi_left wi →
  ∃ wi', wi' ∈ resident (tick ex w).1
         ∧ wi_future wi' = wi_future wi ∧ wi_fn wi' = wi_fn wi
         ∧ wi_left wi - 1 ≤ wi_left wi'.
Proof.
  intros Hwf Hin Hl.
  destruct (tick_spec ex w)
    as (r1 & q1 & w2 & HR & Hsat & Hlen & Er & Eq & _).
  rewrite <- HR in Hin. apply elem_of_app in Hin as [Hin|Hin].
  - exists (work wi). split_and!; try done; [|simpl; lia].
    unfold resident. rewrite Er. apply elem_of_app. left.
    apply list_elem_of_filter. split; [simpl; lia|].
    by apply list_elem_of_fmap_2.
  - exists wi. split_and!; try done; [|lia]. unfold resident. rewrite Eq.
    apply elem_of_app. by right.
Qed.

Lemma ticks_tracked_left k ex w wi :
  wf ex → wi ∈ resident ex → k < Nat.max 1 (wi_left wi) →
  ∃ wi', wi' ∈ resident (ticks k ex w).1
         ∧ wi_future wi' = wi_future wi ∧ wi_fn wi' = wi_fn wi
         ∧ wi_left wi - k ≤ wi_left wi'.
Proof.
  revert ex w wi. induction k as [|k IH]; intros ex w wi Hwf Hin Hk.
  { exists wi. split_and!; try done. simpl. lia. }
  rewrite ticks_S.
  destruct (tick_tracked_left ex w wi Hwf Hin) as (wi1 & Hin1 & E1 & E2 & E3);
    [lia|].
  destruct (IH (tick ex w).1 (tick ex w).2 wi1) as (wi2 & Hin2 & F1 & F2 & F3);
    [by apply tick_wf|done|lia|].
  exists wi2. split_and!; try congruence. lia.
Qed.

Lemma backlog_submit fn ex w :
  _shutdown ex = false →
  backlog (submit fn ex w).1.2 = backlog ex + Nat.max 1 (co_dur fn).
Proof.
  intros Hs. destruct (submit_accepted fn ex w Hs) as (ex1 & -> & Hres & _).
  simpl. rewrite !backlog_resident, Hres, fmap_app, sum_list_append.
  simpl. unfold cost at 2. simpl. lia.
Qed.


(** A pool that holds one item: a tick leaves it there and the state as
    it was, or resolves it on the state as it was and leaves the pool
    empty. *)
Lemma tick_single ex w wi :
  wf ex → resident ex = [wi] →
  (∃ wi', resident (tick ex w).1 = [wi']
          ∧ wi_future wi' = wi_future wi ∧ wi_fn wi' = wi_fn wi
          ∧ heap (tick ex w).2 = heap w)
  ∨ (resident (tick ex w).1 = []
     ∧ _futures (tick ex w).1 !! wi_future wi
       = Some (fst (co_body (wi_fn wi) (heap w)))
     ∧ heap (tick ex w).2 = snd (co_body (wi_fn wi) (heap w))).
Proof.
  intros Hwf Hres. unfold tick, start_all.
  pose proof (fill_started (length (_work_queue ex)) ex w) as Hs.
  destruct (fill (length (_work_queue ex)) ex w) as [ex1 w1]. simpl in *.
  destruct Hs as (F & U & H & N & L & G & (k & R & Q) & B).
  assert (HR : _running ex1 ++ _work_queue ex1 = [wi]).
  { rewrite R, Q, <- app_assoc, take_drop. exact Hres. }
  unfold worker_finish, resident. simpl.
  destruct (_running ex1) as [|x [|y rs]] eqn:Er; simpl in *.
  - left. exists wi. by rewrite HR.
  - injection HR as -> Hq. rewrite Hq. destruct (wi_left wi) as [|[|n]] eqn:El;
      simpl.
    + right. destruct (co_body (wi_fn wi) (heap w1)) as [o h] eqn:Eb. simpl.
      rewrite lookup_insert_eq, <- H, Eb. done.
    + right. destruct (co_body (wi_fn wi) (heap w1)) as [o h] eqn:Eb. simpl.
      rewrite lookup_insert_eq, <- H, Eb. done.
    + left. exists (work wi). split_and!; done.
  - discriminate HR.
Qed.

Lemma ticks_single k ex w wi :
  wf ex → resident ex = [wi] →
  (∃ wi', resident (ticks k ex w).1 = [wi']
          ∧ wi_future wi' = wi_future wi ∧ wi_fn wi' = wi_fn wi
          ∧ heap (ticks k ex w).2 = heap w)
  ∨ (resident (ticks k ex w).1 = []
     ∧ _futures (ticks k ex w).1 !! wi_future wi
       = Some (fst (co_body (wi_fn wi) (heap w)))
     ∧ heap (ticks k ex w).2 = snd (co_body (wi_fn wi) (heap w))).
Proof.
  revert ex w wi. induction k as [|k IH]; intros ex w wi Hwf Hres.
  { left. by exists wi. }
  rewrite ticks_S.
  destruct (tick_single ex w wi Hwf Hres)
    as [(wi1 & Hr1 & E1 & E2 & E3)|(Hr1 & Hf & Hh)].
  - rewrite <- E1, <- E2, <- E3. apply IH; [by apply tick_wf|done].
  - right. destruct (ticks_idle k _ (tick ex w).2 Hr1) as (I1 & I2 & _).
    rewrite I1, I2. done.
Qed.


(** *** Schedules *)



Lemma steps_app ss1 ss2 ex w :
  steps (ss1 ++ ss2) ex w = steps ss2 (steps ss1 ex w).1 (steps ss1 ex w).2.
Proof.
  revert ex w. induction ss1 as [|s ss1 IH]; intros ex w; simpl; [done|].
  destruct (step s ex w) as [ex1 w1]. apply IH.
Qed.

Lemma fill_as_steps n ex w : fill n ex w = steps (replicate n StStart) ex w.
Proof.
  revert ex w. induction n as [|n IH]; intros ex w; simpl; [done|].
  destruct (worker_start ex w) as [ex1 w1]. apply IH.
Qed.

(** A tick of the busy workers is one of the schedules: what a blocking
    call lets happen, the schedules cover. *)
Lemma tick_as_steps ex w :
  tick ex w
  = steps (replicate (length (_work_queue ex)) StStart ++ [StClock; StFinish])
      ex w.
Proof.
  rewrite steps_app, <- fill_as_steps. unfold tick, start_all.
  destruct (fill (length (_work_queue ex)) ex w) as [ex1 w1]. simpl.
  by destruct (worker_finish _ _).
Qed.

End PoolFacts.
End PoolFacts.

(** * The order of execution in a pool of one worker *)

Module SerialFacts.
Import Pool PoolFacts.
Section SerialFacts.
Context {St : Type}.
Implicit Types (ex : ThreadPoolExecutor St) (w : World St) (wi : WorkItem St).

Lemma snoc_split (evs l1 l2 : list Event) (e x : Event) :
  evs ++ [e] = l1 ++ x :: l2 →
  (l2 = [] ∧ l1 = evs ∧ x = e) ∨ (∃ l2', l2 = l2' ++ [e] ∧ evs = l1 ++ x :: l2').
Proof.
  destruct l2 as [|y l2 _] using rev_ind.
  - intros H. apply app_inj_tail in H as [-> ->]. by left.
  - intros H. right. exists l2.
    change (x :: l2 ++ [y]) with ((x :: l2) ++ [y]) in H.
    rewrite app_assoc in H. apply app_inj_tail in H as [-> ->]. done.
Qed.

Lemma ordered_nil : ordered [].
Proof.
  repeat split; intros l1 ? l2 H; by destruct l1.
Qed.

Lemma ordered_snoc evs e :
  ordered evs →
  (∀ b, e = EvStart b → ∀ a, a < b → EvFinish a ∈ evs) →
  (∀ a, e = EvFinish a → EvStart a ∈ evs) →
  (∀ b, e = EvSubmit b → ∀ a, EvSubmit a ∈ evs → a < b) →
  ordered (evs ++ [e]).
Proof.
  intros (O1 & O2 & O3) H1 H2 H3. repeat split.
  - intros l1 b l2 [(-> & -> & <-)|(l2' & -> & ->)]%snoc_split; eauto.
  - intros l1 a l2 [(-> & -> & <-)|(l2' & -> & ->)]%snoc_split; eauto.
  - intros l1 b l2 [(-> & -> & <-)|(l2' & -> & ->)]%snoc_split; eauto.
Qed.

Lemma serial_submit base fn ex w :
  serial base ex w → serial base (submit fn ex w).1.2 (submit fn ex w).2.
Proof.
  intros (evs & m & HL & HM & HT & HR & Hseq & Hnext & Hfin & Hrun & Hsub & Hord).
  destruct (_shutdown ex) eqn:Hs.
  { rewrite submit_refused by done. simpl.
    exists (evs ++ [EvSubmitRefused]), m. split_and!; try done.
    - simpl; by rewrite HL, <- app_assoc.
    - intros a Ha. apply elem_of_app. left. by apply Hfin.
    - intros wi Hwi. apply elem_of_app. left. by apply Hrun.
    - intros a [Ha|Ha%list_elem_of_singleton]%elem_of_app; [by apply Hsub|done].
    - apply ordered_snoc; [done|..]; by intros. }
  destruct (submit_accepted fn ex w Hs)
    as (ex' & -> & Hres & Hrun' & _ & Hn' & Hm' & _ & Hthr & Hthr' & _). simpl.
  exists (evs ++ [EvSubmit (_next_future ex)]), m. split_and!.
  - simpl; by rewrite HL, <- app_assoc.
  - congruence.
  - rewrite Hm'. apply Hthr'; lia.
  - rewrite Hrun'. lia.
  - rewrite Hres, fmap_app, length_app, seq_app, Hseq. simpl.
    do 2 f_equal. lia.
  - rewrite Hres, length_app, Hn'. simpl. lia.
  - intros a Ha. apply elem_of_app. left. by apply Hfin.
  - intros wi Hwi. rewrite Hrun' in Hwi. apply elem_of_app. left. by apply Hrun.
  - rewrite Hn'. intros a [Ha|Ha%list_elem_of_singleton]%elem_of_app.
    + apply Hsub in Ha. lia.
    + injection Ha as ->. lia.
  - apply ordered_snoc; [done|by intros|by intros|].
    intros b [= <-] a Ha. by apply Hsub.
Qed.

Lemma serial_start base ex w :
  serial base ex w →
  serial base (worker_start ex w).1 (worker_start ex w).2.
Proof.
  intros (evs & m & HL & HM & HT & HR & Hseq & Hnext & Hfin & Hrun & Hsub & Hord).
  unfold worker_start. destruct (_work_queue ex) as [|wi q] eqn:Eq.
  { exists evs, m. by split_and!. }
  case_decide as Hd; [|exists evs, m; by split_and!]. simpl.
  assert (Hnil : _running ex = []).
  { destruct (_running ex); [done|simpl in *; lia]. }
  assert (Hid : wi_future wi = m).
  { unfold resident in Hseq. rewrite Hnil, Eq in Hseq. simpl in Hseq.
    by injection Hseq. }
  exists (evs ++ [EvStart (wi_future wi)]), m. unfold resident in *. simpl.
  rewrite Hnil, Eq in *. simpl in *. split_and!; try done.
  - simpl; by rewrite HL, <- app_assoc.
  - intros a Ha. apply elem_of_app. left. by apply Hfin.
  - intros wi' ->%list_elem_of_singleton. apply elem_of_app. right.
    by apply list_elem_of_singleton.
  - intros a [Ha|Ha%list_elem_of_singleton]%elem_of_app; [by apply Hsub|done].
  - apply ordered_snoc; [done| |by intros|by intros].
    intros b [= <-] a Ha. apply Hfin. lia.
Qed.

Lemma serial_clock base ex w :
  serial base ex w → serial base (clock ex w).1 (clock ex w).2.
Proof.
  intros (evs & m & HL & HM & HT & HR & Hseq & Hnext & Hfin & Hrun & Hsub & Hord).
  exists evs, m. unfold clock, resident in *. simpl.
  rewrite length_app, length_fmap, <- length_app.
  rewrite fmap_app, work_futures, <- fmap_app.
  split_and!; try done.
  intros wi' (wi & -> & Hin)%list_elem_of_fmap. rewrite work_future.
  by apply Hrun.
Qed.

Lemma serial_finish base ex w :
  serial base ex w →
  serial base (worker_finish ex w).1 (worker_finish ex w).2.
Proof.
  intros (evs & m & HL & HM & HT & HR & Hseq & Hnext & Hfin & Hrun & Hsub & Hord).
  unfold worker_finish.
  destruct (_running ex) as [|wi [|wi2 rs]] eqn:Er; simpl.
  - exists evs, m. unfold resident in *. simpl. rewrite Er in *.
    by split_and!.
  - destruct (wi_left wi) eqn:El.
    + destruct (co_body (wi_fn wi) (heap w)) as [o h]. simpl.
      unfold resident in *. rewrite Er in *. simpl in *.
      injection Hseq as Hid Hseq.
      exists (evs ++ [EvFinish (wi_future wi)]), (S m). unfold resident. simpl.
      split_and!; try done; try lia.
      * simpl; by rewrite HL, <- app_assoc.
      * intros a Ha. apply elem_of_app.
        destruct (decide (a = m)) as [->|Hne].
        -- right. rewrite Hid. by apply list_elem_of_singleton.
        -- left. apply Hfin. lia.
      * intros wi' Hwi'. by apply elem_of_nil in Hwi'.
      * intros a [Ha|Ha%list_elem_of_singleton]%elem_of_app; [by apply Hsub|done].
      * apply ordered_snoc; [done|by intros| |by intros].
        intros a [= <-]. apply Hrun. by apply list_elem_of_singleton.
    + simpl. exists evs, m. unfold resident in *. simpl. rewrite Er in *.
      by split_and!.
  - simpl in HR. lia.
Qed.

Lemma serial_step base s ex w :
  serial base ex w → serial base (step s ex w).1 (step s ex w).2.
Proof.
  intros H. destruct s as [fn| | |]; simpl.
  - pose proof (serial_submit base fn ex w H) as H'.
    by destruct (submit fn ex w) as [[? ?] ?].
  - by apply serial_start.
  - by apply serial_clock.
  - by apply serial_finish.
Qed.

Lemma serial_steps base ss ex w :
  serial base ex w → serial base (steps ss ex w).1 (steps ss ex w).2.
Proof.
  revert ex w. induction ss as [|s ss IH]; intros ex w H; simpl; [done|].
  pose proof (serial_step base s ex w H) as H'.
  destruct (step s ex w) as [ex1 w1]. by apply IH.
Qed.

End SerialFacts.
End SerialFacts.

(** * The bridge *)

Module BridgeFacts.
Import Pool PoolFacts SerialFacts Bridge.
Section BridgeFacts.
Context {St : Type}.
Implicit Types (ex : ThreadPoolExecutor St) (w : World St) (wi : WorkItem St).
Implicit Types (fn : Coroutine St) (self : ASGIRefBridge St).

Lemma filter_worker_events (P : Event → bool) evs :
  (∀ e, worker_event e = true → P e = false) →
  Forall (λ e, worker_event e = true) evs → List.filter P evs = [].
Proof.
  intros HP. induction 1 as [|e evs He _ IH]; simpl; [done|].
  by rewrite (HP e He).
Qed.

Lemma result_spec f timeout ex w :
  let w0 := emit (EvFutureResult f) w in
  let budget := match timeout with Some t => t | None => backlog ex end in
  ∃ k, k ≤ budget
    ∧ (result f timeout ex w).1.2 = (ticks k ex w0).1
    ∧ (result f timeout ex w).2 = (ticks k ex w0).2
    ∧ match _futures (ticks k ex w0).1 !! f with
      | Some o => (result f timeout ex w).1.1 = Done o
      | None => k = budget
                ∧ (result f timeout ex w).1.1
                  = match timeout with
                    | Some _ => Done (Raises TimeoutError)
                    | None => Hangs
                    end
      end.
Proof.
  intros w0 budget. unfold result. fold w0. fold budget.
  destruct (await_as_ticks f budget ex w0) as (k & Hk & E1 & E2 & E3 & E4).
  destruct (await f budget ex w0) as [[r ex'] w'] eqn:Ea. simpl in *.
  exists k. rewrite <- E3. destruct r as [o|]; destruct timeout; simpl;
    repeat split; try done; by apply E4.
Qed.

Lemma init_spec mw ctx w self w1 :
  __init__ mw ctx w = (Returns self, w1) →
  isinparentloop self = isinloop ctx
  ∧ loop self = (if isinloop ctx then None else Some (next_loop w))
  ∧ (0 < mw)%Z
  ∧ _max_workers (_executor self) = Z.to_nat mw
  ∧ _shutdown (_executor self) = false
  ∧ _threads (_executor self) = 0
  ∧ _running (_executor self) = []
  ∧ _work_queue (_executor self) = []
  ∧ _futures (_executor self) = ∅
  ∧ _next_future (_executor self) = 0
  ∧ heap w1 = heap w ∧ now w1 = now w
  ∧ next_loop w1 = (if isinloop ctx then next_loop w else S (next_loop w))
  ∧ log w1 = log w ++ (if isinloop ctx then []
                       else [EvNewEventLoop (next_loop w);
                             EvSetEventLoop (next_loop w)]).
Proof.
  unfold __init__, new_executor. case_decide as Hmw; [done|].
  destruct (isinloop ctx) eqn:Hc; simpl; intros [= <- <-]; simpl;
    split_and!; try done; try lia.
  - by rewrite app_nil_r.
  - by rewrite <- app_assoc.
Qed.

Lemma init_wf mw ctx w self w1 :
  __init__ mw ctx w = (Returns self, w1) → wf (_executor self).
Proof.
  intros (_ & _ & Hmw & Hm & Hs & Ht & Hr & Hq & Hf & Hn & _)%init_spec.
  split.
  - lia.
  - lia.
  - rewrite Hr. simpl. lia.
  - unfold resident. rewrite Hr, Hq. by left.
  - unfold resident. rewrite Hr, Hq. constructor.
  - unfold resident. rewrite Hr, Hq. intros wi Hwi. by apply elem_of_nil in Hwi.
  - rewrite Hf. intros f o Ho. by rewrite lookup_empty in Ho.
Qed.

(** What [run] leaves as it was, and what it appends to the log. *)
Lemma run_spec self fn timeout ctx w :
  isinparentloop (run self fn timeout ctx w).1.2 = isinparentloop self
  ∧ loop (run self fn timeout ctx w).1.2 = loop self
  ∧ (wf (_executor self) → wf (_executor (run self fn timeout ctx w).1.2))
  ∧ next_loop (run self fn timeout ctx w).2 = next_loop w
  ∧ ∃ evs, log (run self fn timeout ctx w).2 = log w ++ evs
      ∧ List.filter new_loop_event evs = []
      ∧ List.filter caller_event evs
        = if isinparentloop self then pool_route (_executor self)
          else match loop self with
               | Some l => loop_route l
               | None => []
               end.
Proof.
  unfold run, pool_route, loop_route.
  destruct (isinparentloop self) eqn:Hp.
  - destruct (_shutdown (_executor self)) eqn:Hs.
    + rewrite submit_refused by done. simpl. split_and!; try done.
      by exists [EvSubmitRefused].
    + destruct (submit_accepted (async_to_sync fn) (_executor self) w Hs)
        as (ex1 & -> & _ & _ & _ & _ & _ & _ & _ & _ & Hwf).
      destruct (result_spec (_next_future (_executor self)) timeout ex1
                  (emit (EvSubmit (_next_future (_executor self))) w))
        as (k & _ & E1 & E2 & _).
      destruct (result _ timeout ex1 _) as [[r ex2] w2]. simpl in *.
      subst ex2 w2. split_and!; try done.
      * intros H. by apply ticks_wf, Hwf.
      * by rewrite ticks_next_loop.
      * match goal with |- context [ticks k ex1 ?v] =>
          destruct (ticks_grows k ex1 v) as (evs & -> & Hevs) end.
        simpl. exists ([EvSubmit (_next_future (_executor self));
                        EvFutureResult (_next_future (_executor self))] ++ evs).
        rewrite <- !app_assoc. split; [done|]. simpl.
        rewrite !(filter_worker_events _ evs) by (done || by intros []).
        done.
  - destruct (loop self) as [l|] eqn:Hl.
    + unfold run_until_complete. destruct ctx as [cur|].
      * destruct (bool_decide (loop_id cur = l) && is_running cur); simpl;
          split_and!; try done; by exists [EvRunUntilComplete l].
      * match goal with |- context [ticks ?n ?e ?v] =>
          pose proof (ticks_wf n e v) as Hwf;
          pose proof (ticks_next_loop n e v) as Hnl;
          destruct (ticks_grows n e v) as (evs & Hlog & Hevs);
          destruct (ticks n e v) as [ex1 w1] end.
        destruct (co_body fn (heap w1)) as [o h]. simpl in *.
        split_and!; try done.
        exists (EvRunUntilComplete l :: evs). rewrite Hlog, <- app_assoc.
        split; [done|]. simpl.
        rewrite !(filter_worker_events _ evs) by (done || by intros []).
        done.
    + simpl. split_and!; try done. exists []. by rewrite app_nil_r.
Qed.

Lemma executor_shutdown_spec ex w :
  wf ex →
  ∃ k, k ≤ backlog ex
    ∧ let ex1 := (ticks k {| _max_workers := _max_workers ex;
                             _shutdown := true;
                             _work_queue := _work_queue ex;
                             _running := _running ex;
                             _threads := _threads ex;
                             _futures := _futures ex;
                             _next_future := _next_future ex |} w).1 in
      let w1 := (ticks k {| _max_workers := _max_workers ex;
                            _shutdown := true;
                            _work_queue := _work_queue ex;
                            _running := _running ex;
                            _threads := _threads ex;
                            _futures := _futures ex;
                            _next_future := _next_future ex |} w).2 in
      resident ex1 = []
      ∧ executor_shutdown ex w
        = (Done (Returns PNone),
           {| _max_workers := _max_workers ex1;
              _shutdown := _shutdown ex1;
              _work_queue := _work_queue ex1;
              _running := _running ex1;
              _threads := 0;
              _futures := _futures ex1;
              _next_future := _next_future ex1 |}, w1).
Proof.
  intros Hwf. unfold executor_shutdown.
  set (ex0 := {| _max_workers := _max_workers ex; _shutdown := true;
                 _work_queue := _work_queue ex; _running := _running ex;
                 _threads := _threads ex; _futures := _futures ex;
                 _next_future := _next_future ex |}).
  assert (Hwf0 : wf ex0) by by destruct Hwf.
  pose proof (join_drains ex0 w Hwf0) as Hd.
  destruct (join_as_ticks (backlog ex0) ex0 w) as (k & Hk & Ej & _).
  exists k. split; [done|]. simpl. rewrite Ej in *.
  destruct (ticks k ex0 w) as [ex1 w1]. simpl in *.
  split; [done|]. apply idle_resident in Hd. by rewrite Hd.
Qed.

Lemma shutdown_spec self w :
  isinparentloop (shutdown self w).1.2 = isinparentloop self
  ∧ loop (shutdown self w).1.2 = loop self
  ∧ (wf (_executor self) → wf (_executor (shutdown self w).1.2))
  ∧ next_loop (shutdown self w).2 = next_loop w
  ∧ ∃ evs, log (shutdown self w).2 = log w ++ evs
      ∧ List.filter new_loop_event evs = [].
Proof.
  unfold shutdown, executor_shutdown.
  match goal with |- context [join ?b ?e w] =>
    set (ex0 := e);
    destruct (join_as_ticks (backlog ex0) ex0 w) as (k & _ & Ej & _);
    rewrite Ej;
    pose proof (ticks_wf k ex0 w) as Hwf;
    pose proof (ticks_next_loop k ex0 w) as Hnl;
    destruct (ticks_grows k ex0 w) as (evs & Hlog & Hevs);
    destruct (ticks k ex0 w) as [ex1 w1] end.
  simpl in *.
  assert (Hlogs : ∃ evs0, log w1 = log w ++ evs0
                    ∧ List.filter new_loop_event evs0 = []).
  { exists evs. split; [done|]. apply filter_worker_events; [|done].
    by intros []. }
  destruct (idle ex1) eqn:Hi; simpl; split_and!; try done.
  - intros H. assert (H0 : wf ex0) by by destruct H.
    destruct (Hwf H0) as [W1 W2 W3 W4 W5 W6 W7].
    apply idle_resident in Hi. unfold resident in *.
    apply app_eq_nil in Hi as [Hr Hq].
    split; simpl; try done; try lia.
    + rewrite Hr. simpl. lia.
    + left. unfold resident. simpl. by rewrite Hr, Hq.
  - intros H. apply Hwf. by destruct H.
Qed.

Lemma use_spec u self w :
  isinparentloop (use u self w).1 = isinparentloop self
  ∧ loop (use u self w).1 = loop self
  ∧ (wf (_executor self) → wf (_executor (use u self w).1))
  ∧ next_loop (use u self w).2 = next_loop w
  ∧ ∃ evs, log (use u self w).2 = log w ++ evs
      ∧ List.filter new_loop_event evs = [].
Proof.
  destruct u as [fn timeout ctx| |n]; simpl.
  - destruct (run_spec self fn timeout ctx w)
      as (H1 & H2 & H3 & H4 & evs & H5 & H6 & _).
    destruct (run self fn timeout ctx w) as [[r self'] w']. simpl in *.
    split_and!; try done. by exists evs.
  - pose proof (shutdown_spec self w) as H.
    by destruct (shutdown self w) as [[r self'] w'].
  - pose proof (ticks_wf n (_executor self) w) as Hwf.
    pose proof (ticks_next_loop n (_executor self) w) as Hnl.
    destruct (ticks_grows n (_executor self) w) as (evs & Hlog & Hevs).
    destruct (ticks n (_executor self) w) as [ex1 w1]. simpl in *.
    split_and!; try done. exists evs. split; [done|].
    apply filter_worker_events; [|done]. by intros [].
Qed.

Lemma uses_spec us self w :
  isinparentloop (uses us self w).1 = isinparentloop self
  ∧ loop (uses us self w).1 = loop self
  ∧ (wf (_executor self) → wf (_executor (uses us self w).1))
  ∧ next_loop (uses us self w).2 = next_loop w
  ∧ ∃ evs, log (uses us self w).2 = log w ++ evs
      ∧ List.filter new_loop_event evs = [].
Proof.
  revert self w. induction us as [|u us IH]; intros self w; simpl.
  { split_and!; try done. exists []. by rewrite app_nil_r. }
  destruct (use_spec u self w) as (H1 & H2 & H3 & H4 & evs & H5 & H6).
  destruct (use u self w) as [self1 w1]. simpl in *.
  destruct (IH self1 w1) as (I1 & I2 & I3 & I4 & evs' & I5 & I6).
  split_and!; try congruence; [by intros; apply I3, H3|].
  exists (evs ++ evs'). rewrite I5, H5, <- app_assoc. split; [done|].
  by rewrite List.filter_app, H6, I6.
Qed.


(** C1. Every call to [run] takes exactly one of the two paths, and the
    path is fixed by the check made once at construction: whatever was done
    with the bridge since and whatever context the call comes from, a bridge
    built outside a running loop has [run_until_complete] called on its own
    loop and nothing submitted, and a bridge built inside one has the
    operation submitted to the pool and the caller wait on the future it
    got (the submission is refused once the pool is shut down). *)
Theorem run_takes_the_path_fixed_at_construction
  (max_workers : Z) (ctx0 : ThreadCtx) (w0 : World St) self0 w1
  (us : list (Use St)) self w fn timeout (ctx : ThreadCtx) :
  __init__ max_workers ctx0 w0 = (Returns self0, w1) →
  uses us self0 w1 = (self, w) →
  isinparentloop self = isinloop ctx0
  ∧ ∃ evs, log (run self fn timeout ctx w).2 = log w ++ evs
      ∧ List.filter caller_event evs
        = if isinloop ctx0 then pool_route (_executor self)
          else loop_route (next_loop w0).
Proof.
  intros Hinit Huses.
  destruct (init_spec _ _ _ _ _ Hinit) as (Hp & Hl & _).
  destruct (uses_spec us self0 w1) as (U1 & U2 & _).
  rewrite Huses in U1, U2. simpl in *.
  destruct (run_spec self fn timeout ctx w)
    as (_ & _ & _ & _ & evs & Hlog & _ & Hroute).
  split; [congruence|]. exists evs. split; [done|].
  rewrite Hroute, U1, U2, Hp, Hl. by destruct (isinloop ctx0).
Qed.

(** C5. The bridge makes its own loop at most once: at construction, and
    only when the check found no running loop on the constructing thread.
    Whatever is done with the bridge afterwards ([run], [shutdown], time
    passing) makes no loop and leaves [self.loop] as construction set it. *)
Theorem owned_loop_is_made_once_at_construction
  (max_workers : Z) (ctx0 : ThreadCtx) (w0 : World St) self0 w1
  (us : list (Use St)) self w :
  __init__ max_workers ctx0 w0 = (Returns self0, w1) →
  uses us self0 w1 = (self, w) →
  loop self = (if isinloop ctx0 then None else Some (next_loop w0))
  ∧ next_loop w = (if isinloop ctx0 then next_loop w0 else S (next_loop w0))
  ∧ ∃ at_construction later,
      log w1 = log w0 ++ at_construction
      ∧ log w = log w1 ++ later
      ∧ List.filter new_loop_event at_construction
        = (if isinloop ctx0 then [] else [EvNewEventLoop (next_loop w0)])
      ∧ List.filter new_loop_event later = [].
Proof.
  intros Hinit Huses.
  destruct (init_spec _ _ _ _ _ Hinit)
    as (_ & Hl & _ & _ & _ & _ & _ & _ & _ & _ & _ & _ & Hn & Hlog).
  destruct (uses_spec us self0 w1) as (_ & U2 & _ & U4 & later & U5 & U6).
  rewrite Huses in U2, U4, U5. simpl in *.
  split; [congruence|]. split; [congruence|].
  eexists _, later. split; [exact Hlog|]. split; [done|]. split; [|done].
  by destruct (isinloop ctx0).
Qed.

(** C3. [run] takes a timeout on both paths and honours it on the pool
    path only.  On the loop path the call is the same for every timeout and
    comes back when the operation has resolved, after [co_dur] ticks; on
    the pool path the caller waits [timeout] ticks at most. *)
Theorem timeout_is_honoured_on_the_pool_path_only
  self fn (ctx : ThreadCtx) w :
  (isinparentloop self = false →
     (∀ t1 t2, run self fn t1 ctx w = run self fn t2 ctx w)
     ∧ (∀ l t, loop self = Some l → ctx = None →
          now (run self fn t ctx w).2 = now w + co_dur fn
          ∧ ∃ s, (run self fn t ctx w).1.1 = Done (fst (co_body fn s))))
  ∧ (isinparentloop self = true →
     ∀ t, now (run self fn (Some t) ctx w).2 ≤ now w + t).
Proof.
  split; intros Hp.
  - split.
    + intros t1 t2. unfold run. by rewrite Hp.
    + intros l t Hl ->. unfold run, run_until_complete. rewrite Hp, Hl.
      match goal with |- context [ticks ?n ?e ?v] =>
        pose proof (ticks_now n e v) as Hn;
        destruct (ticks n e v) as [ex1 w1] end.
      destruct (co_body fn (heap w1)) as [o h] eqn:Eb. simpl in *.
      split; [done|]. exists (heap w1). by rewrite Eb.
  - intros t. unfold run. rewrite Hp.
    destruct (_shutdown (_executor self)) eqn:Hs.
    + rewrite submit_refused by done. simpl. lia.
    + destruct (submit_accepted (async_to_sync fn) (_executor self) w Hs)
        as (ex1 & -> & _).
      destruct (result_spec (_next_future (_executor self)) (Some t) ex1
                  (emit (EvSubmit (_next_future (_executor self))) w))
        as (k & Hk & _ & E2 & _).
      destruct (result _ (Some t) ex1 _) as [[r ex2] w2]. simpl in *.
      subst w2. rewrite ticks_now. simpl. lia.
Qed.

(** An operation that is submitted to a running pool is finished after a
    number of ticks that is at least its own duration and at most that and
    the work already in the pool. *)
Lemma completion_time_bounds self fn w :
  wf (_executor self) → _shutdown (_executor self) = false →
  ∃ n, completion_time self fn w = Some n
       ∧ Nat.max 1 (co_dur fn) ≤ n
       ∧ n ≤ backlog (_executor self) + Nat.max 1 (co_dur fn).
Proof.
  intros Hwf Hs. unfold completion_time.
  pose proof (backlog_submit (async_to_sync fn) (_executor self) w Hs) as Hb.
  destruct (submit_accepted (async_to_sync fn) (_executor self) w Hs)
    as (ex1 & E & Hres & _ & _ & _ & _ & _ & _ & _ & Hwf1).
  rewrite E in *. simpl in Hb. specialize (Hwf1 Hwf).
  set (f := _next_future (_executor self)) in *.
  set (w1 := emit (EvFutureResult f) (emit (EvSubmit f) w)).
  set (wi := {| wi_future := f; wi_fn := async_to_sync fn;
                wi_left := co_dur (async_to_sync fn) |}) in *.
  assert (Hin : wi ∈ resident ex1).
  { rewrite Hres. apply elem_of_app. right. by apply list_elem_of_singleton. }
  destruct (finish_time_total f (backlog ex1) ex1 w1) as [n Hn].
  { destruct (ticks_complete (backlog ex1) ex1 w1 wi Hwf1 Hin) as [s Hs'];
      [done|]. simpl in Hs'. by rewrite Hs'. }
  exists n. split; [done|].
  destruct (finish_time_spec _ _ _ _ _ Hn) as (Hle & Hno & Hyes).
  split; [|unfold async_to_sync in *; lia].
  destruct (decide (n < Nat.max 1 (co_dur fn))) as [Hlt|]; [|lia].
  destruct (ticks_tracked_left n ex1 w1 wi Hwf1 Hin Hlt)
    as (wi' & Hin' & Ef & _).
  destruct (ticks_wf n ex1 w1 Hwf1) as [_ _ _ _ _ W6 _].
  apply W6 in Hin' as [_ Hnone]. rewrite Ef in Hnone. simpl in Hnone.
  rewrite Hnone in Hyes. by destruct Hyes.
Qed.



Lemma join_idle b ex w : idle ex = true → join b ex w = (ex, w).
Proof. intros H. destruct b; simpl; by rewrite H. Qed.

(** C7. [shutdown] does not raise and is idempotent.  The call comes back
    when every work item the pool held has completed (none is cancelled),
    the worker threads are then released, and a second call changes
    nothing. *)
Theorem shutdown_waits_for_the_pool_and_is_idempotent self w :
  wf (_executor self) →
  let first := shutdown self w in
  first.1.1 = Done (Returns PNone)
  ∧ resident (_executor first.1.2) = []
  ∧ (∀ wi, wi ∈ resident (_executor self) →
       ∃ s, _futures (_executor first.1.2) !! wi_future wi
            = Some (fst (co_body (wi_fn wi) s)))
  ∧ _threads (_executor first.1.2) = 0
  ∧ _shutdown (_executor first.1.2) = true
  ∧ now first.2 ≤ now w + backlog (_executor self)
  ∧ shutdown first.1.2 first.2 = (Done (Returns PNone), first.1.2, first.2).
Proof.
  intros Hwf first. subst first. unfold shutdown.
  destruct (executor_shutdown_spec (_executor self) w Hwf)
    as (k & Hk & Hidle & ->).
  set (ex0 := {| _max_workers := _max_workers (_executor self);
                 _shutdown := true;
                 _work_queue := _work_queue (_executor self);
                 _running := _running (_executor self);
                 _threads := _threads (_executor self);
                 _futures := _futures (_executor self);
                 _next_future := _next_future (_executor self) |}) in *.
  assert (Hwf0 : wf ex0) by by destruct Hwf.
  destruct (ticks_frame k ex0 w) as (_ & Hsd & _).
  pose proof (ticks_now k ex0 w) as Hnow.
  pose proof (λ wi, ticks_tracked k ex0 w wi Hwf0) as Htr.
  destruct (ticks k ex0 w) as [ex1 w1]. simpl in *.
  unfold resident in Hidle. apply app_eq_nil in Hidle as [Hr Hq].
  split_and!; try done.
  - unfold resident. simpl. by rewrite Hr, Hq.
  - intros wi Hwi. destruct (Htr wi Hwi) as [(wi' & Hin' & _)|?]; [|done].
    unfold resident in Hin'. rewrite Hr, Hq in Hin'.
    by apply elem_of_nil in Hin'.
  - lia.
  - unfold executor_shutdown. simpl. rewrite Hsd.
    rewrite join_idle by (unfold idle; simpl; by rewrite Hr, Hq).
    unfold idle. simpl. by rewrite Hr, Hq.
Qed.

(** C6. A pool of one worker (the default) runs what is submitted to it
    one at a time and in the order of submission.  In every schedule of a
    pool made by the constructor with its default size, whoever submits
    and whenever: if A was submitted before B, then by the time B starts A
    has started and finished; and no two items are ever running at once. *)
Theorem pool_of_one_runs_in_submission_order
  (ctx : ThreadCtx) (w0 : World St) self w1 (ss : list (Step St)) ex w :
  __init__ default_max_workers ctx w0 = (Returns self, w1) →
  steps ss (_executor self) w1 = (ex, w) →
  length (_running ex) ≤ 1
  ∧ ∃ evs, log w = log w1 ++ evs
      ∧ ∀ a b p q r, evs = p ++ EvSubmit a :: q ++ EvSubmit b :: r →
          ∀ l1 l2, evs = l1 ++ EvStart b :: l2 →
            ∃ l1a l1b, l1 = l1a ++ EvFinish a :: l1b ∧ EvStart a ∈ l1a.
Proof.
  intros Hinit Hsteps.
  destruct (init_spec _ _ _ _ _ Hinit)
    as (_ & _ & _ & Hm & _ & Ht & Hr & Hq & _ & Hn & _).
  assert (H0 : serial (log w1) (_executor self) w1).
  { exists [], 0. unfold resident. rewrite Hm, Ht, Hr, Hq, Hn. simpl.
    split_and!; try done; try (intros; lia).
    - by rewrite app_nil_r.
    - intros wi Hwi. by apply elem_of_nil in Hwi.
    - intros a Ha. by apply elem_of_nil in Ha.
    - apply ordered_nil. }
  pose proof (serial_steps (log w1) ss _ _ H0) as H. rewrite Hsteps in H.
  destruct H as (evs & m & HL & HM & HT & HR & _ & _ & _ & _ & _ & O1 & O2 & O3).
  simpl in *. split; [lia|]. exists evs. split; [done|].
  intros a b p q r Hsub l1 l2 Hstart.
  assert (Hab : a < b).
  { rewrite app_comm_cons, app_assoc in Hsub. eapply O3; [exact Hsub|].
    apply elem_of_app. right. by left. }
  pose proof (O1 _ _ _ Hstart a Hab) as Hfin.
  apply list_elem_of_split in Hfin as (l1a & l1b & ->).
  exists l1a, l1b. split; [done|].
  rewrite <- app_assoc in Hstart. simpl in Hstart. by eapply O2.
Qed.


(** [run] with no timeout on a bridge whose pool is empty, from a caller
    that may call it: the operation acts on the state as it is and [run]
    ends as the operation does, on either path. *)
Lemma run_on_idle_pool self fn ctx w :
  wf (_executor self) → resident (_executor self) = [] → can_run self ctx →
  (run self fn None ctx w).1.1 = Done (fst (co_body fn (heap w)))
  ∧ heap (run self fn None ctx w).2 = snd (co_body fn (heap w))
  ∧ resident (_executor (run self fn None ctx w).1.2) = []
  ∧ can_run (run self fn None ctx w).1.2 ctx.
Proof.
  intros Hwf Hidle [(Hp & [l Hl] & ->)|(Hp & Hs)]; unfold run; rewrite Hp.
  - rewrite Hl. unfold run_until_complete.
    match goal with |- context [ticks ?n ?e ?v] =>
      destruct (ticks_idle n e v Hidle) as (E1 & E2 & _);
      destruct (ticks n e v) as [ex1 w1] end.
    simpl in *. subst ex1. rewrite E2.
    destruct (co_body fn (heap w)) as [o h]. simpl. split_and!; try done.
    left. simpl. by rewrite Hp, Hl.
  - destruct (submit_accepted (async_to_sync fn) (_executor self) w Hs)
      as (ex1 & -> & Hres & _ & _ & _ & _ & Hs1 & _ & _ & Hwf1).
    specialize (Hwf1 Hwf). rewrite Hidle in Hres. simpl in Hres.
    set (f := _next_future (_executor self)) in *.
    destruct (result_spec f None ex1 (emit (EvSubmit f) w))
      as (k & Hk & E1 & E2 & Hr).
    destruct (result f None ex1 (emit (EvSubmit f) w)) as [[r ex2] w2].
    simpl in *. subst ex2 w2.
    set (w1 := emit (EvFutureResult f) (emit (EvSubmit f) w)) in *.
    destruct (ticks_frame k ex1 w1) as (_ & Hsd & _).
    destruct (ticks_single k ex1 w1 _ Hwf1 Hres)
      as [(wi' & Hr' & Ef & _ & _)|(Hr' & Hf & Hh)]; simpl in *.
    + destruct (ticks_wf k ex1 w1 Hwf1) as [_ _ _ _ _ W6 _].
      destruct (W6 wi') as [_ Hnone]; [rewrite Hr'; by left|].
      rewrite Ef in Hnone. rewrite Hnone in Hr. destruct Hr as [-> _].
      assert (Hd : resident (ticks (backlog ex1) ex1 w1).1 = [])
        by by apply ticks_drain.
      by rewrite Hr' in Hd.
    + rewrite Hf in Hr. unfold async_to_sync in *. split_and!; try done.
      right. simpl. by rewrite Hsd, Hs1.
Qed.

End BridgeFacts.
End BridgeFacts.

(** * The client *)

Module ApiFacts.
Import Pool PoolFacts Bridge BridgeFacts Api.
Section ApiFacts.
Variable repr : PyVal → string.
Implicit Types (self : OpenEMSAPIClient) (s : Session) (m : Method).

Lemma to_APIError_classified {A} (args : list PyVal) s :
  @to_APIError repr A args s = (Raises (classified repr args), s).
Proof.
  unfold to_APIError, classified, isinstance_tuple, bind, lift, tuple_item.
  destruct args as [|c [|msg rest]]; simpl; done.
Qed.

Lemma classified_not_ProtocolError (args args' : list PyVal) :
  classified repr args ≠ ProtocolError args'.
Proof. unfold classified. by destruct args as [|c [|msg rest]]. Qed.

Lemma except_to_APIError {A} (m : M A) s :
  except_ProtocolError m (to_APIError repr) s
  = match m s with
    | (Raises (ProtocolError args), s') => (Raises (classified repr args), s')
    | r => r
    end.
Proof.
  unfold except_ProtocolError. destruct (m s) as [[a|e] s']; [done|].
  destruct e; try done. apply to_APIError_classified.
Qed.

Lemma login_cases self s :
  remote (login repr self s).2 = remote s
  ∧ uuid4 (login repr self s).2 = uuid4 s
  ∧ next_uuid (login repr self s).2 = next_uuid s
  ∧ if must_connect (_server s) then
      next_server (login repr self s).2 = S (next_server s)
      ∧ match on_ws_connect (remote s) with
        | Some e =>
            (login repr self s).1 = Raises e
            ∧ _server (login repr self s).2 = _server s
            ∧ sent (login repr self s).2
              = sent s ++ [ReqConnect (server_url self)]
        | None =>
            sent (login repr self s).2
            = sent s ++ [ReqConnect (server_url self);
                         ReqAuthenticate (username self) (password self)]
            ∧ match on_authenticateWithPassword (remote s) with
              | Returns _ =>
                  (login repr self s).1 = Returns (Some (fresh_handle self s))
                  ∧ _server (login repr self s).2
                    = Some (fresh_handle self s)
              | Raises e =>
                  (login repr self s).1
                  = Raises match e with
                           | ProtocolError args => classified repr args
                           | _ => e
                           end
                  ∧ _server (login repr self s).2 = _server s
              end
        end
    else login repr self s = (Returns (_server s), s).
Proof.
  unfold login, bind, get_server. simpl.
  destruct (must_connect (_server s)) eqn:Hm; [|done].
  unfold ws_connect, new_Server, bind, send, get_remote. simpl.
  destruct (on_ws_connect (remote s)) as [e|] eqn:Hc; simpl.
  { split_and!; done. }
  rewrite except_to_APIError.
  unfold authenticateWithPassword, bind, send, get_remote, lift. simpl.
  destruct (on_authenticateWithPassword (remote s)) as [v|e] eqn:Ha; simpl.
  - unfold fresh_handle. rewrite <- app_assoc. split_and!; done.
  - destruct e; simpl; rewrite <- app_assoc; split_and!; done.
Qed.

(** *** No [ProtocolError] comes out of a coroutine of the client *)

Lemma keeps_remote_bind {A B} (m : M A) (k : A → M B) :
  keeps_remote m → (∀ a, keeps_remote (k a)) → keeps_remote (bind m k).
Proof.
  intros Hm Hk s. unfold bind. specialize (Hm s).
  destruct (m s) as [[a|e] s1]; simpl in *; [|done].
  by rewrite Hk.
Qed.

Lemma keeps_remote_lift {A} (r : Res A) : keeps_remote (lift r).
Proof. done. Qed.

Lemma keeps_remote_send q : keeps_remote (send q).
Proof. done. Qed.

Lemma keeps_remote_get_remote : keeps_remote get_remote.
Proof. done. Qed.

Lemma keeps_remote_new_uuid : keeps_remote new_uuid.
Proof. done. Qed.

Lemma keeps_remote_on_handle {A} server method (m : M A) :
  keeps_remote m → keeps_remote (on_handle server method m).
Proof. intros H. by destruct server. Qed.

Lemma keeps_remote_getEdges server page limit answer :
  keeps_remote (getEdges server page limit answer).
Proof.
  apply keeps_remote_on_handle, keeps_remote_bind; [apply keeps_remote_send|].
  intros _. apply keeps_remote_lift.
Qed.

Lemma keeps_remote_edgeRpc server edge_id payload :
  keeps_remote (edgeRpc server edge_id payload).
Proof.
  apply keeps_remote_on_handle, keeps_remote_bind; [apply keeps_remote_send|].
  intros _. apply keeps_remote_bind; [apply keeps_remote_get_remote|].
  intros r. apply keeps_remote_lift.
Qed.

Lemma shielded_ret {A} (a : A) : shielded (ret a).
Proof. by intros s _. Qed.

Lemma shielded_get_remote : shielded get_remote.
Proof. by intros s _. Qed.

Lemma shielded_lift {A} (r : Res A) : no_ProtocolError r → shielded (lift r).
Proof. by intros H s _. Qed.

Lemma shielded_bind {A B} (m : M A) (k : A → M B) :
  shielded m → (∀ a, shielded (k a)) → shielded (bind m k).
Proof.
  intros Hm Hk s Hs. unfold bind. destruct (Hm s Hs) as [Hno Hr].
  destruct (m s) as [[a|e] s1]; simpl in *.
  - destruct (Hk a s1) as [Hno' Hr']; [by rewrite Hr|].
    split; [done|congruence].
  - split; [|done]. intros args [= ->]. by eapply Hno.
Qed.

Lemma shielded_except {A} (m : M A) :
  keeps_remote m → shielded (except_ProtocolError m (to_APIError repr)).
Proof.
  intros Hm s _. rewrite except_to_APIError. specialize (Hm s).
  destruct (m s) as [[a|e] s1]; simpl in *; [done|].
  destruct e; simpl; split; try done.
  intros args' [= H]. by eapply classified_not_ProtocolError.
Qed.

Lemma getitem_no_ProtocolError v key : no_ProtocolError (getitem v key).
Proof.
  intros args. unfold getitem. destruct v; try done.
  by destruct (dict_get items key).
Qed.

Lemma iterate_no_ProtocolError v : no_ProtocolError (iterate v).
Proof. intros args. by destruct v. Qed.

Lemma len_no_ProtocolError v : no_ProtocolError (len v).
Proof. intros args. by destruct v. Qed.

Lemma shielded_payload_result r : shielded (payload_result r).
Proof.
  apply shielded_bind; [apply shielded_lift, getitem_no_ProtocolError|].
  intros payload. apply shielded_lift, getitem_no_ProtocolError.
Qed.

Lemma shielded_login self : shielded (login repr self).
Proof.
  intros s Hs. destruct (login_cases self s) as (Hr & _ & _ & Hcases).
  split; [|done]. intros args Hpe.
  destruct (must_connect (_server s)).
  - destruct Hcases as (_ & Hc).
    destruct (on_ws_connect (remote s)) as [e|] eqn:Hw.
    + destruct Hc as (He & _). rewrite He in Hpe. injection Hpe as ->.
      by eapply Hs.
    + destruct Hc as (_ & Ha).
      destruct (on_authenticateWithPassword (remote s)) as [v|e];
        destruct Ha as (He & _); rewrite He in Hpe; [done|].
      injection Hpe as Hpe. destruct e; try done.
      by eapply classified_not_ProtocolError.
  - by rewrite Hcases in Hpe.
Qed.

Lemma shielded_get_edges_page server page limit edges answer :
  shielded (get_edges_page repr server page limit edges answer).
Proof.
  unfold get_edges_page.
  apply shielded_bind; [apply shielded_except, keeps_remote_getEdges|].
  intros r. apply shielded_bind;
    [apply shielded_lift, getitem_no_ProtocolError|].
  intros es. apply shielded_bind;
    [apply shielded_lift, iterate_no_ProtocolError|].
  intros new. apply shielded_bind;
    [apply shielded_lift, getitem_no_ProtocolError|].
  intros es'. apply shielded_bind;
    [apply shielded_lift, len_no_ProtocolError|].
  intros n. apply shielded_ret.
Qed.

Lemma shielded_get_edges_loop server answers page limit edges :
  shielded (get_edges_loop repr server answers page limit edges).
Proof.
  revert page edges. induction answers as [|answer rest IH];
    intros page edges; simpl.
  - apply shielded_bind; [apply shielded_get_edges_page|].
    intros turn. apply shielded_ret.
  - apply shielded_bind; [apply shielded_get_edges_page|].
    intros turn. destruct (fst turn); [apply shielded_ret|apply IH].
Qed.

Lemma shielded_coroutine_of self m : shielded (coroutine_of repr self m).
Proof.
  destruct m; simpl.
  - unfold get_edges_f. apply shielded_bind; [apply shielded_login|].
    intros server. apply shielded_bind; [apply shielded_get_remote|].
    intros r. apply shielded_get_edges_loop.
  - unfold get_edge_config_f. apply shielded_bind; [apply shielded_login|].
    intros server. apply shielded_bind; [|apply shielded_payload_result].
    apply shielded_except, keeps_remote_bind; [apply keeps_remote_new_uuid|].
    intros id. apply keeps_remote_edgeRpc.
  - unfold get_channels_of_component_f.
    apply shielded_bind; [apply shielded_login|].
    intros server. apply shielded_bind; [|apply shielded_payload_result].
    apply shielded_except, keeps_remote_bind; [apply keeps_remote_new_uuid|].
    intros inner_id. apply keeps_remote_bind; [apply keeps_remote_new_uuid|].
    intros id. apply keeps_remote_edgeRpc.
  - unfold update_component_config_f.
    apply shielded_bind; [apply shielded_login|].
    intros server. apply shielded_bind; [|apply shielded_payload_result].
    apply shielded_except, keeps_remote_bind; [apply keeps_remote_new_uuid|].
    intros id. apply keeps_remote_edgeRpc.
  - unfold update_component_config_f.
    apply shielded_bind; [apply shielded_login|].
    intros server. apply shielded_bind; [|apply shielded_payload_result].
    apply shielded_except, keeps_remote_bind; [apply keeps_remote_new_uuid|].
    intros id. apply keeps_remote_edgeRpc.
Qed.

(** *** A [ProtocolError] with a code and a message comes out as [APIError] *)

Lemma bind_raises {A B} (m : M A) (k : A → M B) s e :
  (m s).1 = Raises e → (bind m k s).1 = Raises e.
Proof. unfold bind. destruct (m s) as [[a|e'] s1]; simpl; congruence. Qed.




Lemma edgeRpc_raises srv edge_id payload s e :
  (∀ p, on_edgeRpc (remote s) edge_id p = Raises e) →
  (edgeRpc (Some srv) edge_id payload s).1 = Raises e.
Proof.
  intros H. unfold edgeRpc, on_handle, bind, send, get_remote, lift. simpl.
  by rewrite H.
Qed.

Lemma new_uuid_then {B} (k : PyVal → M B) s e :
  (∀ id s0, remote s0 = remote s → (k id s0).1 = Raises e) →
  (bind new_uuid k s).1 = Raises e.
Proof. intros H. unfold bind, new_uuid. simpl. by apply H. Qed.


(** C8. The client keeps one authenticated handle.  [login] returns the
    stored handle, and sends nothing, exactly when there is one, it has a
    [connected] attribute and that is true; otherwise it connects and
    authenticates a new handle, and on success stores and returns it. *)
Theorem login_reuses_a_connected_handle_and_connects_otherwise self s :
  (must_connect (_server s) = false
   ↔ ∃ srv, _server s = Some srv ∧ srv_connected srv = Some true)
  ∧ (must_connect (_server s) = false
     ↔ sent (login repr self s).2 = sent s)
  ∧ (must_connect (_server s) = false →
     login repr self s = (Returns (_server s), s))
  ∧ (must_connect (_server s) = true →
     (∃ rest, sent (login repr self s).2
              = sent s ++ ReqConnect (server_url self) :: rest)
     ∧ (on_ws_connect (remote s) = None →
        sent (login repr self s).2
        = sent s ++ [ReqConnect (server_url self);
                     ReqAuthenticate (username self) (password self)])
     ∧ (on_ws_connect (remote s) = None →
        ∀ v, on_authenticateWithPassword (remote s) = Returns v →
        (login repr self s).1 = Returns (Some (fresh_handle self s)))
     ∧ (∀ h, (login repr self s).1 = Returns h →
        h = Some (fresh_handle self s)
        ∧ _server (login repr self s).2 = Some (fresh_handle self s))).
Proof.
  destruct (login_cases self s) as (_ & _ & _ & Hcases).
  split_and!.
  - unfold must_connect. destruct (_server s) as [srv|]; [|split; [done|]].
    + destruct (srv_connected srv) as [[|]|] eqn:Ec; simpl; split; try done.
      * intros _. by exists srv.
      * intros (? & [= <-] & ?). congruence.
      * intros (? & [= <-] & ?). congruence.
    + by intros (? & ? & _).
  - destruct (must_connect (_server s)).
    + destruct Hcases as (_ & Hc). split; [done|]. intros Hsent. exfalso.
      assert (Hlen : length (sent (login repr self s).2) = length (sent s))
        by by rewrite Hsent.
      destruct (on_ws_connect (remote s)).
      * destruct Hc as (_ & _ & Hs). rewrite Hs, length_app in Hlen.
        simpl in Hlen. lia.
      * destruct Hc as (Hs & _). rewrite Hs, length_app in Hlen.
        simpl in Hlen. lia.
    + by rewrite Hcases.
  - intros Hm. by rewrite Hm in Hcases.
  - intros Hm. rewrite Hm in Hcases. destruct Hcases as (_ & Hc).
    destruct (on_ws_connect (remote s)) as [e|].
    + destruct Hc as (Hr & _ & Hs). split_and!; try done.
      * by exists [].
      * intros h Hh. congruence.
    + destruct Hc as (Hs & Ha). split_and!; try done.
      * by eexists [_].
      * intros _ v Hv. rewrite Hv in Ha. by destruct Ha.
      * intros h Hh.
        destruct (on_authenticateWithPassword (remote s)) as [v|e].
        -- destruct Ha as (Hr & Hst). split; congruence.
        -- destruct Ha as (Hr & _). congruence.
Qed.

(** C10. A [login] that fails, in connecting or in authenticating, leaves
    the cached handle as it was: the handle it made is not stored.  The
    next [login] therefore connects and authenticates again. *)
Theorem failed_login_leaves_the_cached_handle_as_it_was self s e s' :
  login repr self s = (Raises e, s') →
  _server s' = _server s
  ∧ must_connect (_server s') = true
  ∧ next_server s' = S (next_server s)
  ∧ (∃ rest, sent (login repr self s').2
             = sent s' ++ ReqConnect (server_url self) :: rest)
  ∧ (on_ws_connect (remote s') = None →
     sent (login repr self s').2
     = sent s' ++ [ReqConnect (server_url self);
                   ReqAuthenticate (username self) (password self)]).
Proof.
  intros Hl. destruct (login_cases self s) as (_ & _ & _ & Hcases).
  rewrite Hl in Hcases. simpl in Hcases.
  destruct (must_connect (_server s)) eqn:Hm; [|done].
  destruct Hcases as (Hn & Hc).
  assert (Hsame : _server s' = _server s).
  { destruct (on_ws_connect (remote s)); [by destruct Hc as (_ & ? & _)|].
    destruct Hc as (_ & Ha).
    destruct (on_authenticateWithPassword (remote s)); by destruct Ha. }
  assert (Hm' : must_connect (_server s') = true) by by rewrite Hsame.
  destruct (login_cases self s') as (_ & _ & _ & Hnext).
  rewrite Hm' in Hnext. destruct Hnext as (_ & Hnext).
  split_and!; try done.
  - destruct (on_ws_connect (remote s')).
    + destruct Hnext as (_ & _ & Hs). by exists [].
    + destruct Hnext as (Hs & _). by eexists [_].
  - intros Hc'. rewrite Hc' in Hnext. by destruct Hnext.
Qed.

Lemma call_is_bridge_run self m :
  call repr self m = bridge_run self (coroutine_of repr self m).
Proof. by destruct m. Qed.

Lemma call_result self m (ctx : ThreadCtx) (w : World Session) :
  wf (_executor (_bridge self)) →
  resident (_executor (_bridge self)) = [] →
  can_run (_bridge self) ctx →
  (call repr self m ctx w).1.1
  = Done (fst (coroutine_of repr self m (heap w))).
Proof.
  intros Hwf Hidle Hcan. rewrite call_is_bridge_run. unfold bridge_run.
  match goal with |- context [run ?b ?c None ctx w] =>
    destruct (run_on_idle_pool b c ctx w Hwf Hidle Hcan) as (Hr & _);
    destruct (run b c None ctx w) as [[r b'] w'] end.
  exact Hr.
Qed.

(** A [ProtocolError] raised in authentication or in the call does not
    come out of a public method as a [ProtocolError]: the handler turns it
    into an [APIError], or fails on it with [IndexError] when its [args]
    are fewer than two. *)
Lemma no_ProtocolError_reaches_the_caller
  self m (ctx : ThreadCtx) (w : World Session) :
  wf (_executor (_bridge self)) →
  resident (_executor (_bridge self)) = [] →
  can_run (_bridge self) ctx →
  connects_cleanly (remote (heap w)) →
  ∀ args, (call repr self m ctx w).1.1 ≠ Done (Raises (ProtocolError args)).
Proof.
  intros Hwf Hidle Hcan Hclean args.
  rewrite (call_result self m ctx w Hwf Hidle Hcan). intros [= Hpe].
  destruct (shielded_coroutine_of self m (heap w) Hclean) as [Hno _].
  by eapply Hno.
Qed.

(** The client that [OpenEMSAPIClient(...)] makes has a well-formed, empty
    pool, and a public method leaves it so. *)
Lemma new_client_is_ready url user pass (ctx : ThreadCtx)
  (w : World Session) self w1 :
  Api.__init__ url user pass ctx w = (Returns self, w1) →
  wf (_executor (_bridge self))
  ∧ resident (_executor (_bridge self)) = []
  ∧ (isinloop ctx = true → can_run (_bridge self) ctx)
  ∧ (isinloop ctx = false → can_run (_bridge self) None)
  ∧ _server (heap w1) = None.
Proof.
  unfold Api.__init__.
  destruct (Bridge.__init__ _ _ _) as [[b|e] w2] eqn:Hb; [|done].
  intros [= <- <-]. simpl.
  pose proof (init_wf _ _ _ _ _ Hb) as Hwf.
  destruct (init_spec _ _ _ _ _ Hb)
    as (Hp & Hl & _ & _ & Hs & _ & Hr & Hq & _ & _ & Hh & _).
  split_and!; try done.
  - unfold resident. by rewrite Hr, Hq.
  - intros Hc. right. by rewrite Hp.
  - intros Hc. left. rewrite Hp, Hl, Hc. split_and!; first [done|by eexists].
  - by rewrite Hh.
Qed.

Lemma call_keeps_ready self m (ctx : ThreadCtx) (w : World Session) :
  wf (_executor (_bridge self)) →
  resident (_executor (_bridge self)) = [] →
  can_run (_bridge self) ctx →
  wf (_executor (_bridge (call repr self m ctx w).1.2))
  ∧ resident (_executor (_bridge (call repr self m ctx w).1.2)) = []
  ∧ can_run (_bridge (call repr self m ctx w).1.2) ctx.
Proof.
  intros Hwf Hidle Hcan. rewrite call_is_bridge_run. unfold bridge_run.
  match goal with |- context [run ?b ?c None ctx w] =>
    destruct (run_on_idle_pool b c ctx w Hwf Hidle Hcan) as (_ & _ & Hi & Hc);
    destruct (run_spec b c None ctx w) as (_ & _ & Hw & _);
    destruct (run b c None ctx w) as [[r b'] w'] end.
  simpl in *. split_and!; try done. by apply Hw.
Qed.


End ApiFacts.
End ApiFacts.

(** * The bridge over its lifetime *)

Module LifecycleFacts.
Import Pool PoolFacts SerialFacts Bridge BridgeFacts.
Section LifecycleFacts.
Context {St : Type}.
Implicit Types (ex : ThreadPoolExecutor St) (w : World St) (wi : WorkItem St).
Implicit Types (fn : Coroutine St) (self : ASGIRefBridge St).

Lemma set_executor_same self : set_executor (_executor self) self = self.
Proof. by destruct self. Qed.

Lemma run_on_the_loop_path_ignores_the_timeout self fn t1 t2 ctx w :
  isinparentloop self = false →
  run self fn t1 ctx w = run self fn t2 ctx w.
Proof. intros Hp. unfold run. by rewrite Hp. Qed.

(** X1. [ASGIRefBridge(max_workers)] needs a positive number of workers.
    With zero or fewer the constructor of the pool raises [ValueError], and
    since the pool is made first, nothing else has happened by then: no
    loop was made, none was set as the thread's loop.  With one or more the
    bridge is made, with a pool of that size that has no thread yet. *)
Theorem construction_needs_a_positive_number_of_workers
  (max_workers : Z) (ctx : ThreadCtx) w :
  ((max_workers ≤ 0)%Z →
     __init__ max_workers ctx w
     = (Raises (ValueError "max_workers must be greater than 0"), w))
  ∧ ((0 < max_workers)%Z →
     ∃ self w1, __init__ max_workers ctx w = (Returns self, w1)
       ∧ _max_workers (_executor self) = Z.to_nat max_workers
       ∧ _threads (_executor self) = 0
       ∧ resident (_executor self) = []).
Proof.
  unfold __init__, new_executor. split; intros Hmw.
  - by rewrite decide_True.
  - rewrite decide_False by lia.
    destruct (negb (isinloop ctx)); by eexists _, _.
Qed.

(** X2. The thread that calls [run] matters on the loop path only.  A
    bridge built inside a loop serves every caller alike.  A bridge built
    outside a loop refuses a caller whose thread runs a loop: its
    [run_until_complete] raises [RuntimeError], the operation is not run
    and the pool is not touched. *)
Theorem loop_path_refuses_a_caller_that_runs_a_loop
  self fn (timeout : option nat) w :
  (isinparentloop self = true →
     ∀ ctx1 ctx2 : ThreadCtx,
       run self fn timeout ctx1 w = run self fn timeout ctx2 w)
  ∧ (isinparentloop self = false →
     ∀ l cur, loop self = Some l →
       ∃ msg, run self fn timeout (Some cur) w
              = (Done (Raises (RuntimeError msg)), self,
                 emit (EvRunUntilComplete l) w)).
Proof.
  split; intros Hp.
  - intros ctx1 ctx2. unfold run. by rewrite Hp.
  - intros l cur Hl. unfold run, run_until_complete. rewrite Hp, Hl.
    destruct (bool_decide (loop_id cur = l) && is_running cur);
      eexists; by rewrite set_executor_same.
Qed.

(** X3. [run] after [shutdown].  On a bridge built inside a loop the pool
    refuses the submission: [run] raises [RuntimeError] at once, whatever
    the timeout, and the operation is never run.  On a bridge built outside
    a loop [run] does not use the pool, and works after [shutdown] as it
    did before: the operation acts on the state and [run] ends as it
    does. *)
Theorem run_after_shutdown self fn (timeout : option nat) (ctx : ThreadCtx) w :
  wf (_executor self) →
  let closed := shutdown self w in
  (isinparentloop self = true →
     run closed.1.2 fn timeout ctx closed.2
     = (Done (Raises (RuntimeError
          "cannot schedule new futures after shutdown")),
        closed.1.2, emit EvSubmitRefused closed.2))
  ∧ (isinparentloop self = false → is_Some (loop self) → ctx = None →
     (run closed.1.2 fn timeout ctx closed.2).1.1
     = Done (fst (co_body fn (heap closed.2)))
     ∧ heap (run closed.1.2 fn timeout ctx closed.2).2
       = snd (co_body fn (heap closed.2))).
Proof.
  intros Hwf closed.
  destruct (shutdown_spec self w) as (Hp & Hl & Hwf' & _).
  specialize (Hwf' Hwf). fold closed in Hp, Hl, Hwf'.
  assert (Hclosed : _shutdown (_executor closed.1.2) = true
                    ∧ resident (_executor closed.1.2) = []).
  { subst closed. unfold shutdown.
    destruct (executor_shutdown_spec (_executor self) w Hwf)
      as (k & _ & Hidle & ->). simpl.
    match goal with |- context [ticks k ?e w] =>
      destruct (ticks_frame k e w) as (_ & Hsd & _) end.
    split; [done|]. unfold resident in *. simpl. done. }
  destruct Hclosed as [Hsd Hidle].
  split.
  - intros Hpool. unfold run. rewrite Hp, Hpool.
    rewrite submit_refused by done. by rewrite set_executor_same.
  - intros Hloop Hsome ->.
    rewrite (run_on_the_loop_path_ignores_the_timeout _ fn timeout None)
      by congruence.
    destruct (run_on_idle_pool closed.1.2 fn None closed.2 Hwf' Hidle)
      as (H1 & H2 & _); [|done].
    left. split_and!; [congruence|by rewrite Hl|done].
Qed.

(** X4. Every bridge built outside a running loop makes a loop of its own
    and sets it as the thread's loop, so the bridge built last is the one
    whose loop the thread has; a bridge built earlier keeps running its
    operations on its own loop. *)
Theorem bridges_built_outside_a_loop_own_their_loops
  (mw1 mw2 : Z) (ctx1 ctx2 : ThreadCtx) (w0 : World St) b1 w1
  (us : list (Use St)) b1' w2 b2 w3 :
  __init__ mw1 ctx1 w0 = (Returns b1, w1) →
  uses us b1 w1 = (b1', w2) →
  __init__ mw2 ctx2 w2 = (Returns b2, w3) →
  isinloop ctx1 = false → isinloop ctx2 = false →
  ∃ l1 l2, loop b1' = Some l1 ∧ loop b2 = Some l2 ∧ l1 < l2
    ∧ last (log w3) = Some (EvSetEventLoop l2)
    ∧ ∀ fn timeout (ctx : ThreadCtx),
        ∃ evs, log (run b1' fn timeout ctx w3).2 = log w3 ++ evs
          ∧ List.filter caller_event evs = [EvRunUntilComplete l1].
Proof.
  intros Hi1 Hu Hi2 Hc1 Hc2.
  destruct (init_spec _ _ _ _ _ Hi1)
    as (Hp1 & Hl1 & _ & _ & _ & _ & _ & _ & _ & _ & _ & _ & Hn1 & _).
  destruct (init_spec _ _ _ _ _ Hi2)
    as (_ & Hl2 & _ & _ & _ & _ & _ & _ & _ & _ & _ & _ & _ & Hlog2).
  destruct (uses_spec us b1 w1) as (Hp & Hl & _ & Hn & _).
  rewrite Hu in Hp, Hl, Hn. simpl in *.
  rewrite Hc1 in *. rewrite Hc2 in *.
  exists (next_loop w0), (next_loop w2). split_and!.
  - congruence.
  - done.
  - lia.
  - rewrite Hlog2.
    by rewrite last_app.
  - intros fn timeout ctx.
    destruct (run_spec b1' fn timeout ctx w3)
      as (_ & _ & _ & _ & evs & Hlog & _ & Hroute).
    exists evs. split; [done|]. rewrite Hroute.
    replace (isinparentloop b1') with false by congruence.
    by rewrite Hl, Hl1.
Qed.

(** *** The size of the pool *)








(** *** The order in which work starts *)







(** *** One worker: the calls of the bridge are serial schedules *)

Lemma serial_emit base e ex w :
  (∀ f, e ≠ EvStart f) → (∀ f, e ≠ EvFinish f) → (∀ f, e ≠ EvSubmit f) →
  serial base ex w → serial base ex (emit e w).
Proof.
  intros N1 N2 N3
    (evs & m & HL & HM & HT & HR & Hseq & Hnext & Hfin & Hrun & Hsub & Hord).
  exists (evs ++ [e]), m. split_and!; try done.
  - simpl; by rewrite HL, <- app_assoc.
  - intros a Ha. apply elem_of_app. left. by apply Hfin.
  - intros wi Hwi. apply elem_of_app. left. by apply Hrun.
  - intros a [Ha|Ha%list_elem_of_singleton]%elem_of_app; [by apply Hsub|].
    by destruct (N3 a).
  - apply ordered_snoc; [done|..]; intros b ->.
    + by destruct (N1 b).
    + by destruct (N2 b).
    + by destruct (N3 b).
Qed.

Lemma serial_set_heap base (h : St) ex w :
  serial base ex w → serial base ex (set_heap h w).
Proof. intros (evs & m & H). by exists evs, m. Qed.

Lemma serial_tick base ex w :
  serial base ex w → serial base (tick ex w).1 (tick ex w).2.
Proof. intros H. rewrite tick_as_steps. by apply serial_steps. Qed.

Lemma serial_ticks base n ex w :
  serial base ex w → serial base (ticks n ex w).1 (ticks n ex w).2.
Proof.
  revert ex w. induction n as [|n IH]; intros ex w H; [done|].
  rewrite ticks_S. by apply IH, serial_tick.
Qed.

Lemma serial_run base self fn timeout ctx w :
  serial base (_executor self) w →
  serial base (_executor (run self fn timeout ctx w).1.2)
    (run self fn timeout ctx w).2.
Proof.
  intros H. unfold run. destruct (isinparentloop self).
  - pose proof (serial_submit base (async_to_sync fn) (_executor self) w H)
      as Hs.
    destruct (submit (async_to_sync fn) (_executor self) w)
      as [[[f|e] ex1] w1]; simpl in *; [|done].
    destruct (result_spec f timeout ex1 w1) as (k & _ & E1 & E2 & _).
    destruct (result f timeout ex1 w1) as [[r ex2] w2]. simpl in *. subst.
    by apply serial_ticks, serial_emit.
  - destruct (loop self) as [l|]; [|done].
    unfold run_until_complete. destruct ctx as [cur|].
    + destruct (bool_decide (loop_id cur = l) && is_running cur); simpl;
        by apply serial_emit.
    + match goal with |- context [ticks ?n ?e ?v] =>
        pose proof (serial_ticks base n e v) as Ht;
        destruct (ticks n e v) as [ex1 w1] end.
      destruct (co_body fn (heap w1)) as [o h]. simpl in *.
      by apply serial_set_heap, Ht, serial_emit.
Qed.

Lemma serial_shutdown base self w :
  serial base (_executor self) w →
  serial base (_executor (shutdown self w).1.2) (shutdown self w).2.
Proof.
  intros H. unfold shutdown, executor_shutdown.
  match goal with |- context [join ?b ?e w] =>
    set (ex0 := e);
    destruct (join_as_ticks (backlog ex0) ex0 w) as (k & _ & Ej & _);
    rewrite Ej;
    pose proof (serial_ticks base k ex0 w) as Ht;
    destruct (ticks k ex0 w) as [ex1 w1] end.
  assert (H0 : serial base ex0 w).
  { destruct H as (evs & m & H). by exists evs, m. }
  specialize (Ht H0). simpl in *.
  destruct (idle ex1) eqn:Hi; simpl; [|done].
  apply idle_resident in Hi.
  destruct Ht
    as (evs & m & HL & HM & HT & HR & Hseq & Hnext & Hfin & Hrun & Hsub & Hord).
  exists evs, m. unfold resident in *. simpl in *.
  apply app_eq_nil in Hi as [Hr Hq]. rewrite Hr, Hq in *.
  split_and!; try done; simpl; lia.
Qed.

Lemma serial_uses base (us : list (Use St)) self w :
  serial base (_executor self) w →
  serial base (_executor (uses us self w).1) (uses us self w).2.
Proof.
  revert self w. induction us as [|u us IH]; intros self w H; simpl; [done|].
  assert (Hu : serial base (_executor (use u self w).1) (use u self w).2).
  { destruct u as [fn timeout ctx| |n]; simpl.
    - pose proof (serial_run base self fn timeout ctx w H) as H'.
      by destruct (run self fn timeout ctx w) as [[r self'] w'].
    - pose proof (serial_shutdown base self w H) as H'.
      by destruct (shutdown self w) as [[r self'] w'].
    - pose proof (serial_ticks base n (_executor self) w H) as H'.
      by destruct (ticks n (_executor self) w) as [ex1 w1]. }
  destruct (use u self w) as [self1 w1]. by apply IH.
Qed.

Lemma serial_of_new_bridge (ctx : ThreadCtx) (w0 : World St) self w1 :
  __init__ default_max_workers ctx w0 = (Returns self, w1) →
  serial (log w1) (_executor self) w1.
Proof.
  intros Hinit.
  destruct (init_spec _ _ _ _ _ Hinit)
    as (_ & _ & _ & Hm & _ & Ht & Hr & Hq & _ & Hn & _).
  exists [], 0. unfold resident. rewrite Hm, Ht, Hr, Hq, Hn. simpl.
  split_and!; try done; try (intros; lia).
  - by rewrite app_nil_r.
  - intros wi Hwi. by apply elem_of_nil in Hwi.
  - intros a Ha. by apply elem_of_nil in Ha.
  - apply ordered_nil.
Qed.

(** X7. The calls of a bridge with the default pool of one worker are
    served one after another.  Whatever the owner does with the bridge
    ([run] with or without a timeout, from any thread, [shutdown], waiting):
    an operation submitted after another starts only when that one has
    started and finished.  So an operation whose caller timed out still
    holds the worker, and the operations of later calls wait for it; and
    at no time are two operations running. *)
Theorem default_bridge_serves_its_calls_one_after_another
  (ctx0 : ThreadCtx) (w0 : World St) self0 w1 (us : list (Use St)) self w :
  __init__ default_max_workers ctx0 w0 = (Returns self0, w1) →
  uses us self0 w1 = (self, w) →
  length (_running (_executor self)) ≤ 1
  ∧ ∃ evs, log w = log w1 ++ evs
      ∧ ∀ a b p q r, evs = p ++ EvSubmit a :: q ++ EvSubmit b :: r →
          ∀ l1 l2, evs = l1 ++ EvStart b :: l2 →
            ∃ l1a l1b, l1 = l1a ++ EvFinish a :: l1b ∧ EvStart a ∈ l1a.
Proof.
  intros Hinit Huses.
  pose proof (serial_uses (log w1) us _ _ (serial_of_new_bridge _ _ _ _ Hinit))
    as H.
  rewrite Huses in H.
  destruct H as (evs & m & HL & HM & HT & HR & _ & _ & _ & _ & _ & O1 & O2 & O3).
  simpl in *. split; [lia|]. exists evs. split; [done|].
  intros a b p q r Hsub l1 l2 Hstart.
  assert (Hab : a < b).
  { rewrite app_comm_cons, app_assoc in Hsub. eapply O3; [exact Hsub|].
    apply elem_of_app. right. by left. }
  pose proof (O1 _ _ _ Hstart a Hab) as Hfin.
  apply list_elem_of_split in Hfin as (l1a & l1b & ->).
  exists l1a, l1b. split; [done|].
  rewrite <- app_assoc in Hstart. simpl in Hstart. by eapply O2.
Qed.

End LifecycleFacts.
End LifecycleFacts.

(** * The public methods of the client *)

Module SessionFacts.
Import Pool PoolFacts Bridge BridgeFacts Api ApiFacts.
Section SessionFacts.
Variable repr : PyVal → string.
Variable DataFrame_by_time : PyVal → PyVal → Outcome.
Implicit Types (self : OpenEMSAPIClient) (s : Session) (c : PublicCall).
Implicit Types (ctx : ThreadCtx) (w : World Session).

Abbreviation perform := (Api.perform repr DataFrame_by_time).
Abbreviation performs := (Api.performs repr DataFrame_by_time).
Abbreviation coroutine_behind := (Api.coroutine_behind repr DataFrame_by_time).

(** *** A public method is its coroutine, run at once *)

Lemma bridge_run_ready self (f : M PyVal) ctx w :
  ready self ctx →
  (bridge_run self f ctx w).1.1 = Done (f (heap w)).1
  ∧ heap (bridge_run self f ctx w).2 = (f (heap w)).2
  ∧ ready (bridge_run self f ctx w).1.2 ctx
  ∧ server_url (bridge_run self f ctx w).1.2 = server_url self
  ∧ username (bridge_run self f ctx w).1.2 = username self
  ∧ password (bridge_run self f ctx w).1.2 = password self.
Proof.
  intros (Hwf & Hidle & Hcan). unfold bridge_run.
  match goal with |- context [run ?b ?c None ctx w] =>
    destruct (run_on_idle_pool b c ctx w Hwf Hidle Hcan)
      as (Hr & Hh & Hi & Hc);
    destruct (run_spec b c None ctx w) as (_ & _ & Hw & _);
    destruct (run b c None ctx w) as [[r b'] w'] end.
  unfold ready. simpl in *. split_and!; try done. by apply Hw.
Qed.

Lemma finish_raises c e : finish c (Raises e) = Raises e.
Proof. by destruct c. Qed.

Lemma perform_spec self c ctx w :
  ready self ctx →
  (perform self c ctx w).1.1
  = Done (finish c (coroutine_behind self c (heap w)).1)
  ∧ heap (perform self c ctx w).2 = (coroutine_behind self c (heap w)).2
  ∧ ready (perform self c ctx w).1.2 ctx
  ∧ server_url (perform self c ctx w).1.2 = server_url self
  ∧ username (perform self c ctx w).1.2 = username self
  ∧ password (perform self c ctx w).1.2 = password self.
Proof.
  intros Hready.
  destruct c as [m|edge_id|edge_id|edge_id start end_ channels resolution_sec
                |edge_id start end_ channels component_id resolution_sec];
    simpl.
  - rewrite call_is_bridge_run. by apply bridge_run_ready.
  - unfold get_meter_list, get_edge_config.
    pose proof (bridge_run_ready self (get_edge_config_f repr self edge_id)
                  ctx w Hready) as H.
    destruct (bridge_run self _ ctx w) as [[r self'] w']. simpl in *.
    destruct H as (-> & H).
    by destruct ((get_edge_config_f repr self edge_id (heap w)).1).
  - unfold get_pvinverter_list, get_edge_config.
    pose proof (bridge_run_ready self (get_edge_config_f repr self edge_id)
                  ctx w Hready) as H.
    destruct (bridge_run self _ ctx w) as [[r self'] w']. simpl in *.
    destruct H as (-> & H).
    by destruct ((get_edge_config_f repr self edge_id (heap w)).1).
  - by apply bridge_run_ready.
  - by apply bridge_run_ready.
Qed.

(** *** What a coroutine does after [login] opens no session *)

Lemma quiet_ret {A} (a : A) : quiet (ret a).
Proof. intros s. split_and!; try done. exists []. by rewrite app_nil_r. Qed.

Lemma quiet_raise {A} (e : Exn) : quiet (@raise A e).
Proof. intros s. split_and!; try done. exists []. by rewrite app_nil_r. Qed.

Lemma quiet_lift {A} (r : Res A) : quiet (lift r).
Proof. intros s. split_and!; try done. exists []. by rewrite app_nil_r. Qed.

Lemma quiet_get_remote : quiet get_remote.
Proof. intros s. split_and!; try done. exists []. by rewrite app_nil_r. Qed.

Lemma quiet_new_uuid : quiet new_uuid.
Proof. intros s. split_and!; try done. exists []. by rewrite app_nil_r. Qed.

Lemma quiet_send q : session_request q = false → quiet (send q).
Proof.
  intros Hq s. split_and!; try done. exists [q]. split; [done|].
  by apply Forall_singleton.
Qed.

Lemma quiet_bind {A B} (m : M A) (k : A → M B) :
  quiet m → (∀ a, quiet (k a)) → quiet (bind m k).
Proof.
  intros Hm Hk s. unfold bind. destruct (Hm s) as (H1 & H2 & qs & H3 & H4).
  destruct (m s) as [[a|e] s1]; simpl in *.
  - destruct (Hk a s1) as (K1 & K2 & qs' & K3 & K4).
    split_and!; try congruence. exists (qs ++ qs').
    rewrite K3, H3, app_assoc. split; [done|]. by apply Forall_app.
  - split_and!; try done. by exists qs.
Qed.

Lemma quiet_except {A} (m : M A) :
  quiet m → quiet (except_ProtocolError m (to_APIError repr)).
Proof.
  intros Hm s. rewrite except_to_APIError. specialize (Hm s).
  destruct (m s) as [[a|e] s1]; [done|]. by destruct e.
Qed.

Lemma quiet_on_handle {A} server method (m : M A) :
  quiet m → quiet (on_handle server method m).
Proof. intros H. destruct server; [done|apply quiet_raise]. Qed.

Lemma quiet_getEdges server page limit answer :
  quiet (getEdges server page limit answer).
Proof.
  apply quiet_on_handle, quiet_bind; [by apply quiet_send|].
  intros _. apply quiet_lift.
Qed.

Lemma quiet_edgeRpc server edge_id payload :
  quiet (edgeRpc server edge_id payload).
Proof.
  apply quiet_on_handle, quiet_bind; [by apply quiet_send|].
  intros _. apply quiet_bind; [apply quiet_get_remote|].
  intros r. apply quiet_lift.
Qed.

Lemma quiet_payload_result r : quiet (payload_result r).
Proof. apply quiet_bind; [apply quiet_lift|]. intros p. apply quiet_lift. Qed.

Lemma quiet_get_edges_page server page limit edges answer :
  quiet (get_edges_page repr server page limit edges answer).
Proof.
  unfold get_edges_page.
  apply quiet_bind; [apply quiet_except, quiet_getEdges|].
  intros r. repeat (apply quiet_bind; [apply quiet_lift|]; intros ?).
  apply quiet_ret.
Qed.

Lemma quiet_get_edges_loop server answers page limit edges :
  quiet (get_edges_loop repr server answers page limit edges).
Proof.
  revert page edges. induction answers as [|answer rest IH];
    intros page edges; simpl.
  - apply quiet_bind; [apply quiet_get_edges_page|].
    intros turn. apply quiet_ret.
  - apply quiet_bind; [apply quiet_get_edges_page|].
    intros turn. destruct (fst turn); [apply quiet_ret|apply IH].
Qed.

Ltac quiet_steps :=
  cbv zeta;
  repeat first
    [ apply quiet_ret | apply quiet_lift | apply quiet_get_remote
    | apply quiet_new_uuid | apply quiet_edgeRpc | apply quiet_payload_result
    | apply quiet_get_edges_loop | apply quiet_except
    | apply quiet_bind; [|intros ?] ].

Lemma coroutine_behind_after_login self c :
  ∃ k, coroutine_behind self c = bind (login repr self) k
       ∧ ∀ server, quiet (k server).
Proof.
  destruct c as [[| | | |]| | | |]; simpl; eexists; (split; [reflexivity|]);
    intros server; quiet_steps.
Qed.

Lemma bind_raises_state {A B} (m : M A) (k : A → M B) s e :
  (m s).1 = Raises e → bind m k s = (Raises e, (m s).2).
Proof.
  unfold bind. destruct (m s) as [[a|e'] s1]; simpl; [done|].
  by intros [= ->].
Qed.

(** *** Exceptions on the way to the caller *)

Lemma translated_other e :
  (∀ args, e ≠ ProtocolError args) → translated repr e = e.
Proof. intros H. destruct e; try done. by destruct (H args). Qed.

Lemma authentication_error_translated self c s e :
  must_connect (_server s) = true →
  on_ws_connect (remote s) = None →
  on_authenticateWithPassword (remote s) = Raises e →
  (coroutine_behind self c s).1 = Raises (translated repr e).
Proof.
  intros Hm Hc Ha. destruct (coroutine_behind_after_login self c) as (k & -> & _).
  apply bind_raises. destruct (login_cases repr self s) as (_ & _ & _ & Hcases).
  rewrite Hm, Hc, Ha in Hcases. by destruct Hcases as (_ & _ & ? & _).
Qed.

Lemma except_raises_translated {A B} (m : M A) (k : A → M B) s e :
  (m s).1 = Raises e →
  (bind (except_ProtocolError m (to_APIError repr)) k s).1
  = Raises (translated repr e).
Proof.
  intros Hm. apply bind_raises. rewrite except_to_APIError.
  destruct (m s) as [[a|e'] s1]; simpl in *; [done|].
  injection Hm as ->. by destruct e.
Qed.

Lemma rpc_error_translated self c s srv e :
  (login repr self s).1 = Returns (Some srv) →
  rpc_answers (remote s) c (Raises e) →
  (coroutine_behind self c s).1 = Raises (translated repr e).
Proof.
  intros Hl Hrpc. destruct (login_cases repr self s) as (Hr & _ & _ & _).
  assert (Hrpc' : rpc_answers (remote (login repr self s).2) c (Raises e))
    by by rewrite Hr.
  clear Hrpc Hr.
  destruct c as [[| | | |]| | | |]; simpl in *;
    unfold get_edges_f, get_edge_config_f, get_channels_of_component_f,
      update_component_config_f, query_historic_timeseries_data_f,
      query_futuristic_timeseries_data_f;
    unfold bind at 1; destruct (login repr self s) as [[server|e0] s1];
    simpl in *; try done; injection Hl as ->; cbv zeta.
  - unfold bind at 1. simpl.
    destruct (on_getEdges (remote s1)) as [|answer rest]; [done|].
    injection Hrpc' as ->. simpl. apply bind_raises.
    unfold get_edges_page. by apply except_raises_translated.
  - apply except_raises_translated, new_uuid_then. intros id s0 Hs0.
    apply edgeRpc_raises. by rewrite Hs0.
  - apply except_raises_translated, new_uuid_then. intros inner_id s0 Hs0.
    apply new_uuid_then. intros id s2 Hs2.
    apply edgeRpc_raises. by rewrite Hs2, Hs0.
  - apply except_raises_translated, new_uuid_then. intros id s0 Hs0.
    apply edgeRpc_raises. by rewrite Hs0.
  - apply except_raises_translated, new_uuid_then. intros id s0 Hs0.
    apply edgeRpc_raises. by rewrite Hs0.
  - apply except_raises_translated, new_uuid_then. intros id s0 Hs0.
    apply edgeRpc_raises. by rewrite Hs0.
  - apply except_raises_translated, new_uuid_then. intros id s0 Hs0.
    apply edgeRpc_raises. by rewrite Hs0.
  - apply except_raises_translated, new_uuid_then. intros id s0 Hs0.
    apply edgeRpc_raises. by rewrite Hs0.
  - apply except_raises_translated, new_uuid_then. intros id s0 Hs0.
    apply edgeRpc_raises. by rewrite Hs0.
Qed.

(** X8. An exception raised while the connection is made reaches the
    caller of every public method as it is, a [ProtocolError] too: the
    [try] of [login] begins after [ws_connect].  Nothing is sent after the
    attempt to connect, and the cached handle is left as it was. *)
Theorem connection_errors_reach_the_caller_unchanged self c ctx w e :
  ready self ctx →
  must_connect (_server (heap w)) = true →
  on_ws_connect (remote (heap w)) = Some e →
  let after := perform self c ctx w in
  after.1.1 = Done (Raises e)
  ∧ sent (heap after.2) = sent (heap w) ++ [ReqConnect (server_url self)]
  ∧ _server (heap after.2) = _server (heap w).
Proof.
  intros Hready Hm Hc after. subst after.
  destruct (perform_spec self c ctx w Hready) as (-> & -> & _).
  destruct (coroutine_behind_after_login self c) as (k & -> & _).
  destruct (login_cases repr self (heap w)) as (_ & _ & _ & Hcases).
  rewrite Hm, Hc in Hcases. destruct Hcases as (_ & He & Hs & Hsent).
  rewrite (bind_raises_state _ _ _ _ He). simpl.
  by rewrite finish_raises.
Qed.

(** X9. Only [ProtocolError] is translated.  Any other exception that
    the remote raises, in authentication or in the call a public method
    makes, reaches the caller of the method as it is. *)
Theorem only_ProtocolError_is_translated self c ctx w e :
  ready self ctx →
  (∀ args, e ≠ ProtocolError args) →
  (must_connect (_server (heap w)) = true →
   on_ws_connect (remote (heap w)) = None →
   on_authenticateWithPassword (remote (heap w)) = Raises e →
   (perform self c ctx w).1.1 = Done (Raises e))
  ∧ (∀ srv, (login repr self (heap w)).1 = Returns (Some srv) →
     rpc_answers (remote (heap w)) c (Raises e) →
     (perform self c ctx w).1.1 = Done (Raises e)).
Proof.
  intros Hready Hne.
  destruct (perform_spec self c ctx w Hready) as (-> & _).
  split.
  - intros Hm Hc Ha.
    rewrite (authentication_error_translated self c (heap w) e) by done.
    by rewrite finish_raises, translated_other.
  - intros srv Hl Hrpc.
    rewrite (rpc_error_translated self c (heap w) srv e) by done.
    by rewrite finish_raises, translated_other.
Qed.

(** X10. The methods that the lists of meters and of PV inverters and the
    two time series queries are turn a [ProtocolError] into an [APIError]
    as the other public methods do: one whose [args] hold a code and a
    message, raised in authentication or in the call, reaches the caller
    as [APIError] of the message [f'{code}: {message}'] and of that
    code. *)
Theorem every_public_method_raises_APIError_for_a_ProtocolError
  self c ctx w (code message : PyVal) (rest : list PyVal) :
  ready self ctx →
  (must_connect (_server (heap w)) = true →
   on_ws_connect (remote (heap w)) = None →
   on_authenticateWithPassword (remote (heap w))
   = Raises (ProtocolError (code :: message :: rest)) →
   (perform self c ctx w).1.1
   = Done (Raises (APIError (str repr code +:+ ": " +:+ str repr message)
                            code)))
  ∧ (∀ srv, (login repr self (heap w)).1 = Returns (Some srv) →
     rpc_answers (remote (heap w)) c
       (Raises (ProtocolError (code :: message :: rest))) →
     (perform self c ctx w).1.1
     = Done (Raises (APIError (str repr code +:+ ": " +:+ str repr message)
                              code))).
Proof.
  intros Hready.
  destruct (perform_spec self c ctx w Hready) as (-> & _).
  split.
  - intros Hm Hc Ha.
    rewrite (authentication_error_translated self c (heap w) _ Hm Hc Ha).
    by rewrite finish_raises.
  - intros srv Hl Hrpc.
    rewrite (rpc_error_translated self c (heap w) srv _ Hl Hrpc).
    by rewrite finish_raises.
Qed.

(** *** One session for all the calls *)






(** *** What the methods that call an edge return *)



(** *** The end of a client, and the two kinds of client *)

Lemma shutdown_of_an_idle_bridge (b : ASGIRefBridge Session) w :
  resident (_executor b) = [] →
  (shutdown b w).1.1 = Done (Returns PNone)
  ∧ (shutdown b w).2 = w
  ∧ _shutdown (_executor (shutdown b w).1.2) = true
  ∧ isinparentloop (shutdown b w).1.2 = isinparentloop b.
Proof.
  intros Hidle. unfold resident in Hidle.
  apply app_eq_nil in Hidle as [Hr Hq].
  unfold shutdown, executor_shutdown.
  rewrite join_idle by (unfold idle; simpl; by rewrite Hr, Hq).
  unfold idle. simpl. by rewrite Hr, Hq.
Qed.

Lemma bridge_run_refused self (f : M PyVal) ctx w :
  isinparentloop (_bridge self) = true →
  _shutdown (_executor (_bridge self)) = true →
  (bridge_run self f ctx w).1.1
  = Done (Raises (RuntimeError "cannot schedule new futures after shutdown"))
  ∧ heap (bridge_run self f ctx w).2 = heap w.
Proof.
  intros Hp Hs. unfold bridge_run, run. rewrite Hp.
  by rewrite submit_refused.
Qed.

Lemma perform_refused self c ctx w :
  isinparentloop (_bridge self) = true →
  _shutdown (_executor (_bridge self)) = true →
  (perform self c ctx w).1.1
  = Done (Raises (RuntimeError "cannot schedule new futures after shutdown"))
  ∧ heap (perform self c ctx w).2 = heap w.
Proof.
  intros Hp Hs. destruct c as [m| | | |]; simpl.
  - rewrite call_is_bridge_run. by apply bridge_run_refused.
  - unfold get_meter_list, get_edge_config.
    match goal with |- context [bridge_run self ?f ctx w] =>
      destruct (bridge_run_refused self f ctx w Hp Hs) as [H1 H2];
      destruct (bridge_run self f ctx w) as [[r self'] w'] end.
    simpl in *. by subst r.
  - unfold get_pvinverter_list, get_edge_config.
    match goal with |- context [bridge_run self ?f ctx w] =>
      destruct (bridge_run_refused self f ctx w Hp Hs) as [H1 H2];
      destruct (bridge_run self f ctx w) as [[r self'] w'] end.
    simpl in *. by subst r.
  - by apply bridge_run_refused.
  - by apply bridge_run_refused.
Qed.

(** X13. [__del__] shuts the pool of the bridge down, and that is all it
    does: it returns, it sends nothing to the remote, and the handle that
    was cached stays cached and connected.  On a client that was built
    inside a loop every public method called after it raises
    [RuntimeError], and sends nothing either. *)
Theorem del_shuts_the_pool_down_and_leaves_the_session_open self ctx w :
  ready self ctx →
  let gone := __del__ self w in
  gone.1.1 = Done (Returns PNone)
  ∧ heap gone.2 = heap w
  ∧ _shutdown (_executor (_bridge gone.1.2)) = true
  ∧ (isinparentloop (_bridge self) = true →
     ∀ c (ctx' : ThreadCtx),
       (perform gone.1.2 c ctx' gone.2).1.1
       = Done (Raises (RuntimeError
            "cannot schedule new futures after shutdown"))
       ∧ heap (perform gone.1.2 c ctx' gone.2).2 = heap w).
Proof.
  intros (_ & Hidle & _) gone. subst gone. unfold __del__.
  destruct (shutdown_of_an_idle_bridge (_bridge self) w Hidle)
    as (Hr & Hw & Hs & Hp).
  destruct (shutdown (_bridge self) w) as [[r b] w']. simpl in *. subst w'.
  split_and!; try done.
  intros Hpool c ctx'. apply perform_refused; simpl; congruence.
Qed.



End SessionFacts.
End SessionFacts.

(** * The listing of the edges, page by page *)

Module PagingFacts.
Import Pool PoolFacts Bridge BridgeFacts Api ApiFacts SessionFacts.
Section PagingFacts.
Variable repr : PyVal → string.
Implicit Types (self : OpenEMSAPIClient) (s : Session).
Implicit Types (ctx : ThreadCtx) (w : World Session).
Implicit Types (answers rest : list Outcome) (pages : list (list PyVal)).

Lemma sends_snoc qs q s : sends (qs ++ [q]) s = (send q (sends qs s)).2.
Proof. unfold sends. by rewrite foldl_app. Qed.

Lemma sends_sent qs s : sent (sends qs s) = sent s ++ qs.
Proof.
  induction qs as [|q qs IH] using rev_ind; [by rewrite app_nil_r|].
  rewrite sends_snoc. simpl. by rewrite IH, app_assoc.
Qed.

Lemma sends_remote qs s : remote (sends qs s) = remote s.
Proof.
  induction qs as [|q qs IH] using rev_ind; [done|].
  rewrite sends_snoc. simpl. by rewrite IH.
Qed.

Lemma page_requests n s :
  sent (send (ReqGetEdges n 100)
          (sends ((λ p, ReqGetEdges p 100) <$> seq 0 n) s)).2
  = sent s ++ ((λ p, ReqGetEdges p 100) <$> seq 0 (S n)).
Proof. rewrite seq_S, fmap_app. simpl. by rewrite sends_sent, <- app_assoc. Qed.

Lemma get_edges_page_of srv page limit edges answer es s :
  page_of answer es →
  get_edges_page repr (Some srv) page limit edges answer s
  = (Returns (bool_decide (length es < limit), edges ++ es),
     (send (ReqGetEdges page limit) s).2).
Proof.
  intros (r & -> & Hget). unfold get_edges_page. unfold bind at 1.
  rewrite except_to_APIError.
  unfold getEdges, on_handle, bind, send, lift. simpl. by rewrite Hget.
Qed.

Lemma get_edges_page_run srv page limit edges answer s :
  get_edges_page repr (Some srv) page limit edges answer s
  = (match answer with
     | Raises e => Raises (translated repr e)
     | Returns r =>
         and_then (getitem r "edges") (λ es,
         and_then (iterate es) (λ new,
         and_then (len es) (λ n,
         Returns (bool_decide (n < limit), edges ++ new))))
     end, (send (ReqGetEdges page limit) s).2).
Proof.
  unfold get_edges_page. unfold bind at 1. rewrite except_to_APIError.
  unfold getEdges, on_handle, bind, send, lift. simpl.
  destruct answer as [r|e]; simpl; [|by destruct e].
  destruct (getitem r "edges") as [es|e]; simpl; [|done].
  destruct (iterate es) as [new|e]; simpl; [|done].
  by destruct (len es) as [n|e].
Qed.

(** The turns of the loop for pages that are full. *)
Lemma get_edges_loop_full_pages srv answers pages tail page edges s :
  Forall2 page_of answers pages →
  Forall (λ es, length es = 100) pages →
  get_edges_loop repr (Some srv) (answers ++ tail) page 100 edges s
  = get_edges_loop repr (Some srv) tail (page + length pages) 100
      (edges ++ concat pages)
      (sends ((λ p, ReqGetEdges p 100) <$> seq page (length pages)) s).
Proof.
  intros Hpages. revert page edges s.
  induction Hpages as [|answer es answers pages Hpage _ IH];
    intros page edges s Hfull; simpl.
  { by rewrite Nat.add_0_r, app_nil_r. }
  apply Forall_cons in Hfull as [Hlen Hfull].
  unfold bind at 1. rewrite (get_edges_page_of _ _ _ _ _ _ _ Hpage). simpl.
  rewrite bool_decide_false by lia.
  rewrite IH by done. f_equal; [lia|by rewrite app_assoc].
Qed.

Lemma get_edges_loop_cons srv answer rest page limit edges s :
  get_edges_loop repr (Some srv) (answer :: rest) page limit edges s
  = match get_edges_page repr (Some srv) page limit edges answer s with
    | (Returns turn, s') =>
        if fst turn then (Returns (PList (snd turn)), s')
        else get_edges_loop repr (Some srv) rest (S page) limit (snd turn) s'
    | (Raises e, s') => (Raises e, s')
    end.
Proof.
  simpl. unfold bind at 1.
  destruct (get_edges_page _ _ _ _ _ _ _) as [[turn|e] s']; [|done].
  by destruct (fst turn).
Qed.

Lemma get_edges_f_after_login self s srv :
  (login repr self s).1 = Returns (Some srv) →
  get_edges_f repr self s
  = get_edges_loop repr (Some srv) (on_getEdges (remote s)) 0 100 []
      (login repr self s).2.
Proof.
  intros Hl. destruct (login_cases repr self s) as (Hr & _).
  unfold get_edges_f. unfold bind at 1.
  destruct (login repr self s) as [[server|e] s1]; simpl in *; [|done].
  injection Hl as ->. unfold bind, get_remote. simpl. by rewrite Hr.
Qed.

(** X15. [get_edges] asks for the listing page by page, a hundred edges
    to the page, and stops at the first page that holds fewer: it returns
    the edges of all the pages up to that one, in their order, and asks
    for no page after it. *)
Theorem get_edges_gathers_the_pages_up_to_the_first_short_one
  self ctx w srv answers pages (answer : Outcome) (last : list PyVal) rest :
  ready self ctx →
  (login repr self (heap w)).1 = Returns (Some srv) →
  on_getEdges (remote (heap w)) = answers ++ answer :: rest →
  Forall2 page_of answers pages →
  Forall (λ es, length es = 100) pages →
  page_of answer last →
  length last < 100 →
  let after := get_edges repr self ctx w in
  after.1.1 = Done (Returns (PList (concat pages ++ last)))
  ∧ sent (heap after.2)
    = sent (login repr self (heap w)).2
      ++ ((λ page, ReqGetEdges page 100) <$> seq 0 (S (length pages))).
Proof.
  intros Hready Hl Hans Hpages Hfull Hlast Hshort after. subst after.
  unfold get_edges.
  destruct (bridge_run_ready self (get_edges_f repr self) ctx w Hready)
    as (-> & -> & _).
  rewrite (get_edges_f_after_login self (heap w) srv Hl), Hans.
  rewrite (get_edges_loop_full_pages srv answers pages _ _ _ _ Hpages Hfull).
  rewrite get_edges_loop_cons, (get_edges_page_of _ _ _ _ _ _ _ Hlast).
  cbn [fst snd]. rewrite bool_decide_true by done.
  change (0 + length pages) with (length pages).
  cbn [fst snd]. by rewrite page_requests.
Qed.

(** X16. A listing that fails gives nothing.  When the remote raises on a
    page, or answers with something that holds no ['edges'], after any
    number of full pages, [get_edges] raises (the exception of the remote
    as the handler leaves it, or [KeyError]): the edges of the pages read
    so far are not returned. *)
Theorem get_edges_gives_nothing_of_a_listing_that_fails
  self ctx w srv answers pages (bad : Outcome) rest :
  ready self ctx →
  (login repr self (heap w)).1 = Returns (Some srv) →
  on_getEdges (remote (heap w)) = answers ++ bad :: rest →
  Forall2 page_of answers pages →
  Forall (λ es, length es = 100) pages →
  let after := get_edges repr self ctx w in
  (∀ e, bad = Raises e → after.1.1 = Done (Raises (translated repr e)))
  ∧ (∀ items, bad = Returns (PDict items) → dict_get items "edges" = None →
       after.1.1 = Done (Raises (KeyError "edges")))
  ∧ ((∃ e, bad = Raises e)
     ∨ (∃ items, bad = Returns (PDict items)
                 ∧ dict_get items "edges" = None) →
     sent (heap after.2)
     = sent (login repr self (heap w)).2
       ++ ((λ page, ReqGetEdges page 100) <$> seq 0 (S (length pages)))).
Proof.
  intros Hready Hl Hans Hpages Hfull after. subst after.
  unfold get_edges.
  destruct (bridge_run_ready self (get_edges_f repr self) ctx w Hready)
    as (-> & -> & _).
  rewrite (get_edges_f_after_login self (heap w) srv Hl), Hans.
  rewrite (get_edges_loop_full_pages srv answers pages _ _ _ _ Hpages Hfull).
  rewrite get_edges_loop_cons, get_edges_page_run.
  change (0 + length pages) with (length pages).
  rewrite <- (page_requests (length pages)).
  split_and!.
  - by intros e ->.
  - intros items -> Hnone. simpl. by rewrite Hnone.
  - intros [[e ->]|(items & -> & Hnone)]; [done|].
    simpl. by rewrite Hnone.
Qed.

End PagingFacts.
End PagingFacts.

(** * The lists of meters and of PV inverters *)

Module ComponentFacts.
Import Pool PoolFacts Bridge BridgeFacts Api ApiFacts SessionFacts.
Section ComponentFacts.
Variable repr : PyVal → string.
Implicit Types (self : OpenEMSAPIClient) (ctx : ThreadCtx) (w : World Session).
Implicit Types (items kept : list (string * PyVal)) (name : string).

(** *** [str.split] *)

Lemma str_split_nonempty sep s : str_split sep s ≠ [].
Proof.
  destruct s as [|c rest]; simpl; [done|].
  destruct (Ascii.eqb c sep); [done|]. by destruct (str_split sep rest).
Qed.

Lemma str_split_head sep s word words :
  str_split sep s = word :: words →
  str_split sep word = [word]
  ∧ (s = word ∨ ∃ rest, s = word +:+ String sep rest).
Proof.
  revert word words. induction s as [|c rest IH]; intros word words; simpl.
  { intros [= <- <-]. split; [done|by left]. }
  destruct (Ascii.eqb c sep) eqn:Ec.
  - apply Ascii.eqb_eq in Ec as ->. intros [= <- <-]. split; [done|].
    right. by exists rest.
  - destruct (str_split sep rest) as [|w0 ws] eqn:Er.
    { by destruct (str_split_nonempty sep rest). }
    intros [= <- <-]. destruct (IH w0 ws eq_refl) as [Hw Hs]. split.
    + simpl. by rewrite Ec, Hw.
    + destruct Hs as [->|[r ->]]; [by left|right; by exists r].
Qed.

Lemma str_split_prefix sep word rest :
  str_split sep word = [word] →
  str_split sep (word +:+ String sep rest) = word :: str_split sep rest.
Proof.
  induction word as [|c word IH]; simpl.
  { intros _. by rewrite Ascii.eqb_refl. }
  destruct (Ascii.eqb c sep) eqn:Ec; [by intros [=]|].
  destruct (str_split sep word) as [|w0 ws] eqn:Ew.
  { by destruct (str_split_nonempty sep word). }
  intros [= -> ->]. by rewrite IH.
Qed.

Lemma first_segment_made_by name factory_id word :
  str_split "." name = [name] →
  first_segment (PStr factory_id) = Returns word →
  word = name
  ↔ (factory_id = name ∨ ∃ rest, factory_id = name +:+ "." +:+ rest).
Proof.
  intros Hname. unfold first_segment.
  destruct (str_split "." factory_id) as [|w ws] eqn:E; [done|].
  intros [= ->]. destruct (str_split_head _ _ _ _ E) as [Hw Hs]. split.
  - intros ->. destruct Hs as [->|[rest ->]]; [by left|right; by exists rest].
  - intros [->|[rest ->]].
    + rewrite Hname in E. by injection E.
    + change (name +:+ "." +:+ rest) with (name +:+ String "." rest) in E.
      rewrite str_split_prefix in E by done. by injection E.
Qed.

Lemma first_segment_str factory_id :
  ∃ word, first_segment (PStr factory_id) = Returns word.
Proof.
  unfold first_segment.
  destruct (str_split "." factory_id) as [|w ws] eqn:E; [|by eexists].
  by destruct (str_split_nonempty "." factory_id).
Qed.

(** *** [dict] of pairs whose keys differ *)

Lemma dict_set_fresh items k (v : PyVal) :
  k ∉ items.*1 → dict_set items k v = items ++ [(k, v)].
Proof.
  induction items as [|[k0 x] items IH]; simpl; [done|].
  intros [Hne Hnot]%not_elem_of_cons.
  destruct (String.eqb k0 k) eqn:E; [apply String.eqb_eq in E; congruence|].
  by rewrite IH.
Qed.

Lemma dict_of_from acc items :
  NoDup ((acc ++ items).*1) →
  foldl (λ d kv, dict_set d (fst kv) (snd kv)) acc items = acc ++ items.
Proof.
  revert acc. induction items as [|[k v] items IH]; intros acc Hnd; simpl.
  { by rewrite app_nil_r. }
  rewrite dict_set_fresh.
  - rewrite IH; rewrite <- app_assoc; done.
  - rewrite fmap_app in Hnd. apply NoDup_app in Hnd as (_ & Hnot & _).
    intros Hin. apply (Hnot k Hin). by left.
Qed.

Lemma dict_of_nodup items : NoDup items.*1 → dict_of items = items.
Proof. intros Hnd. unfold dict_of. by rewrite dict_of_from. Qed.

Lemma sublist_keys kept items :
  sublist kept items → sublist kept.*1 items.*1.
Proof. induction 1; simpl; by constructor. Qed.

Lemma one_value_per_key items k (v v' : PyVal) :
  NoDup items.*1 → (k, v) ∈ items → (k, v') ∈ items → v = v'.
Proof.
  induction items as [|[k0 v0] items IH]; simpl.
  { intros _ Hin. by apply elem_of_nil in Hin. }
  intros [Hnot Hnd]%NoDup_cons [[= <- <-]|Hin]%elem_of_cons
    [[= <-]|Hin']%elem_of_cons; try done.
  - destruct Hnot. by apply (list_elem_of_fmap_2 fst _ (k, v')).
  - destruct Hnot. by apply (list_elem_of_fmap_2 fst _ (k, v)).
  - by apply IH.
Qed.

(** *** The comprehension *)

Lemma of_factory_spec name items :
  str_split "." name = [name] →
  Forall (λ kv, ∃ factory_id,
            getitem kv.2 "factoryId" = Returns (PStr factory_id)) items →
  ∃ kept, of_factory name items = Returns kept
    ∧ sublist kept items
    ∧ ∀ k v, (k, v) ∈ kept ↔ (k, v) ∈ items ∧ made_by name v.
Proof.
  intros Hname. induction 1 as [|[k0 v0] items (fid & Hfid) _ IH]; simpl.
  { exists []. split_and!; [done|constructor|].
    intros k v. split; [by intros ?%elem_of_nil|by intros [?%elem_of_nil _]]. }
  destruct IH as (kept & -> & Hsub & Hin). simpl in Hfid. rewrite Hfid.
  cbn [and_then].
  destruct (first_segment_str fid) as [word Hword]. rewrite Hword.
  cbn [and_then].
  pose proof (first_segment_made_by name fid word Hname Hword) as Hiff.
  destruct (String.eqb word name) eqn:E.
  - apply String.eqb_eq in E. eexists. split_and!; [done|by constructor|].
    intros k v. rewrite !elem_of_cons, Hin. split.
    + intros [[= -> ->]|[? ?]]; [|by auto].
      split; [by left|]. exists fid. split; [done|]. by apply Hiff.
    + intros [[?|?] ?]; by auto.
  - apply String.eqb_neq in E. eexists. split_and!; [done|by constructor|].
    intros k v. rewrite elem_of_cons, Hin. split; [by intros [? ?]; auto|].
    intros [[[= -> ->]|?] Hmade]; [|done].
    destruct Hmade as (fid' & Hfid' & Hmade). rewrite Hfid in Hfid'.
    injection Hfid' as <-. destruct E. by apply Hiff.
Qed.

Lemma of_factory_returns name items kept :
  of_factory name items = Returns kept →
  Forall (λ kv, ∃ factory_id,
            getitem kv.2 "factoryId" = Returns (PStr factory_id)) items.
Proof.
  revert kept. induction items as [|[k0 v0] items IH]; intros kept; [done|].
  cbn [of_factory].
  destruct (getitem v0 "factoryId") as [fid|e] eqn:Ef; cbn [and_then]; [|done].
  destruct (first_segment fid) as [word|e] eqn:Ew; cbn [and_then]; [|done].
  destruct (of_factory name items) as [kept0|e]; cbn [and_then]; [|done].
  intros _. constructor; [|by eapply IH].
  destruct fid; try done. by eexists.
Qed.

Lemma of_factory_missing name items k d :
  Forall (λ kv, ∃ d, kv.2 = PDict d
            ∧ ∀ factory_id, dict_get d "factoryId" = Some factory_id →
                ∃ s, factory_id = PStr s) items →
  (k, PDict d) ∈ items →
  dict_get d "factoryId" = None →
  of_factory name items = Raises (KeyError "factoryId").
Proof.
  induction items as [|[k0 v0] items IH]; intros Hall Hin Hnone.
  { by apply elem_of_nil in Hin. }
  apply Forall_cons in Hall as [(d0 & Hv0 & Hfid) Hall]. simpl in Hv0.
  subst v0. simpl.
  destruct (dict_get d0 "factoryId") as [fid|] eqn:E; simpl; [|done].
  destruct (Hfid fid eq_refl) as [s ->].
  destruct (first_segment_str s) as [word ->]. cbn [and_then].
  rewrite IH; try done.
  apply elem_of_cons in Hin as [[= -> ->]|Hin]; [congruence|done].
Qed.

Lemma meter_list_of self edge_id ctx w edge_config :
  (get_edge_config repr self edge_id ctx w).1.1 = Done (Returns edge_config) →
  (get_meter_list repr self edge_id ctx w).1.1
  = Done (components_of_factory "Meter" edge_config).
Proof.
  unfold get_meter_list.
  destruct (get_edge_config repr self edge_id ctx w) as [[r self'] w'].
  simpl. by intros ->.
Qed.

Lemma pvinverter_list_of self edge_id ctx w edge_config :
  (get_edge_config repr self edge_id ctx w).1.1 = Done (Returns edge_config) →
  (get_pvinverter_list repr self edge_id ctx w).1.1
  = Done (components_of_factory "PVInverter" edge_config).
Proof.
  unfold get_pvinverter_list.
  destruct (get_edge_config repr self edge_id ctx w) as [[r self'] w'].
  simpl. by intros ->.
Qed.

Lemma components_of_factory_spec name edge_config items :
  str_split "." name = [name] →
  getitem edge_config "components" = Returns (PDict items) →
  NoDup items.*1 →
  Forall (λ kv, ∃ factory_id,
            getitem kv.2 "factoryId" = Returns (PStr factory_id)) items →
  ∃ kept, components_of_factory name edge_config = Returns (PDict kept)
    ∧ sublist kept items
    ∧ ∀ k v, (k, v) ∈ kept ↔ (k, v) ∈ items ∧ made_by name v.
Proof.
  intros Hname Hcomp Hnd Hall.
  destruct (of_factory_spec name items Hname Hall) as (kept & Hof & Hsub & Hin).
  exists kept. split; [|done].
  unfold components_of_factory. rewrite Hcomp. simpl. rewrite Hof. simpl.
  rewrite dict_of_nodup; [done|].
  eapply sublist_NoDup; [exact Hnd|by apply sublist_keys].
Qed.

(** X17. [get_meter_list] returns the components of the edge config whose
    factory id is ['Meter'] or begins with ['Meter.'], and
    [get_pvinverter_list] those whose factory id is ['PVInverter'] or begins
    with ['PVInverter.']: those and no others, each under its component id
    and as the config has it, in the order of the config.  A factory id
    that only holds the word further on, or begins with other letters, does
    not count. *)
Theorem the_lists_hold_the_components_of_their_factories
  self edge_id ctx w (edge_config : PyVal) items :
  (get_edge_config repr self edge_id ctx w).1.1 = Done (Returns edge_config) →
  getitem edge_config "components" = Returns (PDict items) →
  NoDup items.*1 →
  Forall (λ kv, ∃ factory_id,
            getitem kv.2 "factoryId" = Returns (PStr factory_id)) items →
  (∃ kept,
     (get_meter_list repr self edge_id ctx w).1.1
     = Done (Returns (PDict kept))
     ∧ sublist kept items
     ∧ ∀ k v, (k, v) ∈ kept ↔ (k, v) ∈ items ∧ made_by "Meter" v)
  ∧ (∃ kept,
       (get_pvinverter_list repr self edge_id ctx w).1.1
       = Done (Returns (PDict kept))
       ∧ sublist kept items
       ∧ ∀ k v, (k, v) ∈ kept ↔ (k, v) ∈ items ∧ made_by "PVInverter" v).
Proof.
  intros Hcfg Hcomp Hnd Hall.
  rewrite (meter_list_of _ _ _ _ _ Hcfg), (pvinverter_list_of _ _ _ _ _ Hcfg).
  destruct (components_of_factory_spec "Meter" edge_config items eq_refl
              Hcomp Hnd Hall) as (kept & -> & H).
  destruct (components_of_factory_spec "PVInverter" edge_config items eq_refl
              Hcomp Hnd Hall) as (kept' & -> & H').
  split; by eexists.
Qed.

(** X18. One component without a factory id breaks both lists.  When the
    components are objects and one of them, of whatever kind, has no
    ['factoryId'], [get_meter_list] and [get_pvinverter_list] raise
    [KeyError] and return nothing, not even the components that are
    meters or PV inverters. *)
Theorem a_component_without_factory_id_breaks_both_lists
  self edge_id ctx w (edge_config : PyVal) items k d :
  (get_edge_config repr self edge_id ctx w).1.1 = Done (Returns edge_config) →
  getitem edge_config "components" = Returns (PDict items) →
  Forall (λ kv, ∃ d, kv.2 = PDict d
            ∧ ∀ factory_id, dict_get d "factoryId" = Some factory_id →
                ∃ s, factory_id = PStr s) items →
  (k, PDict d) ∈ items →
  dict_get d "factoryId" = None →
  (get_meter_list repr self edge_id ctx w).1.1
  = Done (Raises (KeyError "factoryId"))
  ∧ (get_pvinverter_list repr self edge_id ctx w).1.1
    = Done (Raises (KeyError "factoryId")).
Proof.
  intros Hcfg Hcomp Hall Hin Hnone.
  rewrite (meter_list_of _ _ _ _ _ Hcfg), (pvinverter_list_of _ _ _ _ _ Hcfg).
  unfold components_of_factory. rewrite Hcomp. simpl.
  by rewrite !(of_factory_missing _ items k d Hall Hin Hnone).
Qed.

(** X19. No component is in both lists: of one edge config, the ids that
    [get_meter_list] returns and the ids that [get_pvinverter_list]
    returns have nothing in common. *)
Theorem no_component_is_both_a_meter_and_a_PV_inverter
  self edge_id ctx w self' ctx' w' (edge_config : PyVal) items meters inverters :
  (get_edge_config repr self edge_id ctx w).1.1 = Done (Returns edge_config) →
  (get_edge_config repr self' edge_id ctx' w').1.1
  = Done (Returns edge_config) →
  getitem edge_config "components" = Returns (PDict items) →
  NoDup items.*1 →
  (get_meter_list repr self edge_id ctx w).1.1
  = Done (Returns (PDict meters)) →
  (get_pvinverter_list repr self' edge_id ctx' w').1.1
  = Done (Returns (PDict inverters)) →
  ∀ k, k ∈ meters.*1 → k ∉ inverters.*1.
Proof.
  intros Hcfg Hcfg' Hcomp Hnd.
  rewrite (meter_list_of _ _ _ _ _ Hcfg), (pvinverter_list_of _ _ _ _ _ Hcfg').
  unfold components_of_factory. rewrite Hcomp. simpl.
  destruct (of_factory "Meter" items) as [ms|e] eqn:Em; simpl; [|done].
  destruct (of_factory "PVInverter" items) as [ps|e] eqn:Ep; simpl; [|done].
  intros [= <-] [= <-].
  pose proof (of_factory_returns _ _ _ Em) as Hall.
  destruct (of_factory_spec "Meter" items eq_refl Hall)
    as (ms' & Hm' & Hsm & Hinm).
  destruct (of_factory_spec "PVInverter" items eq_refl Hall)
    as (ps' & Hp' & Hsp & Hinp).
  rewrite Em in Hm'. rewrite Ep in Hp'. injection Hm' as <-.
  injection Hp' as <-.
  rewrite !dict_of_nodup
    by (eapply sublist_NoDup; [exact Hnd|by apply sublist_keys]).
  intros k [[k1 v] [[= <-] Hv]]%list_elem_of_fmap
    [[k2 v'] [[= <-] Hv']]%list_elem_of_fmap. simpl in *.
  apply Hinm in Hv as [Hv (fid & Hfid & Hmeter)].
  apply Hinp in Hv' as [Hv' (fid' & Hfid' & Hpv)].
  rewrite (one_value_per_key items k v v' Hnd Hv Hv') in Hfid.
  rewrite Hfid in Hfid'. injection Hfid' as <-.
  destruct Hmeter as [->|[r ->]]; destruct Hpv as [?|[r' ?]]; done.
Qed.

End ComponentFacts.
End ComponentFacts.

(** * The time series queries *)

Module SeriesFacts.
Import Pool PoolFacts Bridge BridgeFacts Api ApiFacts SessionFacts.
Section SeriesFacts.
Variable repr : PyVal → string.
Variable DataFrame_by_time : PyVal → PyVal → Outcome.
Implicit Types (self : OpenEMSAPIClient) (s : Session).
Implicit Types (ctx : ThreadCtx) (w : World Session).

(** What goes out when a coroutine makes its call of an edge, whatever
    the remote answers and whatever is made of the answer. *)
Lemma edge_request_sent srv edge_id (payload_of : PyVal → PyVal)
  (k : PyVal → M PyVal) s :
  (∀ r s', sent (k r s').2 = sent s') →
  sent (bind (except_ProtocolError
                (bind new_uuid
                   (λ id, edgeRpc (Some srv) edge_id (payload_of id)))
                (to_APIError repr)) k s).2
  = sent s ++ [ReqEdgeRpc edge_id
                 (payload_of (PStr (uuid4 s (next_uuid s))))].
Proof.
  intros Hk. unfold bind at 1. rewrite except_to_APIError.
  unfold bind, new_uuid, edgeRpc, on_handle, send, get_remote, lift. simpl.
  destruct (on_edgeRpc (remote s) edge_id _) as [r|e]; simpl.
  - by rewrite Hk.
  - by destruct e.
Qed.

Lemma frame_of_the_answer_sends_nothing (r_edge_rpc : PyVal) s :
  sent ((let* r := payload_result r_edge_rpc in
         let* data := lift (getitem r "data") in
         let* timestamps := lift (getitem r "timestamps") in
         lift (DataFrame_by_time data timestamps)) s).2 = sent s.
Proof.
  unfold payload_result, bind, lift. simpl.
  destruct (getitem r_edge_rpc "payload") as [p|e]; simpl; [|done].
  destruct (getitem p "result") as [r|e]; simpl; [|done].
  destruct (getitem r "data") as [data|e]; simpl; [|done].
  by destruct (getitem r "timestamps") as [ts|e].
Qed.

(** X20. What the two time series queries ask of the edge: one call, with
    the time zone ['Asia/Tokyo'], the two dates in ISO format, the
    channels, and for the futuristic query the component id.  The
    resolution is sent only when the caller gave one that is truthy: with
    [None], the default, and with [0] alike the request has no
    ['resolution']. *)
Theorem time_series_queries_send_the_resolution_only_when_it_is_truthy
  self (edge_id : PyVal) (start end_ : Datetime)
  (channels component_id resolution_sec : PyVal) ctx w srv :
  ready self ctx →
  (login repr self (heap w)).1 = Returns (Some srv) →
  let resolution :=
    if truthy resolution_sec
    then [("resolution", PDict [("value", resolution_sec);
                                ("unit", PStr "SECONDS")])]
    else [] in
  let dates :=
    [("timezone", PStr "Asia/Tokyo");
     ("fromDate", PStr (isoformat start));
     ("toDate", PStr (isoformat end_));
     ("channels", channels)] in
  (∃ id,
     sent (heap (query_historic_timeseries_data repr DataFrame_by_time self
                   edge_id start end_ channels resolution_sec ctx w).2)
     = sent (login repr self (heap w)).2
       ++ [ReqEdgeRpc edge_id
             (PDict [("jsonrpc", PStr "2.0");
                     ("method", PStr "queryHistoricTimeseriesData");
                     ("params", PDict (dates ++ resolution));
                     ("id", id)])])
  ∧ (∃ id,
       sent (heap (query_futuristic_timeseries_data repr DataFrame_by_time
                     self edge_id start end_ channels component_id
                     resolution_sec ctx w).2)
       = sent (login repr self (heap w)).2
         ++ [ReqEdgeRpc edge_id
               (PDict [("jsonrpc", PStr "2.0");
                       ("method", PStr "queryFuturisticTimeseriesData");
                       ("params",
                        PDict (dates ++ [("componentId", component_id)]
                                 ++ resolution));
                       ("id", id)])])
  ∧ (resolution_sec = PNone ∨ resolution_sec = PInt 0 → resolution = []).
Proof.
  intros Hready Hl resolution dates.
  unfold query_historic_timeseries_data, query_futuristic_timeseries_data.
  split_and!.
  - destruct (bridge_run_ready self
                (query_historic_timeseries_data_f repr DataFrame_by_time self
                   edge_id start end_ channels resolution_sec) ctx w Hready)
      as (_ & -> & _).
    unfold query_historic_timeseries_data_f. unfold bind at 1.
    destruct (login repr self (heap w)) as [[server|e] s1]; simpl in Hl;
      [|done].
    injection Hl as ->. cbv zeta. cbn [snd].
    rewrite edge_request_sent
      by (intros; apply frame_of_the_answer_sends_nothing).
    eexists. do 4 f_equal. subst resolution dates.
    by destruct (truthy resolution_sec).
  - destruct (bridge_run_ready self
                (query_futuristic_timeseries_data_f repr DataFrame_by_time
                   self edge_id start end_ channels component_id
                   resolution_sec) ctx w Hready)
      as (_ & -> & _).
    unfold query_futuristic_timeseries_data_f. unfold bind at 1.
    destruct (login repr self (heap w)) as [[server|e] s1]; simpl in Hl;
      [|done].
    injection Hl as ->. cbv zeta. cbn [snd].
    rewrite edge_request_sent
      by (intros; apply frame_of_the_answer_sends_nothing).
    eexists. do 4 f_equal. subst resolution dates.
    by destruct (truthy resolution_sec).
  - subst resolution. by intros [->| ->].
Qed.

End SeriesFacts.
End SeriesFacts.

(** * The ids of the calls *)

Module IdFacts.
Import Pool PoolFacts Bridge BridgeFacts Api ApiFacts SessionFacts.
Section IdFacts.
Variable repr : PyVal → string.
Variable DataFrame_by_time : PyVal → PyVal → Outcome.
Implicit Types (self : OpenEMSAPIClient) (s : Session) (c : PublicCall).
Implicit Types (ctx : ThreadCtx) (w : World Session).

Abbreviation perform := (Api.perform repr DataFrame_by_time).
Abbreviation performs := (Api.performs repr DataFrame_by_time).
Abbreviation coroutine_behind := (Api.coroutine_behind repr DataFrame_by_time).

Lemma numbering_same {A} (m : M A) :
  (∀ s, omap request_id (sent (m s).2) = omap request_id (sent s)
        ∧ uuid4 (m s).2 = uuid4 s
        ∧ next_uuid s ≤ next_uuid (m s).2) →
  numbering m.
Proof.
  intros H s (drawn & Hd & Hnd & Hlt). destruct (H s) as (E1 & E2 & E3).
  split; [|done]. exists drawn. rewrite E1, E2. split_and!; try done.
  eapply Forall_impl; [exact Hlt|]. intros i Hi. simpl in *. lia.
Qed.

Lemma numbering_ret {A} (a : A) : numbering (ret a).
Proof. apply numbering_same. intros s. simpl. split_and!; [done..|lia]. Qed.

Lemma numbering_raise {A} (e : Exn) : numbering (@raise A e).
Proof. apply numbering_same. intros s. simpl. split_and!; [done..|lia]. Qed.

Lemma numbering_lift {A} (r : Res A) : numbering (lift r).
Proof. apply numbering_same. intros s. simpl. split_and!; [done..|lia]. Qed.

Lemma numbering_get_remote : numbering get_remote.
Proof. apply numbering_same. intros s. simpl. split_and!; [done..|lia]. Qed.

Lemma numbering_new_uuid : numbering new_uuid.
Proof. apply numbering_same. intros s. simpl. split_and!; [done..|lia]. Qed.

Lemma numbering_send q : request_id q = None → numbering (send q).
Proof.
  intros Hq. apply numbering_same. intros s. simpl.
  rewrite omap_app. simpl. rewrite Hq, app_nil_r. split_and!; [done..|lia].
Qed.

Lemma numbering_bind {A B} (m : M A) (k : A → M B) :
  numbering m → (∀ a, numbering (k a)) → numbering (bind m k).
Proof.
  intros Hm Hk s Hs. unfold bind. destruct (Hm s Hs) as [H1 H2].
  destruct (m s) as [[a|e] s1]; simpl in *; [|done].
  destruct (Hk a s1 H1) as [K1 K2]. split; [done|congruence].
Qed.

Lemma numbering_except {A} (m : M A) :
  numbering m → numbering (except_ProtocolError m (to_APIError repr)).
Proof.
  intros Hm s Hs. rewrite except_to_APIError. specialize (Hm s Hs).
  destruct (m s) as [[a|e] s1]; [done|]. by destruct e.
Qed.

Lemma numbering_on_handle {A} server method (m : M A) :
  numbering m → numbering (on_handle server method m).
Proof. intros H. destruct server; [done|apply numbering_raise]. Qed.

Lemma numbering_getEdges server page limit answer :
  numbering (getEdges server page limit answer).
Proof.
  apply numbering_on_handle, numbering_bind; [by apply numbering_send|].
  intros _. apply numbering_lift.
Qed.

Lemma numbering_payload_result r : numbering (payload_result r).
Proof.
  apply numbering_bind; [apply numbering_lift|]. intros p.
  apply numbering_lift.
Qed.

Lemma numbering_get_edges_page server page limit edges answer :
  numbering (get_edges_page repr server page limit edges answer).
Proof.
  unfold get_edges_page.
  apply numbering_bind; [apply numbering_except, numbering_getEdges|].
  intros r. repeat (apply numbering_bind; [apply numbering_lift|]; intros ?).
  apply numbering_ret.
Qed.

Lemma numbering_get_edges_loop server answers page limit edges :
  numbering (get_edges_loop repr server answers page limit edges).
Proof.
  revert page edges. induction answers as [|answer rest IH];
    intros page edges; simpl.
  - apply numbering_bind; [apply numbering_get_edges_page|].
    intros turn. apply numbering_ret.
  - apply numbering_bind; [apply numbering_get_edges_page|].
    intros turn. destruct (fst turn); [apply numbering_ret|apply IH].
Qed.

Lemma numbering_login self : numbering (login repr self).
Proof.
  apply numbering_same. intros s.
  destruct (login_cases repr self s) as (_ & Hu & Hn & Hcases).
  split_and!; [|done|lia].
  destruct (must_connect (_server s)); [|by rewrite Hcases].
  destruct Hcases as (_ & Hc). destruct (on_ws_connect (remote s)).
  - destruct Hc as (_ & _ & ->). rewrite omap_app. simpl. by rewrite app_nil_r.
  - destruct Hc as (-> & _). rewrite omap_app. simpl. by rewrite app_nil_r.
Qed.

(** A call of an edge that goes out under a uuid drawn for it. *)
Lemma numbering_fresh_request server edge_id (payload_of : PyVal → PyVal) :
  (∀ id, getitem (payload_of id) "id" = Returns id) →
  numbering (bind new_uuid (λ id, edgeRpc server edge_id (payload_of id))).
Proof.
  intros Hid s (drawn & Hd & Hnd & Hlt). unfold bind, new_uuid. simpl.
  destruct server as [srv|]; simpl.
  - unfold bind, send, get_remote, lift. simpl. split; [|done].
    exists (drawn ++ [next_uuid s]). cbn [sent uuid4 next_uuid].
    rewrite omap_app, fmap_app, Hd. simpl.
    rewrite Hid. simpl. split_and!; [done| |].
    + apply NoDup_app. split_and!; [done| |apply NoDup_singleton].
      intros i Hi ->%list_elem_of_singleton.
      rewrite Forall_forall in Hlt. specialize (Hlt _ Hi). lia.
    + apply Forall_app. split; [|apply Forall_singleton; lia].
      eapply Forall_impl; [exact Hlt|]. intros i Hi. simpl in *. lia.
  - split; [|done]. exists drawn. split_and!; try done.
    eapply Forall_impl; [exact Hlt|]. intros i Hi. simpl in *. lia.
Qed.

Ltac numbering_steps :=
  cbv zeta;
  repeat first
    [ apply numbering_ret | apply numbering_lift | apply numbering_get_remote
    | apply numbering_payload_result | apply numbering_get_edges_loop
    | apply numbering_login | apply numbering_except
    | apply numbering_fresh_request; by intros ?
    | apply numbering_new_uuid
    | apply numbering_bind; [|intros ?] ].

Lemma numbering_coroutine self c : numbering (coroutine_behind self c).
Proof.
  destruct c as [[| | | |]| | | |]; simpl;
    unfold get_edges_f, get_edge_config_f, get_channels_of_component_f,
      update_component_config_f, query_historic_timeseries_data_f,
      query_futuristic_timeseries_data_f;
    numbering_steps.
Qed.

Lemma performs_numbered self cs ctx w :
  ready self ctx → numbered (heap w) →
  numbered (heap (performs self cs ctx w).2)
  ∧ uuid4 (heap (performs self cs ctx w).2) = uuid4 (heap w).
Proof.
  revert self w. induction cs as [|c cs IH]; intros self w Hready Hn; simpl;
    [done|].
  destruct (perform_spec repr DataFrame_by_time self c ctx w Hready)
    as (_ & Hheap & Hready' & _).
  destruct (numbering_coroutine self c (heap w) Hn) as [Hn' Hu].
  rewrite <- Hheap in Hn', Hu.
  destruct (perform self c ctx w) as [[r self'] w']. simpl in *.
  destruct (IH self' w' Hready' Hn') as [I1 I2]. split; [done|congruence].
Qed.

(** X21. Every call of an edge goes out under an id of its own.  Over any
    number of public methods called on a client, no two of the calls of an
    edge that were sent carry the same id: each carries a uuid that was
    drawn for it (as long as [uuid4] gives no value twice). *)
Theorem no_two_calls_of_an_edge_carry_the_same_id
  self (cs : list PublicCall) ctx w :
  ready self ctx →
  numbered (heap w) →
  Inj (=) (=) (uuid4 (heap w)) →
  NoDup (omap request_id (sent (heap (performs self cs ctx w).2))).
Proof.
  intros Hready Hn Hinj.
  destruct (performs_numbered self cs ctx w Hready Hn)
    as [(drawn & -> & Hnd & _) Hu].
  rewrite Hu.
  assert (Hinj' : Inj (=) (=) (λ i, PStr (uuid4 (heap w) i)))
    by (intros i j [= Hij]; by apply Hinj).
  by apply (NoDup_fmap_2 _).
Qed.

End IdFacts.
End IdFacts.

(** * The theorems at work on the samples *)

Module Checks.
Import Pool PoolFacts SerialFacts Bridge BridgeFacts Api ApiFacts Samples.

Lemma construction_of_the_samples :
  Bridge.__init__ default_max_workers outside (world tt)
  = (Returns (bridge_outside unit), world_outside tt)
  ∧ Bridge.__init__ default_max_workers inside (world tt)
    = (Returns (bridge_inside unit), world tt)
  ∧ Api.__init__ "ws://backend:8082" "admin" "secret" outside
      (world (session (remote_with (Returns PNone) [])))
    = (Returns client,
       world_outside (session (remote_with (Returns PNone) []))).
Proof. split_and!; reflexivity. Qed.

(** C1 on a bridge built inside a loop, used and shut down, then called
    from a thread outside any loop: still the pool path; and on a bridge
    built outside, called from inside a loop: still the loop path. *)
Lemma run_takes_the_path_fixed_at_construction_witness :
  let used :=
    uses [UseRun (returning 3 1) (Some 1) inside; UseShutdown]
      (bridge_inside unit) (world tt) in
  let fresh := uses [] (bridge_outside unit) (world_outside tt) in
  (isinparentloop used.1 = true
   ∧ ∃ evs,
       log (run used.1 (returning 2 42) (Some 5) outside used.2).2
       = log used.2 ++ evs
       ∧ List.filter caller_event evs = [EvSubmitRefused])
  ∧ (isinparentloop fresh.1 = false
     ∧ ∃ evs,
         log (run fresh.1 (returning 2 42) (Some 5) inside fresh.2).2
         = log fresh.2 ++ evs
         ∧ List.filter caller_event evs = [EvRunUntilComplete 0]).
Proof.
  split.
  - apply (run_takes_the_path_fixed_at_construction
             default_max_workers inside (world tt) (bridge_inside unit)
             (world tt)
             [UseRun (returning 3 1) (Some 1) inside; UseShutdown]);
      [reflexivity|apply surjective_pairing].
  - apply (run_takes_the_path_fixed_at_construction
             default_max_workers outside (world tt) (bridge_outside unit)
             (world_outside tt) []);
      [reflexivity|apply surjective_pairing].
Defined.



(** C5 on a bridge built outside a loop and used for a while. *)
Lemma owned_loop_is_made_once_at_construction_witness :
  let used :=
    uses [UseRun (returning 3 1) (Some 1) outside; UseSleep 2; UseShutdown;
          UseRun (returning 1 2) None inside]
      (bridge_outside unit) (world_outside tt) in
  loop used.1 = Some 0
  ∧ next_loop used.2 = 1
  ∧ ∃ at_construction later,
      log (world_outside tt) = log (world tt) ++ at_construction
      ∧ log used.2 = log (world_outside tt) ++ later
      ∧ List.filter new_loop_event at_construction = [EvNewEventLoop 0]
      ∧ List.filter new_loop_event later = [].
Proof.
  apply (owned_loop_is_made_once_at_construction
           default_max_workers outside (world tt) (bridge_outside unit)
           (world_outside tt)
           [UseRun (returning 3 1) (Some 1) outside; UseSleep 2; UseShutdown;
            UseRun (returning 1 2) None inside]);
    [reflexivity|apply surjective_pairing].
Defined.

(** C6 on a schedule in which two threads submit at the same instant. *)
Lemma pool_of_one_runs_in_submission_order_witness :
  let after :=
    steps [StSubmit (returning 2 1); StSubmit (returning 1 2); StStart;
           StStart; StClock; StFinish; StClock; StStart; StFinish; StStart;
           StClock; StFinish]
      (_executor (bridge_inside unit)) (world tt) in
  length (_running after.1) ≤ 1
  ∧ ∃ evs, log after.2 = log (world tt) ++ evs
      ∧ ∀ a b p q r, evs = p ++ EvSubmit a :: q ++ EvSubmit b :: r →
          ∀ l1 l2, evs = l1 ++ EvStart b :: l2 →
            ∃ l1a l1b, l1 = l1a ++ EvFinish a :: l1b ∧ EvStart a ∈ l1a.
Proof.
  apply (pool_of_one_runs_in_submission_order inside (world tt)
           (bridge_inside unit) (world tt)
           [StSubmit (returning 2 1); StSubmit (returning 1 2); StStart;
            StStart; StClock; StFinish; StClock; StStart; StFinish; StStart;
            StClock; StFinish]);
    [reflexivity|apply surjective_pairing].
Defined.

(** C7 on a bridge whose pool still runs an operation that timed out. *)
Lemma shutdown_waits_for_the_pool_and_is_idempotent_witness :
  let busy :=
    uses [UseRun (returning 4 1) (Some 1) inside] (bridge_inside unit)
      (world tt) in
  let first := shutdown busy.1 busy.2 in
  first.1.1 = Done (Returns PNone)
  ∧ resident (_executor first.1.2) = []
  ∧ (∀ wi, wi ∈ resident (_executor busy.1) →
       ∃ s, _futures (_executor first.1.2) !! wi_future wi
            = Some (fst (co_body (wi_fn wi) s)))
  ∧ _threads (_executor first.1.2) = 0
  ∧ _shutdown (_executor first.1.2) = true
  ∧ now first.2 ≤ now busy.2 + backlog (_executor busy.1)
  ∧ shutdown first.1.2 first.2 = (Done (Returns PNone), first.1.2, first.2).
Proof.
  apply (shutdown_waits_for_the_pool_and_is_idempotent
           (uses [UseRun (returning 4 1) (Some 1) inside] (bridge_inside unit)
              (world tt)).1
           (uses [UseRun (returning 4 1) (Some 1) inside] (bridge_inside unit)
              (world tt)).2);
    apply well_formed_wf; reflexivity.
Defined.



(** C10 on a session whose remote refuses the password. *)
Lemma failed_login_leaves_the_cached_handle_as_it_was_witness :
  let s := session (remote_with (Raises refused) []) in
  let s' := (login no_repr client s).2 in
  _server s' = _server s
  ∧ must_connect (_server s') = true
  ∧ next_server s' = S (next_server s)
  ∧ (∃ rest, sent (login no_repr client s').2
             = sent s' ++ ReqConnect (server_url client) :: rest)
  ∧ (on_ws_connect (remote s') = None →
     sent (login no_repr client s').2
     = sent s' ++ [ReqConnect (server_url client);
                   ReqAuthenticate (username client) (password client)]).
Proof.
  apply (failed_login_leaves_the_cached_handle_as_it_was no_repr client
           (session (remote_with (Raises refused) []))
           (APIError "1003: Authentication failed" (PInt 1003))).
  reflexivity.
Defined.

End Checks.

(** * The further theorems at work on the samples *)

Module MoreChecks.
Import Pool PoolFacts SerialFacts Bridge BridgeFacts LifecycleFacts.
Import Api ApiFacts SessionFacts PagingFacts ComponentFacts SeriesFacts.
Import IdFacts.
Import Samples.

Ltac client_is_ready :=
  split_and!;
    [ apply well_formed_wf; reflexivity
    | reflexivity
    | left; split_and!; [reflexivity|by eexists|reflexivity] ].

Ltac client_inside_is_ready :=
  split_and!;
    [ apply well_formed_wf; reflexivity
    | reflexivity
    | right; split; reflexivity ].

Lemma construction_of_a_pool_of_two :
  Bridge.__init__ 2 inside (world tt) = (Returns (bridge_of_two unit), world tt).
Proof. reflexivity. Qed.

(** X3 on a bridge built inside a loop: after [shutdown], [run] raises and
    the operation is not run. *)
Lemma run_after_shutdown_witness :
  let closed := shutdown (bridge_inside unit) (world tt) in
  run closed.1.2 (returning 2 42) (Some 5) outside closed.2
  = (Done (Raises (RuntimeError
       "cannot schedule new futures after shutdown")),
     closed.1.2, emit EvSubmitRefused closed.2).
Proof.
  assert (Hwf : wf (_executor (bridge_inside unit)))
    by (apply well_formed_wf; reflexivity).
  destruct (run_after_shutdown (bridge_inside unit) (returning 2 42) (Some 5)
              outside (world tt) Hwf) as [Hpool _].
  apply Hpool. reflexivity.
Defined.

(** X4 on two bridges built one after the other on one thread. *)
Lemma bridges_built_outside_a_loop_own_their_loops_witness :
  let first :=
    uses [UseRun (returning 3 1) None outside] (bridge_outside unit)
      (world_outside tt) in
  ∃ b2 w3,
    Bridge.__init__ default_max_workers outside first.2 = (Returns b2, w3)
    ∧ ∃ l1 l2, loop first.1 = Some l1 ∧ loop b2 = Some l2 ∧ l1 < l2
        ∧ last (log w3) = Some (EvSetEventLoop l2)
        ∧ ∀ fn timeout (ctx : ThreadCtx),
            ∃ evs, log (run first.1 fn timeout ctx w3).2 = log w3 ++ evs
              ∧ List.filter caller_event evs = [EvRunUntilComplete l1].
Proof.
  eexists _, _. split; [reflexivity|].
  apply (bridges_built_outside_a_loop_own_their_loops
           default_max_workers default_max_workers outside outside (world tt)
           (bridge_outside unit) (world_outside tt)
           [UseRun (returning 3 1) None outside]
           (uses [UseRun (returning 3 1) None outside] (bridge_outside unit)
              (world_outside tt)).1
           (uses [UseRun (returning 3 1) None outside] (bridge_outside unit)
              (world_outside tt)).2);
    first [reflexivity|apply surjective_pairing].
Defined.



(** X7 on a bridge whose first call times out: the operation of the second
    call starts when that of the first has finished. *)
Lemma default_bridge_serves_its_calls_one_after_another_witness :
  let used :=
    uses [UseRun (returning 5 1) (Some 1) inside;
          UseRun (returning 1 2) None outside]
      (bridge_inside unit) (world tt) in
  length (_running (_executor used.1)) ≤ 1
  ∧ ∃ evs, log used.2 = log (world tt) ++ evs
      ∧ ∀ a b p q r, evs = p ++ EvSubmit a :: q ++ EvSubmit b :: r →
          ∀ l1 l2, evs = l1 ++ EvStart b :: l2 →
            ∃ l1a l1b, l1 = l1a ++ EvFinish a :: l1b ∧ EvStart a ∈ l1a.
Proof.
  apply (default_bridge_serves_its_calls_one_after_another
           inside (world tt) (bridge_inside unit) (world tt)
           [UseRun (returning 5 1) (Some 1) inside;
            UseRun (returning 1 2) None outside]);
    first [reflexivity|apply surjective_pairing].
Defined.

(** X8 on a remote that cannot be reached. *)
Lemma connection_errors_reach_the_caller_unchanged_witness :
  let after :=
    perform no_repr frame_as_dict client (GetMeterList (PStr "edge0")) outside
      (world_outside (session remote_down)) in
  after.1.1 = Done (Raises unreachable)
  ∧ sent (heap after.2) = [ReqConnect "ws://backend:8082"]
  ∧ _server (heap after.2) = None.
Proof.
  apply (connection_errors_reach_the_caller_unchanged no_repr frame_as_dict
           client (GetMeterList (PStr "edge0")) outside
           (world_outside (session remote_down)) unreachable);
    [client_is_ready|reflexivity|reflexivity].
Defined.

(** X9 on a connection that breaks in authentication, and on one that
    breaks in the call. *)
Lemma only_ProtocolError_is_translated_witness :
  (perform no_repr frame_as_dict client (OfMethod GetEdges) outside
     (world_outside (session (remote_with (Raises unreachable) [])))).1.1
  = Done (Raises unreachable)
  ∧ (perform no_repr frame_as_dict client
       (QueryHistoricTimeseriesData (PStr "edge0") (day "2024-04-01")
          (day "2024-04-02") (PList [PStr "meter0/ActivePower"]) PNone)
       outside
       (world_outside (session (remote_answering (Raises unreachable))))).1.1
    = Done (Raises unreachable).
Proof.
  split.
  - destruct (only_ProtocolError_is_translated no_repr frame_as_dict client
                (OfMethod GetEdges) outside
                (world_outside (session (remote_with (Raises unreachable) [])))
                unreachable) as [Hauth _]; [client_is_ready|done|].
    apply Hauth; reflexivity.
  - destruct (only_ProtocolError_is_translated no_repr frame_as_dict client
                (QueryHistoricTimeseriesData (PStr "edge0") (day "2024-04-01")
                   (day "2024-04-02") (PList [PStr "meter0/ActivePower"])
                   PNone) outside
                (world_outside (session (remote_answering (Raises unreachable))))
                unreachable) as [_ Hcall]; [client_is_ready|done|].
    eapply Hcall; first [reflexivity|by intros ?].
Defined.

(** X10 on the list of PV inverters of an edge that refuses the call. *)
Lemma every_public_method_raises_APIError_for_a_ProtocolError_witness :
  (perform no_repr frame_as_dict client (GetPvinverterList (PStr "edge0"))
     outside
     (world_outside (session (remote_answering (Raises refused))))).1.1
  = Done (Raises (APIError "1003: Authentication failed" (PInt 1003))).
Proof.
  destruct (every_public_method_raises_APIError_for_a_ProtocolError no_repr
              frame_as_dict client (GetPvinverterList (PStr "edge0")) outside
              (world_outside (session (remote_answering (Raises refused))))
              (PInt 1003) (PStr "Authentication failed") [PNone])
    as [_ Hcall]; [client_is_ready|].
  eapply Hcall; first [reflexivity|by intros ?].
Defined.



(** X13 on a client that was built inside a loop and has listed the
    edges: after [__del__] the handle is still cached, and every method
    raises. *)
Lemma del_shuts_the_pool_down_and_leaves_the_session_open_witness :
  let used :=
    perform no_repr frame_as_dict client_inside (OfMethod GetEdges) inside
      (world (session (remote_with (Returns PNone) [short_page]))) in
  let gone := __del__ used.1.2 used.2 in
  gone.1.1 = Done (Returns PNone)
  ∧ heap gone.2 = heap used.2
  ∧ _shutdown (_executor (_bridge gone.1.2)) = true
  ∧ (isinparentloop (_bridge used.1.2) = true →
     ∀ c (ctx' : ThreadCtx),
       (perform no_repr frame_as_dict gone.1.2 c ctx' gone.2).1.1
       = Done (Raises (RuntimeError
            "cannot schedule new futures after shutdown"))
       ∧ heap (perform no_repr frame_as_dict gone.1.2 c ctx' gone.2).2
         = heap used.2).
Proof.
  apply (del_shuts_the_pool_down_and_leaves_the_session_open no_repr
           frame_as_dict
           (perform no_repr frame_as_dict client_inside (OfMethod GetEdges)
              inside
              (world (session (remote_with (Returns PNone) [short_page])))).1.2
           inside).
  client_inside_is_ready.
Defined.


(** X15 on a listing of a full page and a page of one edge, with more
    behind that is never asked for. *)
Lemma get_edges_gathers_the_pages_up_to_the_first_short_one_witness :
  let after :=
    get_edges no_repr client outside
      (world_outside (session (remote_with (Returns PNone)
                                 [full_page; short_page; Raises refused]))) in
  after.1.1 = Done (Returns (PList (hundred_edges ++ [PStr "edge100"])))
  ∧ sent (heap after.2)
    = [ReqConnect "ws://backend:8082"; ReqAuthenticate "admin" "secret";
       ReqGetEdges 0 100; ReqGetEdges 1 100].
Proof.
  apply (get_edges_gathers_the_pages_up_to_the_first_short_one no_repr client
           outside
           (world_outside (session (remote_with (Returns PNone)
                                      [full_page; short_page; Raises refused])))
           (fresh_handle client (session (remote_with (Returns PNone) [])))
           [full_page] [hundred_edges] short_page [PStr "edge100"]
           [Raises refused]);
    [ client_is_ready | reflexivity | reflexivity
    | repeat constructor; by eexists
    | by repeat constructor
    | by eexists
    | simpl; lia ].
Defined.

(** X16 on a listing whose second page is refused. *)
Lemma get_edges_gives_nothing_of_a_listing_that_fails_witness :
  let after :=
    get_edges no_repr client outside
      (world_outside (session (remote_with (Returns PNone)
                                 [full_page; Raises refused; short_page]))) in
  after.1.1
  = Done (Raises (APIError "1003: Authentication failed" (PInt 1003)))
  ∧ sent (heap after.2)
    = [ReqConnect "ws://backend:8082"; ReqAuthenticate "admin" "secret";
       ReqGetEdges 0 100; ReqGetEdges 1 100].
Proof.
  destruct (get_edges_gives_nothing_of_a_listing_that_fails no_repr client
              outside
              (world_outside (session (remote_with (Returns PNone)
                                         [full_page; Raises refused; short_page])))
              (fresh_handle client (session (remote_with (Returns PNone) [])))
              [full_page] [hundred_edges] (Raises refused) [short_page])
    as (Hraise & _ & Hsent);
    [ client_is_ready | reflexivity | reflexivity
    | repeat constructor; by eexists
    | by repeat constructor
    | ].
  split; [by apply (Hraise refused)|]. apply Hsent. left. by eexists.
Defined.

(** X17 on an edge with a meter, a PV inverter, a controller and a
    simulated meter. *)
Lemma the_lists_hold_the_components_of_their_factories_witness :
  let w :=
    world_outside (session (remote_answering (answer_of edge_config))) in
  (∃ kept,
     (get_meter_list no_repr client (PStr "edge0") outside w).1.1
     = Done (Returns (PDict kept))
     ∧ sublist kept components
     ∧ ∀ k v, (k, v) ∈ kept ↔ (k, v) ∈ components ∧ made_by "Meter" v)
  ∧ (∃ kept,
       (get_pvinverter_list no_repr client (PStr "edge0") outside w).1.1
       = Done (Returns (PDict kept))
       ∧ sublist kept components
       ∧ ∀ k v, (k, v) ∈ kept ↔ (k, v) ∈ components ∧ made_by "PVInverter" v).
Proof.
  apply (the_lists_hold_the_components_of_their_factories no_repr client
           (PStr "edge0") outside
           (world_outside (session (remote_answering (answer_of edge_config))))
           edge_config components);
    [ reflexivity | reflexivity
    | apply (bool_decide_unpack _); reflexivity
    | repeat constructor; by eexists ].
Defined.

(** X18 on the same edge with a component that has no factory id. *)
Lemma a_component_without_factory_id_breaks_both_lists_witness :
  let w :=
    world_outside
      (session (remote_answering (answer_of edge_config_with_a_stray))) in
  (get_meter_list no_repr client (PStr "edge0") outside w).1.1
  = Done (Raises (KeyError "factoryId"))
  ∧ (get_pvinverter_list no_repr client (PStr "edge0") outside w).1.1
    = Done (Raises (KeyError "factoryId")).
Proof.
  apply (a_component_without_factory_id_breaks_both_lists no_repr client
           (PStr "edge0") outside
           (world_outside
              (session (remote_answering (answer_of edge_config_with_a_stray))))
           edge_config_with_a_stray components_with_a_stray
           "_sum" [("alias", PStr "Core.Sum")]);
    [ reflexivity | reflexivity
    | repeat (apply Forall_cons_2;
              [eexists; split; [reflexivity|];
               simpl; intros ? ?; simplify_eq; by eexists|]);
      apply Forall_nil_2
    | repeat constructor
    | reflexivity ].
Defined.

(** X19 on the lists of the sample edge: the meter is no PV inverter. *)
Lemma no_component_is_both_a_meter_and_a_PV_inverter_witness :
  "meter0"
    ∈ [("meter0", PDict [("alias", PStr "Grid");
                         ("factoryId", PStr "Meter.Socomec.Threephase")])].*1
  ∧ "meter0"
      ∉ [("pvInverter0", PDict [("factoryId", PStr "PVInverter.Fronius")])].*1.
Proof.
  split; [by left|].
  apply (no_component_is_both_a_meter_and_a_PV_inverter no_repr client
           (PStr "edge0") outside
           (world_outside (session (remote_answering (answer_of edge_config))))
           client outside
           (world_outside (session (remote_answering (answer_of edge_config))))
           edge_config components
           [("meter0", PDict [("alias", PStr "Grid");
                              ("factoryId", PStr "Meter.Socomec.Threephase")])]
           [("pvInverter0", PDict [("factoryId", PStr "PVInverter.Fronius")])]);
    [ reflexivity | reflexivity | reflexivity
    | apply (bool_decide_unpack _); reflexivity
    | reflexivity | reflexivity | by left ].
Defined.

(** X20 on a query with the resolution 0: no resolution is asked for. *)
Lemma time_series_queries_send_the_resolution_only_when_it_is_truthy_witness :
  let w := world_outside (session (remote_answering (answer_of PNone))) in
  let dates :=
    [("timezone", PStr "Asia/Tokyo");
     ("fromDate", PStr "2024-04-01");
     ("toDate", PStr "2024-04-02");
     ("channels", PList [PStr "meter0/ActivePower"])] in
  (∃ id,
     sent (heap (query_historic_timeseries_data no_repr frame_as_dict client
                   (PStr "edge0") (day "2024-04-01") (day "2024-04-02")
                   (PList [PStr "meter0/ActivePower"]) (PInt 0) outside w).2)
     = sent (login no_repr client (heap w)).2
       ++ [ReqEdgeRpc (PStr "edge0")
             (PDict [("jsonrpc", PStr "2.0");
                     ("method", PStr "queryHistoricTimeseriesData");
                     ("params", PDict (dates ++ []));
                     ("id", id)])])
  ∧ (∃ id,
       sent (heap (query_futuristic_timeseries_data no_repr frame_as_dict
                     client (PStr "edge0") (day "2024-04-01")
                     (day "2024-04-02") (PList [PStr "meter0/ActivePower"])
                     (PStr "ctrlOutput0") (PInt 0) outside w).2)
       = sent (login no_repr client (heap w)).2
         ++ [ReqEdgeRpc (PStr "edge0")
               (PDict [("jsonrpc", PStr "2.0");
                       ("method", PStr "queryFuturisticTimeseriesData");
                       ("params",
                        PDict (dates ++ [("componentId", PStr "ctrlOutput0")]
                                 ++ []));
                       ("id", id)])])
  ∧ (PInt 0 = PNone ∨ PInt 0 = PInt 0 → @nil (string * PyVal) = []).
Proof.
  apply (time_series_queries_send_the_resolution_only_when_it_is_truthy
           no_repr frame_as_dict client (PStr "edge0") (day "2024-04-01")
           (day "2024-04-02") (PList [PStr "meter0/ActivePower"])
           (PStr "ctrlOutput0") (PInt 0) outside
           (world_outside (session (remote_answering (answer_of PNone))))
           (fresh_handle client (session (remote_answering (answer_of PNone)))));
    [client_is_ready|reflexivity].
Defined.

(** X21 on four calls of edges, one of them with an id of its own inside
    its payload. *)
Lemma no_two_calls_of_an_edge_carry_the_same_id_witness :
  NoDup (omap request_id
           (sent (heap (Api.performs no_repr frame_as_dict client
                          [OfMethod (GetEdgeConfig (PStr "edge0"));
                           OfMethod (GetChannelsOfComponent (PStr "edge0")
                                       (PStr "meter0"));
                           GetMeterList (PStr "edge1");
                           OfMethod (GetEdgeConfig (PStr "edge0"))]
                          outside
                          (world_outside
                             (session (remote_answering
                                         (answer_of edge_config))))).2))).
Proof.
  apply (no_two_calls_of_an_edge_carry_the_same_id no_repr frame_as_dict
           client);
    [ client_is_ready
    | exists []; split_and!; [reflexivity|constructor|constructor]
    | exact pretty_nat_inj ].
Defined.

End MoreChecks.
